(** * atomic-chess-analysis: a shallow embedding of the PGN validator,
      the element-wait utility and the two page agents.

    Part I holds the definitions, translated from the JavaScript sources;
    Part II holds the lemmas and theorems about them. *)

From Stdlib Require Import Ascii String.
From stdpp Require Import base numbers list option gmap.

Set Default Proof Using "Type".
Local Open Scope N_scope.

(* ===================================================================== *)
(** * Part I: definitions *)
(* ===================================================================== *)

(** ** JavaScript strings

    A JavaScript string is a sequence of UTF-16 code units.  A code unit is
    modelled as an [N]; the functions below never look at a bound, so what
    is proved for every [list N] holds for every JavaScript string. *)

Abbreviation jsstring := (list N).

Module Js.

Definition cu (a : ascii) : N := N_of_ascii a.

(** The string literal [s] of the source (ASCII only). *)
Definition lit (s : string) : jsstring := List.map cu (list_ascii_of_string s).

Definition LF : N := 10.
Definition CR : N := 13.

Definition in_range (r : N * N) (c : N) : bool := (r.1 <=? c) && (c <=? r.2).
Definition in_ranges (rs : list (N * N)) (c : N) : bool :=
  existsb (fun r => in_range r c) rs.

(** ECMAScript WhiteSpace and LineTerminator code points: what [trim]
    removes and what [\s] matches.  TAB LF VT FF CR, SP, NBSP, U+1680,
    U+2000..U+200A, U+2028, U+2029, U+202F, U+205F, U+3000, U+FEFF. *)
Definition WHITESPACE : list (N * N) :=
  [ (9, 13); (32, 32); (160, 160); (5760, 5760); (8192, 8202);
    (8232, 8233); (8239, 8239); (8287, 8287); (12288, 12288);
    (65279, 65279) ].

(** [\d], [\w] and [[a-zA-Z]]. *)
Definition DIGIT : list (N * N) := [ (48, 57) ].
Definition WORD : list (N * N) := [ (97, 122); (65, 90); (48, 57); (95, 95) ].
Definition LETTER : list (N * N) := [ (97, 122); (65, 90) ].

Definition is_ws (c : N) : bool := in_ranges WHITESPACE c.
Definition is_word (c : N) : bool := in_ranges WORD c.

Fixpoint drop_while (p : N -> bool) (s : jsstring) : jsstring :=
  match s with
  | [] => []
  | c :: t => if p c then drop_while p t else s
  end.

(** [String.prototype.trim]. *)
Definition trimStart (s : jsstring) : jsstring := drop_while is_ws s.
Definition trimEnd (s : jsstring) : jsstring := rev (drop_while is_ws (rev s)).
Definition trim (s : jsstring) : jsstring := trimEnd (trimStart s).

(** [s.split(sep)] for a one-character separator; [''.split(sep)] is
    the one-element array holding the empty string. *)
Fixpoint split (sep : N) (s : jsstring) : list jsstring :=
  match s with
  | [] => [[]]
  | c :: t =>
      if c =? sep then [] :: split sep t
      else match split sep t with
           | l :: ls => (c :: l) :: ls
           | [] => [[c]]
           end
  end.

Definition str_eqb (a b : jsstring) : bool := bool_decide (a = b).

(** [arr.includes(x)] on an array of strings. *)
Definition includes (arr : list jsstring) (x : jsstring) : bool :=
  existsb (str_eqb x) arr.

(** JavaScript values, as far as [typeof] and truthiness observe them. *)
Inductive value :=
| VUndefined
| VNull
| VBoolean (b : bool)
| VNumber (z : Z)
| VNaN
| VString (s : jsstring)
| VSymbol (id : nat)
| VObject (id : nat)
| VFunction (id : nat).

Inductive type_tag :=
| TUndefined | TObject | TBoolean | TNumber | TString | TSymbol | TFunction.

Definition typeof (v : value) : type_tag :=
  match v with
  | VUndefined => TUndefined
  | VNull => TObject
  | VBoolean _ => TBoolean
  | VNumber _ | VNaN => TNumber
  | VString _ => TString
  | VSymbol _ => TSymbol
  | VObject _ => TObject
  | VFunction _ => TFunction
  end.

(** ToBoolean. *)
Definition truthy (v : value) : bool :=
  match v with
  | VUndefined | VNull | VNaN => false
  | VBoolean b => b
  | VNumber z => negb (Z.eqb z 0)
  | VString s => match s with [] => false | _ => true end
  | VSymbol _ | VObject _ | VFunction _ => true
  end.

Definition is_string (v : value) : bool :=
  match v with VString _ => true | _ => false end.

(** The result of evaluating an expression that may throw. *)
Inductive completion (A : Type) :=
| Normal (a : A)
| Throw (msg : jsstring).
Arguments Normal {A} a.
Arguments Throw {A} msg.

(** A method of [String.prototype] called on a value: on a string it
    runs, on [undefined] and [null] the property access throws, and on any
    other value the method is missing (or is another method), which is
    modelled as a throw as well. *)
Definition call_string_method (f : jsstring -> jsstring) (v : value)
  : completion value :=
  match v with
  | VString s => Normal (VString (f s))
  | _ => Throw (lit "TypeError")
  end.

Definition bind {A B} (f : A -> completion B) (c : completion A) : completion B :=
  match c with
  | Normal a => f a
  | Throw e => Throw e
  end.

#[export] Instance completion_bind : MBind completion := @bind.

Definition type_tag_eqb (a b : type_tag) : bool :=
  match a, b with
  | TUndefined, TUndefined | TObject, TObject | TBoolean, TBoolean
  | TNumber, TNumber | TString, TString | TSymbol, TSymbol
  | TFunction, TFunction => true
  | _, _ => false
  end.

End Js.

(** ** Regular expressions

    A backtracking matcher in the style of the ECMAScript specification
    (a matcher takes a state and a continuation), for the fragment of the
    syntax the sources use. *)

Module Regex.
Import Js.

Inductive regex :=
| Eps
| Chr (c : N)                           (* a literal character *)
| Cls (inv : bool) (rs : list (N * N))  (* [...] and [^...], \d \w \s *)
| Seq (a b : regex)
| Star (a : regex)                      (* greedy a* *)
| Group (i : nat) (a : regex)           (* the i-th capturing group *)
| NegLook (a : regex)                   (* (?!a) *)
| WordB.                                (* \b *)

(** a+ and a{n,} *)
Definition Plus (a : regex) : regex := Seq a (Star a).
Fixpoint AtLeast (n : nat) (a : regex) : regex :=
  match n with
  | O => Star a
  | S n' => Seq a (AtLeast n' a)
  end.
(** a sequence of literal characters *)
Definition Lit (s : jsstring) : regex := fold_right (fun c r => Seq (Chr c) r) Eps s.

(** The state of a match: the character before the current position
    (for [\b]), the input from the current position on, and the captures
    made so far (the latest first). *)
Record mstate := MState {
  m_prev : option N;
  m_rest : jsstring;
  m_caps : list (nat * jsstring)
}.

Definition continuation := mstate -> option mstate.

(** Canonicalize of the [i] flag (without the [u] flag).  The patterns
    that carry the flag hold ASCII characters only, and a character
    outside ASCII never canonicalizes to an ASCII one, so folding the
    ASCII letters is all that is observed. *)
Definition to_upper (c : N) : N := if (97 <=? c) && (c <=? 122) then c - 32 else c.
Definition to_lower (c : N) : N := if (65 <=? c) && (c <=? 90) then c + 32 else c.
Definition canon (ci : bool) (c : N) : N := if ci then to_upper c else c.

Definition chr_match (ci : bool) (c x : N) : bool := canon ci x =? canon ci c.
Definition in_class (ci : bool) (rs : list (N * N)) (x : N) : bool :=
  in_ranges rs x || (ci && (in_ranges rs (to_upper x) || in_ranges rs (to_lower x))).
Definition cls_match (ci inv : bool) (rs : list (N * N)) (x : N) : bool :=
  xorb inv (in_class ci rs x).

Definition eat (test : N -> bool) (s : mstate) (k : continuation) : option mstate :=
  match m_rest s with
  | c :: t => if test c then k (MState (Some c) t (m_caps s)) else None
  | [] => None
  end.

Definition at_word_boundary (s : mstate) : bool :=
  xorb (match m_prev s with Some c => is_word c | None => false end)
       (match m_rest s with c :: _ => is_word c | [] => false end).

(** The text between two states of one match. *)
Definition consumed (s s1 : mstate) : jsstring :=
  take (length (m_rest s) - length (m_rest s1)) (m_rest s).

Definition set_cap (i : nat) (s s1 : mstate) : mstate :=
  MState (m_prev s1) (m_rest s1) ((i, consumed s s1) :: m_caps s1).

(** RepeatMatcher with min = 0 and no upper bound, greedy: an iteration
    that matches the empty string is refused.  Every accepted iteration
    shortens the input, so [fuel] above its length is never used up. *)
Fixpoint star (ma : mstate -> continuation -> option mstate) (fuel : nat)
         (s : mstate) (k : continuation) : option mstate :=
  match fuel with
  | O => k s
  | S f =>
      match ma s (fun s1 =>
                    if (length (m_rest s1) <? length (m_rest s))%nat
                    then star ma f s1 k else None) with
      | Some r => Some r
      | None => k s
      end
  end.

Fixpoint m (ci : bool) (r : regex) (s : mstate) (k : continuation)
  : option mstate :=
  match r with
  | Eps => k s
  | Chr c => eat (chr_match ci c) s k
  | Cls inv rs => eat (cls_match ci inv rs) s k
  | Seq a b => m ci a s (fun s1 => m ci b s1 k)
  | Star a => star (m ci a) (S (length (m_rest s))) s k
  | Group i a => m ci a s (fun s1 => k (set_cap i s s1))
  | NegLook a => match m ci a s Some with Some _ => None | None => k s end
  | WordB => if at_word_boundary s then k s else None
  end.

(** One attempt at the current position. *)
Definition match_here (ci : bool) (r : regex) (prev : option N) (s : jsstring)
  : option mstate :=
  m ci r (MState prev s []) Some.

(** RegExpBuiltinExec without the [g] flag: the leftmost position at
    which the pattern matches. *)
Fixpoint search (ci : bool) (r : regex) (prev : option N) (s : jsstring)
  : option mstate :=
  match match_here ci r prev s with
  | Some st => Some st
  | None =>
      match s with
      | [] => None
      | c :: t => search ci r (Some c) t
      end
  end.

Definition exec (ci : bool) (r : regex) (s : jsstring) : option mstate :=
  search ci r None s.

(** [regex.test(s)] *)
Definition test (ci : bool) (r : regex) (s : jsstring) : bool :=
  match exec ci r s with Some _ => true | None => false end.

(** The text of capturing group [i] after a match. *)
Fixpoint cap_lookup (i : nat) (caps : list (nat * jsstring)) : option jsstring :=
  match caps with
  | [] => None
  | (j, w) :: t => if Nat.eqb i j then Some w else cap_lookup i t
  end.

(** [s.replace(/r/g, repl)] for a replacement text without [$]:
    successive matches from the left, each replaced; the search goes on
    behind the match ([skip] counts the characters of a match still to be
    passed), and one character further after an empty match. *)
Fixpoint replace_from (ci : bool) (r : regex) (repl : jsstring)
         (prev : option N) (s : jsstring) (skip : nat) : jsstring :=
  match skip, s with
  | S n, c :: t => replace_from ci r repl (Some c) t n
  | S _, [] => []
  | O, _ =>
      match match_here ci r prev s with
      | Some st =>
          repl ++
          match s with
          | [] => []
          | c :: t =>
              match (length s - length (m_rest st))%nat with
              | O => c :: replace_from ci r repl (Some c) t O
              | S n => replace_from ci r repl (Some c) t n
              end
          end
      | None =>
          match s with
          | [] => []
          | c :: t => c :: replace_from ci r repl (Some c) t O
          end
      end
  end.

Definition replace_all (ci : bool) (r : regex) (repl : jsstring) (s : jsstring)
  : jsstring :=
  replace_from ci r repl None s O.

(** *** What a match consists of

    [den ci r s s'] reads: the pattern [r] can take the matcher from the
    state [s] to the state [s'].  The matcher only returns results built
    this way (lemma [m_sound] of Part II). *)
Inductive den (ci : bool) : regex -> mstate -> mstate -> Prop :=
| den_eps s : den ci Eps s s
| den_chr c x t p caps :
    chr_match ci c x = true ->
    den ci (Chr c) (MState p (x :: t) caps) (MState (Some x) t caps)
| den_cls inv rs x t p caps :
    cls_match ci inv rs x = true ->
    den ci (Cls inv rs) (MState p (x :: t) caps) (MState (Some x) t caps)
| den_seq a b s1 s2 s3 :
    den ci a s1 s2 -> den ci b s2 s3 -> den ci (Seq a b) s1 s3
| den_star_nil a s : den ci (Star a) s s
| den_star_cons a s1 s2 s3 :
    den ci a s1 s2 -> den ci (Star a) s2 s3 -> den ci (Star a) s1 s3
| den_group i a s s1 :
    den ci a s s1 -> den ci (Group i a) s (set_cap i s s1)
| den_neglook a s :
    m ci a s Some = None -> den ci (NegLook a) s s
| den_wordb s :
    at_word_boundary s = true -> den ci WordB s s.

(** The greedy star over a one-character test, written by recursion on
    the input: take the character when the test accepts it and try the
    rest, fall back to the continuation here otherwise. *)
Fixpoint star_eat (test : N -> bool) (prev : option N) (s : jsstring)
         (caps : list (nat * jsstring)) (k : continuation) : option mstate :=
  match s with
  | c :: t =>
      if test c then
        match star_eat test (Some c) t caps k with
        | Some r => Some r
        | None => k (MState prev s caps)
        end
      else k (MState prev s caps)
  | [] => k (MState prev [] caps)
  end.

(** The character before the position reached after reading [w]. *)
Definition prev_after (prev : option N) (w : jsstring) : option N :=
  match last w with
  | Some c => Some c
  | None => prev
  end.

End Regex.

(** ** The PGN validator (pgn-validator module) *)

Module Pgn.
Import Js Regex.

Definition QUOTE : N := 34.
Definition LT : N := 60.
Definition GT : N := 62.

Definition REQUIRED_HEADERS : list jsstring :=
  [ lit "Event"; lit "Site"; lit "Date"; lit "White"; lit "Black"; lit "Result" ].

(** [REGEX_PATTERNS.PGN_HEADER]: /\[(\w+)\s+Q([^Q]+)Q\]/, where Q stands
    for the double quote character. *)
Definition PGN_HEADER : regex :=
  Seq (Chr (cu "["))
    (Seq (Group 1 (Plus (Cls false WORD)))
       (Seq (Plus (Cls false WHITESPACE))
          (Seq (Chr QUOTE)
             (Seq (Group 2 (Plus (Cls true [(QUOTE, QUOTE)])))
                (Seq (Chr QUOTE) (Chr (cu "]"))))))).

(** [movePattern] of checkForMoves: /\d+\.\s*[a-zA-Z]/ *)
Definition movePattern : regex :=
  Seq (Plus (Cls false DIGIT))
    (Seq (Chr (cu "."))
       (Seq (Star (Cls false WHITESPACE)) (Cls false LETTER))).

(** The patterns of sanitizePGN: /<[^>]*>/g, the script pattern
    /<script\b[^<]*(?:(?!<\/script>)<[^<]* )*<\/script>/gi (printed here
    with a blank after the inner star, which the source does not have),
    /\r\n/g, /\r/g and /\n{3,}/g. *)
Definition HTML_TAG : regex :=
  Seq (Chr LT) (Seq (Star (Cls true [(GT, GT)])) (Chr GT)).

Definition SCRIPT_BLOCK : regex :=
  Seq (Lit (lit "<script"))
    (Seq WordB
       (Seq (Star (Cls true [(LT, LT)]))
          (Seq (Star (Seq (NegLook (Lit (lit "</script>")))
                        (Seq (Chr LT) (Star (Cls true [(LT, LT)])))))
             (Lit (lit "</script>"))))).

Definition CRLF : regex := Seq (Chr CR) (Chr LF).
Definition LONE_CR : regex := Chr CR.
Definition BLANK_RUN : regex := AtLeast 3 (Chr LF).

(** The headers object.  [headers[key] = value] creates or overwrites an
    own property, except for the key [__proto__], where the assignment
    runs the setter of Object.prototype, which ignores a string.  The
    properties read below (the six required names and [Variant]) are not
    properties of Object.prototype, so a read that finds no own property
    yields [undefined]. *)
Definition obj_set (h : gmap jsstring jsstring) (key value : jsstring)
  : gmap jsstring jsstring :=
  if str_eqb key (lit "__proto__") then h else <[key := value]> h.

Definition obj_get (h : gmap jsstring jsstring) (key : jsstring) : option jsstring :=
  h !! key.

(** Truthiness of [headers[key]]: neither [undefined] nor empty. *)
Definition has_header (h : gmap jsstring jsstring) (key : jsstring) : bool :=
  match obj_get h key with
  | Some (_ :: _) => true
  | _ => false
  end.

(** [line.match(REGEX_PATTERNS.PGN_HEADER)]: the two captures of the
    leftmost match. *)
Definition match_header (line : jsstring) : option (jsstring * jsstring) :=
  match exec false PGN_HEADER line with
  | Some st =>
      match cap_lookup 1 (m_caps st), cap_lookup 2 (m_caps st) with
      | Some key, Some value => Some (key, value)
      | _, _ => None
      end
  | None => None
  end.

(** The body of the loop of extractHeaders. *)
Definition add_header (headers : gmap jsstring jsstring) (line : jsstring)
  : gmap jsstring jsstring :=
  match match_header line with
  | Some (key, value) => obj_set headers key value
  | None => headers
  end.

Definition extractHeaders (pgn : jsstring) : gmap jsstring jsstring :=
  fold_left add_header (split LF pgn) ∅.

Definition checkForMoves (pgn : jsstring) : bool := test false movePattern pgn.

Record validation := Validation {
  valid : bool;
  errors : list jsstring;
  warnings : list jsstring
}.

Definition validResults : list jsstring :=
  [ lit "1-0"; lit "0-1"; lit "1/2-1/2"; lit "*" ].

Section Validate.
(** [String.prototype.toLowerCase], which follows the Unicode case
    tables, is taken as given. *)
Variable toLowerCase : jsstring -> jsstring.

Definition missing_headers (headers : gmap jsstring jsstring) : list jsstring :=
  flat_map
    (fun requiredHeader =>
       if has_header headers requiredHeader then []
       else [lit "Missing required header: " ++ requiredHeader])
    REQUIRED_HEADERS.

Definition moves_warning (trimmedPGN : jsstring) : list jsstring :=
  if checkForMoves trimmedPGN then [] else [lit "No moves found in PGN"].

Definition result_warning (headers : gmap jsstring jsstring) : list jsstring :=
  match obj_get headers (lit "Result") with
  | Some (c :: r) =>
      if includes validResults (c :: r) then []
      else [lit "Unusual result format: " ++ (c :: r)]
  | _ => []
  end.

Definition variant_warning (headers : gmap jsstring jsstring) : list jsstring :=
  match obj_get headers (lit "Variant") with
  | Some (c :: r) =>
      if str_eqb (toLowerCase (c :: r)) (lit "atomic") then []
      else [lit "Variant is " ++ [QUOTE] ++ (c :: r) ++ [QUOTE]
            ++ lit " (expected " ++ [QUOTE] ++ lit "atomic" ++ [QUOTE] ++ lit ")"]
  | _ =>
      [lit "No Variant header found (should be " ++ [QUOTE] ++ lit "atomic"
       ++ [QUOTE] ++ lit " for atomic chess)"]
  end.

(** validatePGN.  The two calls of [log] write to the console only. *)
Definition validatePGN (pgn : value) : validation :=
  if negb (truthy pgn) || negb (type_tag_eqb (typeof pgn) TString) then
    Validation false [lit "PGN is empty or invalid type"] []
  else
    match pgn with
    | VString s =>
        let trimmedPGN := trim s in
        if (length trimmedPGN =? 0)%nat then
          Validation false [lit "PGN is empty"] []
        else
          let headers := extractHeaders trimmedPGN in
          let errors := missing_headers headers in
          let warnings :=
            moves_warning trimmedPGN ++ result_warning headers
            ++ variant_warning headers in
          Validation (length errors =? 0)%nat errors warnings
    | _ => Validation false [lit "PGN is empty or invalid type"] []
    end.
End Validate.

(** sanitizePGN.  Each [replace] and the [trim] are method calls on the
    current value of [sanitized]. *)
Definition sanitizePGN (pgn : value) : completion value :=
  if negb (truthy pgn) || negb (type_tag_eqb (typeof pgn) TString) then
    Normal (VString [])
  else
    sanitized ← call_string_method (replace_all false HTML_TAG []) pgn;
    sanitized ← call_string_method (replace_all true SCRIPT_BLOCK []) sanitized;
    sanitized ← call_string_method (replace_all false CRLF [LF]) sanitized;
    sanitized ← call_string_method (replace_all false LONE_CR [LF]) sanitized;
    sanitized ← call_string_method (replace_all false BLANK_RUN [LF; LF]) sanitized;
    sanitized ← call_string_method trim sanitized;
    Normal sanitized.

End Pgn.

(** ** Notions the statements about the validator use *)

Module PgnSpec.
Import Js Regex Pgn.

(** The text behind the first [x] of [s], if there is one. *)
Fixpoint after_first (x : N) (s : jsstring) : option jsstring :=
  match s with
  | [] => None
  | c :: t => if c =? x then Some t else after_first x t
  end.

Definition is_LF (c : N) : bool := c =? LF.

(** No [<] of [s] has a [>] anywhere behind it. *)
Definition no_tag (s : jsstring) : Prop := ~ [LT; GT] `sublist_of` s.

(** No three newline characters in a row. *)
Definition no_blank_run (s : jsstring) : Prop :=
  forall a b, s <> a ++ LF :: LF :: LF :: b.

(** What the two line-ending replacements compute, one after the
    other. *)
Fixpoint crlf_to_lf (s : jsstring) : jsstring :=
  match s with
  | [] => []
  | c :: t =>
      if c =? CR then
        match t with
        | d :: t' => if d =? LF then LF :: crlf_to_lf t' else c :: crlf_to_lf t
        | [] => [c]
        end
      else c :: crlf_to_lf t
  end.

Definition cr_to_lf (s : jsstring) : jsstring :=
  List.map (fun c => if c =? CR then LF else c) s.

(** Line endings, as the specification words it: every CR LF pair and
    every other CR becomes one LF. *)
Fixpoint normalize_eol (s : jsstring) : jsstring :=
  match s with
  | [] => []
  | c :: t =>
      if c =? CR then
        match t with
        | d :: t' => if d =? LF then LF :: normalize_eol t' else LF :: normalize_eol t
        | [] => [LF]
        end
      else c :: normalize_eol t
  end.

(** Runs of newline characters: a maximal run of [n] newlines becomes a
    run of [min n 2], so a run of three or more becomes exactly two and a
    shorter run is kept.  [run] counts the newlines of the run being
    read. *)
Fixpoint collapse_runs (run : nat) (s : jsstring) : jsstring :=
  match s with
  | [] => replicate (Nat.min run 2) LF
  | c :: t =>
      if c =? LF then collapse_runs (S run) t
      else replicate (Nat.min run 2) LF ++ c :: collapse_runs 0 t
  end.

(** The first two replacements of sanitizePGN. *)
Definition strip_markup (s : jsstring) : jsstring :=
  replace_all true SCRIPT_BLOCK [] (replace_all false HTML_TAG [] s).

(** sanitizePGN on a string, as a function on strings. *)
Definition sanitize_string (s : jsstring) : jsstring :=
  trim (replace_all false BLANK_RUN [LF; LF]
          (replace_all false LONE_CR [LF]
             (replace_all false CRLF [LF] (strip_markup s)))).

(** A string neither starts nor ends with white space. *)
Definition trimmed (s : jsstring) : Prop :=
  match s with
  | [] => True
  | c :: _ => is_ws c = false /\ exists d, last s = Some d /\ is_ws d = false
  end.

(** The number of blank (empty) lines of a text. *)
Definition blank_lines (s : jsstring) : nat :=
  length (filter (fun l => l = []) (split LF s)).

(** *** Header lines and move tokens in a record

    The line [[Key "Value"]]: an opening bracket, the key, white space,
    and the value between double quotes, then the closing bracket. *)
Definition header_line (key ws value : jsstring) : jsstring :=
  cu "[" :: key ++ ws ++ QUOTE :: value ++ [QUOTE; cu "]"].

(** The white space between key and value is not empty and stays on the
    line; the value is not empty, holds no double quote and stays on the
    line. *)
Record header_shape (ws value : jsstring) : Prop := HeaderShape {
  hs_ws_nonempty : ws <> [];
  hs_ws : Forall (fun c => is_ws c = true) ws;
  hs_ws_line : LF ∉ ws;
  hs_value_nonempty : value <> [];
  hs_value_quote : QUOTE ∉ value;
  hs_value_line : LF ∉ value
}.

(** The record has the header [key] with the value [value]: one of the
    lines of the record is the line [[key "value"]]. *)
Definition has_header_line (key value s : jsstring) : Prop :=
  exists ws, header_shape ws value /\ header_line key ws value ∈ split LF s.

(** The text holds a header [[key "..."]] somewhere, at the start of a
    line or not. *)
Definition contains_header (key s : jsstring) : Prop :=
  exists a ws value b,
    header_shape ws value /\ s = a ++ header_line key ws value ++ b.

(** A text that is empty or ends with a newline, and a text that is
    empty or starts with one: what stands before and behind a line. *)
Definition ends_line (pre : jsstring) : Prop :=
  pre = [] \/ exists p, pre = p ++ [LF].
Definition starts_line (post : jsstring) : Prop :=
  post = [] \/ exists q, post = LF :: q.

(** A move token: a move number, a dot, optional white space and a
    letter. *)
Definition move_token (ds ws : jsstring) (c : N) : jsstring :=
  ds ++ cu "." :: ws ++ [c].

Definition contains_move (s : jsstring) : Prop :=
  exists a ds ws c b,
    s = a ++ move_token ds ws c ++ b
    /\ ds <> [] /\ Forall (fun d => in_ranges DIGIT d = true) ds
    /\ Forall (fun d => is_ws d = true) ws
    /\ in_ranges LETTER c = true.

(** The head of a record (PGN export format): the lines before the
    first empty line. *)
Fixpoint lines_before_blank (ls : list jsstring) : list jsstring :=
  match ls with
  | [] => []
  | l :: t => match l with [] => [] | _ => l :: lines_before_blank t end
  end.

Definition header_section (s : jsstring) : list jsstring :=
  lines_before_blank (split LF s).

(** [w] occurs in [s]. *)
Fixpoint starts_with (w s : jsstring) : bool :=
  match w, s with
  | [], _ => true
  | c :: w', d :: s' => (c =? d) && starts_with w' s'
  | _ :: _, [] => false
  end.

Fixpoint occurs_in (w s : jsstring) : bool :=
  starts_with w s || match s with [] => false | _ :: t => occurs_in w t end.

(** toLowerCase on ASCII text, for the examples. *)
Definition ascii_toLowerCase (s : jsstring) : jsstring := List.map to_lower s.

(** Example records.  [five_headers] holds every required header but
    Result; [stray_result_record] adds a move text whose comment quotes a
    Result header. *)
Definition header (key value : string) : jsstring :=
  header_line (lit key) (lit " ") (lit value) ++ [LF].

Definition five_headers : jsstring :=
  header "Event" "Live Chess" ++ header "Site" "Chess.com"
  ++ header "Date" "2024.01.01" ++ header "White" "alice"
  ++ header "Black" "bob".

Definition stray_result_record : jsstring :=
  five_headers ++ [LF] ++ lit "1. e4 {" ++ header_line (lit "Result") (lit " ") (lit "1-0")
  ++ lit "} e5".

Definition complete_record : jsstring :=
  five_headers ++ header "Result" "1-0" ++ [LF] ++ lit "1. e4 e5".

Definition odd_result_record : jsstring :=
  five_headers ++ header "Result" "??" ++ [LF] ++ lit "1. e4 e5".

End PgnSpec.

(** ** Constants (the constants module) *)

Module Constants.
Import Js.

Definition TIMEOUT_ELEMENT_WAIT : N := 5000.
Definition TIMEOUT_BUTTON_DEBOUNCE : N := 300.

(** ERROR_MESSAGES *)
Definition PGN_NOT_FOUND : jsstring :=
  lit "Game data not found. Please ensure the game is fully loaded.".
Definition PGN_BUTTON_NOT_FOUND : jsstring :=
  lit "Download button not found. The Chess.com interface may have changed.".
Definition CLIPBOARD_WRITE_DENIED : jsstring :=
  lit "Clipboard access denied. Please check browser permissions.".
Definition CLIPBOARD_READ_DENIED : jsstring :=
  lit "Could not read clipboard. Please check browser permissions or paste manually.".
Definition LICHESS_TAB_FAILED : jsstring :=
  lit "Could not open Lichess tab. Please check if pop-ups are blocked.".
Definition TEXTAREA_NOT_FOUND : jsstring :=
  lit "Paste area not found. Please try manually.".
Definition INVALID_PGN : jsstring :=
  lit "Invalid game data format. Please try downloading the PGN manually.".
Definition GENERIC_ERROR : jsstring :=
  lit "An error occurred. Please try again.".

(** SUCCESS_MESSAGES and LOADING_MESSAGES *)
Definition SENT_TO_LICHESS : jsstring := lit "Game sent to Lichess!".
Definition READY_FOR_ANALYSIS : jsstring := lit "Ready for analysis!".
Definition EXTRACTING_PGN : jsstring := lit "Extracting game data...".
Definition OPENING_LICHESS : jsstring := lit "Opening Lichess...".
Definition PASTING_DATA : jsstring := lit "Pasting game data...".
Definition SUBMITTING_FORM : jsstring := lit "Loading analysis...".

End Constants.

(** ** Scripts: state, effects, errors and try/catch

    An asynchronous function of the content scripts runs on the one event
    loop of its page; between its awaits nothing else of the script runs
    that the statements here depend on, so a call is modelled as a function
    from the module variables to their new values, the effects of the call
    in order, and its completion: a value, or a thrown error. *)

Module Script.
Import Js.

Record error := Error { err_name : jsstring; err_message : jsstring }.

(** [new Error(message)] *)
Definition new_Error (message : jsstring) : error := Error (lit "Error") message.

(** [error.message || fallback] *)
Definition message_or (e : error) (fallback : jsstring) : jsstring :=
  match err_message e with [] => fallback | msg => msg end.

Inductive level := debug | info | warn | err.

(** The arguments of a call of [log]; a number shown inside a template
    text is kept as a number. *)
Inductive log_item :=
| Txt (s : jsstring)
| Num (n : nat)
| Err (e : error).

Inductive outcome (A : Type) :=
| Ok (a : A)
| Thrown (e : error).
Arguments Ok {A} a.
Arguments Thrown {A} e.

Section Prog.
Context {S E : Type}.

Definition prog (A : Type) : Type := S -> S * list E * outcome A.

Definition ret {A} (a : A) : prog A := fun s => (s, [], Ok a).
Definition throw {A} (e : error) : prog A := fun s => (s, [], Thrown e).
Definition emit (e : E) : prog unit := fun s => (s, [e], Ok tt).
Definition get : prog S := fun s => (s, [], Ok s).
Definition put (s' : S) : prog unit := fun _ => (s', [], Ok tt).

Definition bind {A B} (f : A -> prog B) (c : prog A) : prog B := fun s =>
  match c s with
  | (s1, t, Ok a) => match f a s1 with (s2, t', r) => (s2, t ++ t', r) end
  | (s1, t, Thrown e) => (s1, t, Thrown e)
  end.

(** [try { body } catch (error) { handler }]: what the body did before
    it threw stays done. *)
Definition try_catch {A} (body : prog A) (handler : error -> prog A) : prog A :=
  fun s =>
    match body s with
    | (s1, t, Thrown e) =>
        match handler e s1 with (s2, t', r) => (s2, t ++ t', r) end
    | (s1, t, Ok a) => (s1, t, Ok a)
    end.

Definition final {A} (r : S * list E * outcome A) : S := r.1.1.
Definition trace {A} (r : S * list E * outcome A) : list E := r.1.2.
Definition result {A} (r : S * list E * outcome A) : outcome A := r.2.
End Prog.

Arguments prog S E A : clear implicits.

#[export] Instance prog_ret {S E} : MRet (prog S E) := @ret S E.
#[export] Instance prog_bind {S E} : MBind (prog S E) := @bind S E.

End Script.

(** ** The element-wait utility (dom-utils module) *)

Module DomUtils.
Import Js Script.

Section Wait.
(** Elements of the page, and CSS selectors.  [querySelector] throws on
    a text that is no selector; a [selector] here is one that parses, as
    the literal selectors of the callers are. *)
Variables (element selector : Type).

(** [root.querySelector(selector)]: the first matching element, or
    null. *)
Definition dom := selector -> option element.

Inductive wait_effect :=
| WLog (lv : level) (text : string) (sel : list selector)
| Resolve (e : element)
| Reject (timeout : N) (sels : list selector)
| SetTimeout (timeout : N)
| ClearTimeout
| NewObserver       (* new MutationObserver(callback) *)
| Observe           (* observer.observe(root, ...) *)
| Disconnect.       (* observer.disconnect() *)

(** [Array.isArray(selectors) ? selectors : [selectors]] *)
Definition selectorArray (selectors : selector + list selector) : list selector :=
  match selectors with
  | inl s => [s]
  | inr l => l
  end.

(** The loop [for (const selector of selectorArray)] with its early
    return: the first selector that finds an element, and the element. *)
Fixpoint find_first (root : dom) (sels : list selector) : option (selector * element) :=
  match sels with
  | [] => None
  | sel :: rest =>
      match root sel with
      | Some e => Some (sel, e)
      | None => find_first root rest
      end
  end.

(** The executor of the promise waitForElement returns: what the call
    does before it returns. *)
Definition waitForElement (selectors : selector + list selector)
           (timeout : N) (root : dom) : list wait_effect :=
  let sels := selectorArray selectors in
  match find_first root sels with
  | Some (sel, e) =>
      [ WLog debug "Element found immediately" [sel]; Resolve e ]
  | None =>
      [ WLog debug "Waiting for element" sels;
        SetTimeout timeout; NewObserver; Observe ]
  end.

(** The callback of the observer, run on a mutation of the page. *)
Definition on_mutation (selectors : selector + list selector) (root : dom)
  : list wait_effect :=
  match find_first root (selectorArray selectors) with
  | Some (sel, e) =>
      [ WLog debug "Element found via observer" [sel];
        ClearTimeout; Disconnect; Resolve e ]
  | None => []
  end.

(** The callback of the timer. *)
Definition on_timeout (selectors : selector + list selector) (timeout : N)
  : list wait_effect :=
  let sels := selectorArray selectors in
  [ Disconnect; WLog warn "Timeout waiting for element" sels;
    Reject timeout sels ].

Definition is_watcher (e : wait_effect) : bool :=
  match e with
  | NewObserver | Observe => true
  | _ => false
  end.

Definition is_timer (e : wait_effect) : bool :=
  match e with
  | SetTimeout _ => true
  | _ => false
  end.

(** The first thing the promise is settled with. *)
Fixpoint settled (t : list wait_effect) : option (element + unit) :=
  match t with
  | [] => None
  | Resolve e :: _ => Some (inl e)
  | Reject _ _ :: _ => Some (inr tt)
  | _ :: r => settled r
  end.
End Wait.

Arguments WLog {element selector}.
Arguments Resolve {element selector}.
Arguments Reject {element selector}.
Arguments SetTimeout {element selector}.
Arguments ClearTimeout {element selector}.
Arguments NewObserver {element selector}.
Arguments Observe {element selector}.
Arguments Disconnect {element selector}.
Arguments waitForElement {element selector}.
Arguments on_mutation {element selector}.
Arguments on_timeout {element selector}.
Arguments find_first {element selector}.
Arguments selectorArray {selector}.
Arguments is_watcher {element selector}.
Arguments is_timer {element selector}.
Arguments settled {element selector}.

(** An example page: it has no [textarea.form-control], but a
    [textarea]. *)
Definition example_root (sel : string) : option nat :=
  if String.eqb sel "textarea" then Some 7%nat else None.

Definition example_selectors : string + list string :=
  inr ["textarea.form-control"; "textarea"]%string.

End DomUtils.

(** ** Effects of the two page agents *)

Module Page.
Import Js Script.

Inductive effect :=
| Log (lv : level) (items : list log_item)
| ShowNotification (id : nat) (message : jsstring) (type : string)
    (duration : N)
| UpdateNotification (id : nat) (message : jsstring) (type : string)
    (duration : option N)
(* the destination page *)
| ReadClipboard
| SetValue (text : jsstring)          (* textarea.value = text *)
| DispatchEvent (name : string)
| CallSubmitForm                      (* submitForm(textarea) is entered *)
| FormSubmit                          (* form.submit() *)
| ClickSubmitButton
| Sleep (ms : N)
(* the source page *)
| UpdateButton (state : string)       (* the button is restyled *)
| CallExtractPGN
| WriteClipboard (text : jsstring)
| WindowOpen (url : jsstring)
| SetTimeout (ms : N) (callback : string)
| ClearTimeout.

(** The notification module: the counter of showNotification is part of
    the state of a page. *)
Section Notifications.
Context {S : Type} (counter : S -> nat) (set_counter : nat -> S -> S).

(** showNotification: the identifier it returns is the text
    atl-notification-N, where N is the new value of the counter; it is
    never empty. *)
Definition showNotification (message : jsstring) (type : string) (duration : N)
  : prog S effect nat :=
  s ← get;
  let id := Datatypes.S (counter s) in
  put (set_counter id s);;
  emit (Log debug [Txt (lit "Showing "); Txt (lit type);
                   Txt (lit " notification: "); Txt message]);;
  emit (ShowNotification id message type duration);;
  mret id.

Definition showLoading (message : jsstring) : prog S effect nat :=
  showNotification message "loading" 0.

Definition showError (message : jsstring) : prog S effect nat :=
  showNotification message "error" 8000.

(** updateNotification, for a notification that is on display. *)
Definition updateNotification (id : nat) (message : jsstring) (type : string)
           (duration : option N) : prog S effect unit :=
  emit (UpdateNotification id message type duration).
End Notifications.

End Page.

(** ** The destination-page agent (content_lichess script) *)

Module Lichess.
Import Js Script Constants Page.

(** The module variable of the script and the counter of the
    notification module. *)
Record page := PageState {
  hasRun : bool;
  notificationCounter : nat
}.

Definition set_counter (n : nat) (p : page) : page := PageState (hasRun p) n.

(** What the page and the browser answer during one run. *)
Record world := World {
  pathname : jsstring;
  (** waitForElement for the textarea: the element, or a rejection *)
  textarea : option nat;
  (** navigator.clipboard.readText(): the text, or a rejection *)
  clipboard : jsstring + error;
  (** textarea.form || textarea.closest('form') *)
  has_form : bool;
  (** document.querySelector(PASTE_SUBMIT_BUTTON) *)
  has_submit_button : bool;
  (** form.submit() or submitButton.click() throws *)
  submit_throws : option error
}.

Abbreviation script := (prog page effect).

Definition NotAllowedError : error :=
  Error (lit "NotAllowedError") (lit "Read permission denied.").

Definition waitForTextarea (w : world) : script nat :=
  emit (Log debug [Txt (lit "Waiting for textarea...")]);;
  try_catch
    (match textarea w with
     | Some ta => emit (Log debug [Txt (lit "Textarea found")]);; mret ta
     | None => throw (new_Error (lit "Element not found"))
     end)
    (fun _ =>
       emit (Log err [Txt (lit "Textarea not found within timeout")]);;
       throw (new_Error TEXTAREA_NOT_FOUND)).

Definition pastePGN (w : world) (ta : nat) : script unit :=
  emit (Log debug [Txt (lit "Reading from clipboard...")]);;
  try_catch
    (emit ReadClipboard;;
     text ← match clipboard w with
            | inl text => mret text
            | inr e => throw e
            end;
     (if negb (truthy (VString text)) || (length (trim text) =? 0)%nat
      then throw (new_Error (lit "Clipboard is empty"))
      else mret tt);;
     emit (Log debug [Txt (lit "Clipboard content length: "); Num (length text);
                      Txt (lit " characters")]);;
     emit (SetValue text);;
     emit (DispatchEvent "input");;
     emit (DispatchEvent "change");;
     emit (Log info [Txt (lit "PGN pasted successfully")]))
    (fun error =>
       if str_eqb (err_name error) (lit "NotAllowedError") then
         emit (Log err [Txt (lit "Clipboard permission denied")]);;
         throw (new_Error CLIPBOARD_READ_DENIED)
       else
         emit (Log err [Txt (lit "Failed to read clipboard:"); Err error]);;
         throw (new_Error CLIPBOARD_READ_DENIED)).

Definition submitForm (w : world) (ta : nat) : script unit :=
  emit CallSubmitForm;;
  emit (Log debug [Txt (lit "Attempting to submit form...")]);;
  try_catch
    (if negb (has_form w) then
       emit (Log warn [Txt (lit "Form not found, trying to find submit button")]);;
       if has_submit_button w then
         emit (Log debug [Txt (lit "Clicking submit button")]);;
         emit ClickSubmitButton;;
         match submit_throws w with Some e => throw e | None => mret tt end
       else
         emit (Log err [Txt (lit "No form or submit button found")])
     else
       emit (Sleep 100);;
       emit (Log debug [Txt (lit "Submitting form")]);;
       emit FormSubmit;;
       match submit_throws w with Some e => throw e | None => mret tt end;;
       emit (Log info [Txt (lit "Form submitted successfully")]))
    (fun error =>
       emit (Log err [Txt (lit "Failed to submit form:"); Err error])).

(** The catch block of initializeLichessPaste. *)
Definition report (notificationId : option nat) (error : error) : script unit :=
  emit (Log err [Txt (lit "Error in Lichess paste:"); Err error]);;
  match notificationId with
  | Some id =>
      updateNotification id (message_or error GENERIC_ERROR) "error" (Some 8000)
  | None =>
      showError notificationCounter set_counter (message_or error GENERIC_ERROR);;
      mret tt
  end.

(** initializeLichessPaste.  showLoading is the first statement of the
    try block and does not throw, so [notificationId] is set when the
    catch block runs.  waitForTextarea resolves with an element, which is
    truthy, so the check [if (!textarea)] behind it never fires. *)
Definition initializeLichessPaste (w : world) : script unit :=
  p ← get;
  if negb (str_eqb (pathname w) (lit "/paste")) then
    emit (Log debug [Txt (lit "Not on paste page, skipping initialization")])
  else if hasRun p then
    emit (Log debug [Txt (lit "Script already executed, skipping")])
  else
    put (PageState true (notificationCounter p));;
    emit (Log info [Txt (lit "Initializing Lichess paste functionality")]);;
    notificationId ← showLoading notificationCounter set_counter PASTING_DATA;
    try_catch
      (ta ← waitForTextarea w;
       pastePGN w ta;;
       updateNotification notificationId SUBMITTING_FORM "loading" None;;
       submitForm w ta;;
       updateNotification notificationId READY_FOR_ANALYSIS "success" (Some 3000);;
       emit (Log info [Txt (lit "Lichess paste completed successfully")]))
      (report (Some notificationId)).

(** An error toast is put on the page. *)
Definition is_error_notification (e : effect) : bool :=
  match e with
  | UpdateNotification _ _ type _ => String.eqb type "error"
  | ShowNotification _ _ type _ => String.eqb type "error"
  | _ => false
  end.

Definition is_submit (e : effect) : bool :=
  match e with
  | CallSubmitForm | FormSubmit | ClickSubmitButton => true
  | _ => false
  end.

(** The clipboard holds nothing to paste: the empty text, or white space
    only. *)
Definition empty_clipboard (w : world) : Prop :=
  exists text, clipboard w = inl text /\ trim text = [].

(** The two lines of the log by which the failures of the clipboard
    read differ. *)
Definition denied_log : effect := Log err [Txt (lit "Clipboard permission denied")].
Definition empty_log : effect :=
  Log err [Txt (lit "Failed to read clipboard:");
           Err (new_Error (lit "Clipboard is empty"))].

(** Example worlds: the paste page with its textarea and its form, once
    with an empty clipboard and once with the permission denied. *)
Definition fresh_page : page := PageState false 0.
Definition empty_world : world :=
  World (lit "/paste") (Some 1%nat) (inl []) true true None.
Definition denied_world : world :=
  World (lit "/paste") (Some 1%nat) (inr NotAllowedError) true true None.

End Lichess.

(** ** The source-page agent (content_chesscom script) *)

Module ChessCom.
Import Js Script Constants Page.

(** The module variables [sendButton] (with the state the button shows)
    and [isProcessing], the timer of the debounced click handler, and the
    counter of the notification module. *)
Record agent := Agent {
  sendButton : option string;
  isProcessing : bool;
  debounce_pending : bool;
  notificationCounter : nat
}.

Definition set_counter (n : nat) (a : agent) : agent :=
  Agent (sendButton a) (isProcessing a) (debounce_pending a) n.
Definition set_isProcessing (b : bool) (a : agent) : agent :=
  Agent (sendButton a) b (debounce_pending a) (notificationCounter a).
Definition set_debounce (b : bool) (a : agent) : agent :=
  Agent (sendButton a) (isProcessing a) b (notificationCounter a).

(** What the page and the browser answer during one run. *)
Record world := World {
  (** extractPGN(): the record, or a rejection *)
  extracted : jsstring + error;
  (** navigator.clipboard.writeText rejects *)
  clipboard_write_fails : bool;
  (** window.open returns null *)
  popup_blocked : bool
}.

Abbreviation script := (prog agent effect).

(** updateButtonState: nothing happens without a button. *)
Definition updateButtonState (state : string) : script unit :=
  a ← get;
  match sendButton a with
  | None => mret tt
  | Some _ =>
      put (Agent (Some state) (isProcessing a) (debounce_pending a)
             (notificationCounter a));;
      emit (UpdateButton state)
  end.

Definition extractPGN (w : world) : script jsstring :=
  emit (Log debug [Txt (lit "Attempting to extract PGN")]);;
  emit CallExtractPGN;;
  match extracted w with
  | inl pgn => mret pgn
  | inr e => throw e
  end.

Definition copyToClipboard (w : world) (text : jsstring) : script unit :=
  emit (Log debug [Txt (lit "Copying to clipboard")]);;
  try_catch
    (emit (WriteClipboard text);;
     (if clipboard_write_fails w then throw (Error (lit "NotAllowedError") [])
      else mret tt);;
     emit (Log debug [Txt (lit "Copied to clipboard successfully")]))
    (fun error =>
       emit (Log err [Txt (lit "Failed to copy to clipboard:"); Err error]);;
       throw (new_Error CLIPBOARD_WRITE_DENIED)).

Definition openLichessTab (w : world) : script unit :=
  emit (Log debug [Txt (lit "Opening Lichess tab")]);;
  try_catch
    (emit (WindowOpen (lit "https://lichess.org/paste"));;
     (if popup_blocked w then throw (new_Error (lit "Failed to open new tab"))
      else mret tt);;
     emit (Log debug [Txt (lit "Lichess tab opened successfully")]))
    (fun error =>
       emit (Log err [Txt (lit "Failed to open Lichess tab:"); Err error]);;
       throw (new_Error LICHESS_TAB_FAILED)).

(** The call of sanitizePGN on the extracted record. *)
Definition sanitized (pgn : jsstring) : script jsstring :=
  match Pgn.sanitizePGN (VString pgn) with
  | Normal (VString s) => mret s
  | _ => throw (Error (lit "TypeError") [])
  end.

(** The catch block of handleButtonClick. *)
Definition report (notificationId : option nat) (error : error) : script unit :=
  emit (Log err [Txt (lit "Error processing game:"); Err error]);;
  updateButtonState "error";;
  match notificationId with
  | Some id =>
      updateNotification id (message_or error GENERIC_ERROR) "error" (Some 8000)
  | None =>
      showError notificationCounter set_counter (message_or error GENERIC_ERROR);;
      mret tt
  end;;
  emit (SetTimeout 3000 "reset").

(** handleButtonClick.  The first two statements of the try block
    (updateButtonState and showLoading) do not throw, so [notificationId]
    is set when the catch block runs. *)
Definition handleButtonClick (w : world) : script unit :=
  a ← get;
  if isProcessing a then
    emit (Log debug [Txt (lit "Already processing, ignoring click")])
  else
    emit (Log info [Txt (lit "Send to Lichess button clicked")]);;
    put (set_isProcessing true a);;
    updateButtonState "loading";;
    notificationId ← showLoading notificationCounter set_counter EXTRACTING_PGN;
    try_catch
      (pgn ← extractPGN w;
       (if negb (truthy (VString pgn)) then throw (new_Error PGN_NOT_FOUND)
        else mret tt);;
       emit (Log debug [Txt (lit "PGN extracted, length: "); Num (length pgn);
                        Txt (lit " characters")]);;
       updateNotification notificationId OPENING_LICHESS "loading" None;;
       cleanPGN ← sanitized pgn;
       copyToClipboard w cleanPGN;;
       openLichessTab w;;
       updateButtonState "success";;
       updateNotification notificationId SENT_TO_LICHESS "success" (Some 3000);;
       emit (SetTimeout 2000 "reset"))
      (report (Some notificationId)).

(** The callback of the two reset timers. *)
Definition reset : script unit :=
  updateButtonState "idle";;
  a ← get;
  put (set_isProcessing false a).

(** The events of the trigger.  A click runs the debounced handler,
    which only restarts its timer; when the timer fires,
    handleButtonClick runs. *)
Inductive event := Click | DebounceFires | ResetFires.

Definition step (w : world) (ev : event) : script unit :=
  match ev with
  | Click =>
      a ← get;
      put (set_debounce true a);;
      emit ClearTimeout;;
      emit (SetTimeout 300 "handleButtonClick")
  | DebounceFires =>
      a ← get;
      put (set_debounce false a);;
      handleButtonClick w
  | ResetFires => reset
  end.

(** An effect of the transfer: the record is extracted, the clipboard
    is written, a tab is opened. *)
Definition is_transfer (e : effect) : bool :=
  match e with
  | CallExtractPGN | WriteClipboard _ | WindowOpen _ => true
  | _ => false
  end.

(** An example: a page whose export yields a short record, and the
    agent in the middle of a transfer and at rest. *)
Definition busy_world : world :=
  World (inl (lit "1. e4 e5")) false false.
Definition busy_agent : agent := Agent (Some "loading"%string) true false 1.
Definition idle_agent : agent := Agent (Some "idle"%string) false false 0.

End ChessCom.

(** ** The other functions of the PGN validator *)

Module PgnMore.
Import Js Regex Pgn.

(** [arr.join(sep)] on an array of strings. *)
Fixpoint join (sep : jsstring) (arr : list jsstring) : jsstring :=
  match arr with
  | [] => []
  | [x] => x
  | x :: rest => x ++ sep ++ join sep rest
  end.

(** [s.startsWith(w)] and [s.includes(w)] on strings. *)
Fixpoint startsWith (s w : jsstring) : bool :=
  match w, s with
  | [], _ => true
  | c :: w', d :: s' => (c =? d) && startsWith s' w'
  | _ :: _, [] => false
  end.

Fixpoint str_includes (s w : jsstring) : bool :=
  startsWith s w || match s with [] => false | _ :: t => str_includes t w end.

(** The captures of a match, if there is one. *)
Definition caps_of (r : option mstate) : option (list (nat * jsstring)) :=
  match r with
  | Some st => Some (m_caps st)
  | None => None
  end.

(** The loop of formatPGN over the lines; [inHeaders] is its flag and
    the result is the array [formatted].  Both branches of the test of
    the header pattern push the trimmed line. *)
Fixpoint format_lines (inHeaders : bool) (lines : list jsstring) : list jsstring :=
  match lines with
  | [] => []
  | line :: rest =>
      let trimmedLine := trim line in
      if (length trimmedLine =? 0)%nat then
        if inHeaders then [] :: format_lines false rest
        else format_lines inHeaders rest
      else if test false PGN_HEADER trimmedLine then
        trimmedLine :: format_lines inHeaders rest
      else
        trimmedLine :: format_lines inHeaders rest
  end.

(** formatPGN *)
Definition formatPGN (pgn : value) : completion value :=
  sanitized ← sanitizePGN pgn;
  call_string_method
    (fun sanitized => join [LF] (format_lines true (split LF sanitized)))
    sanitized.

(** [headers.Key || fallback] *)
Definition header_or (headers : gmap jsstring jsstring) (key fallback : jsstring)
  : jsstring :=
  match obj_get headers key with
  | Some (c :: r) => c :: r
  | _ => fallback
  end.

Record pgn_info := PgnInfo {
  white : jsstring;
  black : jsstring;
  result : jsstring;
  date : jsstring;
  variant : jsstring;
  event : jsstring;
  hasMoves : bool;
  headerCount : nat
}.

(** getPGNInfo, on a string.  [Object.keys(headers).length] is the
    number of own properties of the headers object. *)
Definition getPGNInfo (pgn : jsstring) : pgn_info :=
  let headers := extractHeaders pgn in
  let hasMoves := checkForMoves pgn in
  PgnInfo
    (header_or headers (lit "White") (lit "Unknown"))
    (header_or headers (lit "Black") (lit "Unknown"))
    (header_or headers (lit "Result") (lit "*"))
    (header_or headers (lit "Date") (lit "Unknown"))
    (header_or headers (lit "Variant") (lit "Standard"))
    (header_or headers (lit "Event") (lit "Unknown"))
    hasMoves
    (size headers).

Section LowerCase.
Variable toLowerCase : jsstring -> jsstring.

(** isAtomicPGN, on a string. *)
Definition isAtomicPGN (pgn : jsstring) : bool :=
  let headers := extractHeaders pgn in
  let variant := header_or headers (lit "Variant") [] in
  str_includes (toLowerCase variant) (lit "atomic").

Record prepared := Prepared {
  p_valid : bool;
  p_pgn : option value;       (* null, or the formatted record *)
  p_error : option jsstring   (* null, or the message *)
}.

(** [validation.errors[0] || 'Invalid PGN format'] *)
Definition first_error (errors : list jsstring) : jsstring :=
  match errors with
  | (c :: r) :: _ => c :: r
  | _ => lit "Invalid PGN format"
  end.

(** prepareForLichess *)
Definition prepareForLichess (pgn : value) : completion prepared :=
  sanitized ← sanitizePGN pgn;
  let validation := validatePGN toLowerCase sanitized in
  if negb (valid validation) then
    Normal (Prepared false None (Some (first_error (errors validation))))
  else
    formatted ← formatPGN sanitized;
    Normal (Prepared true (Some formatted) None).
End LowerCase.

(** The loop of extractMoves over the lines: the flag [inMoves] and the
    array [moveLines] (in reverse, the last pushed line first). *)
Fixpoint move_lines (inMoves : bool) (moveLines : list jsstring)
         (lines : list jsstring) : list jsstring :=
  match lines with
  | [] => rev moveLines
  | line :: rest =>
      let trimmedLine := trim line in
      if (length trimmedLine =? 0)%nat then
        move_lines (if (0 <? length moveLines)%nat then true else inMoves)
          moveLines rest
      else
        let inMoves := if negb (test false PGN_HEADER trimmedLine) then true
                       else inMoves in
        if inMoves then move_lines inMoves (trimmedLine :: moveLines) rest
        else move_lines inMoves moveLines rest
  end.

(** extractMoves, on a string. *)
Definition extractMoves (pgn : jsstring) : jsstring :=
  join (lit " ") (move_lines false [] (split LF pgn)).

End PgnMore.

(** ** Notions the statements about the agents use *)

Module ScriptSpec.
Import Js Script.

(** A script that throws in no state. *)
Definition contained {S E A : Type} (c : prog S E A) : Prop :=
  forall s, exists a, result (c s) = Ok a.

(** An example: the paste page with a record in the clipboard. *)
Definition pgn_world : Lichess.world :=
  Lichess.World (lit "/paste") (Some 1%nat) (inl (lit "1. e4 e5")) true true None.

End ScriptSpec.

Module ChessComSpec.
Import Js Script Constants Page ChessCom.

(** setTimeout with the callback that puts the button back. *)
Definition is_reset_timer (e : effect) : bool :=
  match e with
  | SetTimeout _ cb => String.eqb cb "reset"
  | _ => false
  end.

Definition is_extract (e : effect) : bool :=
  match e with
  | CallExtractPGN => true
  | _ => false
  end.

(** What the button shows after updateButtonState, if there is one. *)
Definition restyled (a : agent) (state : string) : option string :=
  match sendButton a with
  | Some _ => Some state
  | None => None
  end.

(** The first step of the transfer that fails, by the text the catch
    block of handleButtonClick shows for it. *)
Definition failure (w : world) : option jsstring :=
  match extracted w with
  | inr e => Some (message_or e GENERIC_ERROR)
  | inl pgn =>
      if negb (truthy (VString pgn)) then Some PGN_NOT_FOUND
      else if clipboard_write_fails w then Some CLIPBOARD_WRITE_DENIED
      else if popup_blocked w then Some LICHESS_TAB_FAILED
      else None
  end.

(** A sequence of events, each with what the page and the browser
    answer at that time. *)
Fixpoint run (evs : list (world * event)) : script unit :=
  match evs with
  | [] => mret tt
  | (w, ev) :: rest => step w ev;; run rest
  end.

(** Example worlds: the clipboard cannot be written; the export gives
    an empty text. *)
Definition no_clipboard_world : world :=
  World (inl (lit "1. e4 e5")) true false.
Definition no_record_world : world :=
  World (inl []) false false.

End ChessComSpec.

(** ** The life of a call of waitForElement, and querySelectorFallback *)

Module DomUtilsRun.
Import Js Script DomUtils.

Section Run.
Context {element selector : Type}.
Local Abbreviation dom := (DomUtils.dom element selector).
Local Abbreviation wait_effect := (DomUtils.wait_effect element selector).

(** What the browser holds for the call: whether the observer is
    connected, and whether the timer is pending. *)
Record wait_state := WaitState { observing : bool; armed : bool }.

Definition apply_effect (st : wait_state) (e : wait_effect) : wait_state :=
  match e with
  | Observe => WaitState true (armed st)
  | Disconnect => WaitState false (armed st)
  | SetTimeout _ => WaitState (observing st) true
  | ClearTimeout => WaitState (observing st) false
  | _ => st
  end.

Definition after (t : list wait_effect) (st : wait_state) : wait_state :=
  fold_left apply_effect t st.

(** What happens after the call returned: the page changes (and is
    then as given), or the time is over.  A disconnected observer is not
    called, and a timer fires only while it is pending, and once. *)
Inductive page_event :=
| Mutation (root : dom)
| TimerFires.

Fixpoint callbacks (selectors : selector + list selector) (timeout : N)
         (st : wait_state) (evs : list page_event)
  : list wait_effect * wait_state :=
  match evs with
  | [] => ([], st)
  | Mutation root :: rest =>
      let t := if observing st then on_mutation selectors root else [] in
      let (t', st') := callbacks selectors timeout (after t st) rest in
      (t ++ t', st')
  | TimerFires :: rest =>
      let t := if armed st then on_timeout selectors timeout else [] in
      let (t', st') :=
        callbacks selectors timeout (after t (WaitState (observing st) false)) rest in
      (t ++ t', st')
  end.

Definition wait (selectors : selector + list selector) (timeout : N)
           (root : dom) (evs : list page_event)
  : list wait_effect * wait_state :=
  let t := waitForElement selectors timeout root in
  let (t', st) := callbacks selectors timeout (after t (WaitState false false)) evs in
  (t ++ t', st).

Definition is_settle (e : wait_effect) : bool :=
  match e with
  | Resolve _ | Reject _ _ => true
  | _ => false
  end.

(** The pages the call and its observer look at. *)
Fixpoint pages (evs : list page_event) : list dom :=
  match evs with
  | [] => []
  | Mutation root :: rest => root :: pages rest
  | TimerFires :: rest => pages rest
  end.

(** querySelectorFallback: [root.querySelector] may throw here, on a
    text that is no selector; the loop goes on after the warning. *)
Inductive query_effect :=
| QFound (sel : selector)               (* log debug, Element found with selector *)
| QInvalid (sel : selector) (e : error) (* log warn, Invalid selector *)
| QNone (sels : list selector).         (* log warn, No element found *)

Fixpoint query_loop (all : list selector)
         (root : selector -> error + option element)
         (rest : list selector) : list query_effect * option element :=
  match rest with
  | [] => ([QNone all], None)
  | sel :: rest =>
      match root sel with
      | inr (Some e) => ([QFound sel], Some e)
      | inr None => query_loop all root rest
      | inl ex =>
          let (t, r) := query_loop all root rest in
          (QInvalid sel ex :: t, r)
      end
  end.

Definition querySelectorFallback (selectors : list selector)
           (root : selector -> error + option element)
  : list query_effect * option element :=
  query_loop selectors root selectors.

(** A page whose querySelector throws on some texts, seen as one
    where those texts find nothing. *)
Definition forgiving (root : selector -> error + option element)
  : DomUtils.dom element selector :=
  fun sel => match root sel with
             | inr o => o
             | inl _ => None
             end.
End Run.
End DomUtilsRun.

(** ** The lines extractMoves keeps *)

Module MovesSpec.
Import Js Regex Pgn PgnMore.

(** The trimmed lines that are not empty. *)
Definition kept (lines : list jsstring) : list jsstring :=
  List.filter (fun l => negb (length l =? 0)%nat) (map trim lines).

(** The lines from the first one that is neither blank nor matched by
    the header pattern. *)
Fixpoint from_first_move (lines : list jsstring) : list jsstring :=
  match lines with
  | [] => []
  | line :: rest =>
      if (length (trim line) =? 0)%nat || test false PGN_HEADER (trim line)
      then from_first_move rest
      else line :: rest
  end.

(** An example: two headers, the moves on two lines, and a header
    behind them. *)
Definition moves_example : jsstring :=
  PgnSpec.header "White" "alice" ++ PgnSpec.header "Black" "bob" ++ [LF]
  ++ lit "1. e4 e5 " ++ [LF] ++ lit " 2. Nf3" ++ [LF]
  ++ PgnSpec.header "Result" "1-0".

(** Examples: a complete record of an atomic game, and the complete
    record of PgnSpec as a page may hand it over. *)
Definition atomic_record : jsstring :=
  PgnSpec.five_headers ++ PgnSpec.header "Result" "1-0"
  ++ PgnSpec.header "Variant" "Atomic" ++ [LF] ++ lit "1. e4 e5".

Definition raw_record : jsstring :=
  lit "  " ++ PgnSpec.complete_record ++ [CR; LF].

End MovesSpec.

(* ===================================================================== *)
(** * Part II: lemmas and theorems *)
(* ===================================================================== *)

(** ** The matcher *)

Module RegexFacts.
Import Js Regex.

Lemma star_eat_spec test s :
  forall fuel prev caps k,
    (length s < fuel)%nat ->
    star (eat test) fuel (MState prev s caps) k = star_eat test prev s caps k.
Proof.
  induction s as [|c t IH]; intros fuel prev caps k Hf.
  - destruct fuel; [lia|]. reflexivity.
  - destruct fuel as [|f]; [simpl in Hf; lia|].
    simpl. unfold eat at 1. simpl.
    destruct (test c); [|reflexivity].
    replace (length t <? S (length t))%nat with true
      by (symmetry; apply Nat.ltb_lt; lia).
    rewrite IH by (simpl in Hf; lia). reflexivity.
Qed.

Lemma m_star_cls ci inv rs prev s caps k :
  m ci (Star (Cls inv rs)) (MState prev s caps) k
  = star_eat (cls_match ci inv rs) prev s caps k.
Proof.
  change (star (eat (cls_match ci inv rs)) (S (length s)) (MState prev s caps) k
          = star_eat (cls_match ci inv rs) prev s caps k).
  apply star_eat_spec. lia.
Qed.

Lemma m_star_chr ci c prev s caps k :
  m ci (Star (Chr c)) (MState prev s caps) k
  = star_eat (chr_match ci c) prev s caps k.
Proof.
  change (star (eat (chr_match ci c)) (S (length s)) (MState prev s caps) k
          = star_eat (chr_match ci c) prev s caps k).
  apply star_eat_spec. lia.
Qed.

(** The greedy star stops at the end of the longest accepted prefix when
    the continuation succeeds there. *)
Lemma star_eat_greedy test w :
  forall prev rest caps k r,
    Forall (fun c => test c = true) w ->
    match rest with c :: _ => test c = false | [] => True end ->
    k (MState (prev_after prev w) rest caps) = Some r ->
    star_eat test prev (w ++ rest) caps k = Some r.
Proof.
  induction w as [|c w IH]; intros prev rest caps k r Hw Hrest Hk.
  - simpl in *. destruct rest as [|d rest]; [exact Hk|].
    simpl. rewrite Hrest. exact Hk.
  - inversion Hw as [|? ? Hc Hw']; subst. simpl. rewrite Hc.
    rewrite (IH (Some c) rest caps k r); auto.
    replace (prev_after (Some c) w) with (prev_after prev (c :: w)); [done|].
    unfold prev_after. rewrite last_cons. by destruct (last w).
Qed.

(** The star never succeeds where the continuation fails everywhere. *)
Lemma star_eat_none test s :
  forall prev caps k,
    (forall p t, k (MState p t caps) = None) ->
    star_eat test prev s caps k = None.
Proof.
  induction s as [|c t IH]; intros prev caps k Hk; simpl; [apply Hk|].
  destruct (test c); [|apply Hk]. rewrite IH by done. apply Hk.
Qed.

(** *** Soundness of the matcher *)

Lemma star_sound ci a (ma : mstate -> continuation -> option mstate) :
  (forall s k x, ma s k = Some x -> exists s', den ci a s s' /\ k s' = Some x) ->
  forall fuel s k x,
    star ma fuel s k = Some x ->
    exists s', den ci (Star a) s s' /\ k s' = Some x.
Proof.
  intros Hma fuel. induction fuel as [|f IH]; intros s k x H; simpl in H.
  - exists s. split; [constructor | done].
  - destruct (ma s _) as [r|] eqn:E.
    + inversion H; subst r. apply Hma in E as (s1 & Hd & Hk).
      destruct (length (m_rest s1) <? length (m_rest s))%nat; [|done].
      apply IH in Hk as (s2 & Hd2 & Hk2).
      exists s2. split; [|done]. eapply den_star_cons; eauto.
    + exists s. split; [constructor | done].
Qed.

Lemma eat_sound test s k x :
  eat test s k = Some x ->
  exists c t, m_rest s = c :: t /\ test c = true
              /\ k (MState (Some c) t (m_caps s)) = Some x.
Proof.
  unfold eat. destruct (m_rest s) as [|c t]; [done|].
  destruct (test c) eqn:E; [|done]. eauto.
Qed.

Lemma m_sound ci r :
  forall s k x, m ci r s k = Some x -> exists s', den ci r s s' /\ k s' = Some x.
Proof.
  induction r as [|c|inv rs|a IHa b IHb|a IHa|i a IHa|a IHa|]; intros s k x H;
    [simpl in H|simpl in H|simpl in H|simpl in H| |simpl in H|simpl in H|simpl in H].
  - exists s. split; [constructor|done].
  - apply eat_sound in H as (c' & t & Hr & Ht & Hk).
    destruct s as [p rest caps]; simpl in *; subst rest.
    eexists. split; [|exact Hk]. by constructor.
  - apply eat_sound in H as (c' & t & Hr & Ht & Hk).
    destruct s as [p rest caps]; simpl in *; subst rest.
    eexists. split; [|exact Hk]. by constructor.
  - apply IHa in H as (s1 & Hd1 & H). apply IHb in H as (s2 & Hd2 & H).
    exists s2. split; [|done]. econstructor; eauto.
  - eapply (star_sound ci a (m ci a)); [exact IHa | exact H].
  - apply IHa in H as (s1 & Hd1 & H). eexists. split; [|exact H]. by constructor.
  - destruct (m ci a s Some) eqn:E; [done|].
    exists s. split; [|done]. by constructor.
  - destruct (at_word_boundary s) eqn:E; [|done].
    exists s. split; [|done]. by constructor.
Qed.

Lemma match_here_sound ci r prev s st :
  match_here ci r prev s = Some st -> den ci r (MState prev s []) st.
Proof.
  intros H. apply m_sound in H as (s' & Hd & Hk). by inversion Hk; subst.
Qed.

(** A match reads a prefix of the input. *)
Lemma den_rest ci r s s' :
  den ci r s s' -> exists w, m_rest s = w ++ m_rest s'.
Proof.
  induction 1; simpl.
  - by exists [].
  - by exists [x].
  - by exists [x].
  - destruct IHden1 as [w1 H1], IHden2 as [w2 H2].
    exists (w1 ++ w2). by rewrite H1, H2, app_assoc.
  - by exists [].
  - destruct IHden1 as [w1 H1], IHden2 as [w2 H2].
    exists (w1 ++ w2). by rewrite H1, H2, app_assoc.
  - destruct IHden as [w Hw]. by exists w.
  - by exists [].
  - by exists [].
Qed.

Lemma consumed_app w s s1 :
  m_rest s = w ++ m_rest s1 -> consumed s s1 = w.
Proof.
  intros H. unfold consumed. rewrite H, length_app.
  replace (length w + length (m_rest s1) - length (m_rest s1))%nat
    with (length w) by lia.
  by rewrite take_app_length.
Qed.

(** The star over a character class reads accepted characters and
    leaves the captures alone. *)
Lemma den_star_cls ci inv rs s s' :
  den ci (Star (Cls inv rs)) s s' ->
  exists w, m_rest s = w ++ m_rest s'
            /\ Forall (fun c => cls_match ci inv rs c = true) w
            /\ m_caps s' = m_caps s.
Proof.
  remember (Star (Cls inv rs)) as r eqn:Er. induction 1; try discriminate.
  - by exists [].
  - inversion Er; subst a. destruct (IHden2 eq_refl) as (w & Hw & Hf & Hc).
    inversion H; subst. simpl in *. exists (x :: w). simpl.
    rewrite Hw. split; [done|]. split; [by constructor | done].
Qed.

Lemma den_plus_cls ci inv rs s s' :
  den ci (Plus (Cls inv rs)) s s' ->
  exists c w, m_rest s = c :: w ++ m_rest s'
            /\ Forall (fun c => cls_match ci inv rs c = true) (c :: w)
            /\ m_caps s' = m_caps s.
Proof.
  intros H. inversion H as [| | |a b s1 s2 s3 H1 H2| | | | |]; subst.
  apply den_star_cls in H2 as (w & Hw & Hf & Hc).
  inversion H1; subst. simpl in *. exists x, w. rewrite Hw.
  split; [done|]. split; [by constructor | done].
Qed.

(** *** The leftmost search and the global replacement *)

Lemma search_sound ci r s :
  forall prev st,
    search ci r prev s = Some st ->
    exists a b, s = a ++ b /\ match_here ci r (prev_after prev a) b = Some st.
Proof.
  induction s as [|c t IH]; intros prev st H; simpl in H.
  - destruct (match_here ci r prev []) eqn:E; [|done].
    inversion H; subst. by exists [], [].
  - destruct (match_here ci r prev (c :: t)) eqn:E.
    + inversion H; subst. by exists [], (c :: t).
    + apply IH in H as (a & b & -> & Hm). exists (c :: a), b. split; [done|].
      replace (prev_after prev (c :: a)) with (prev_after (Some c) a); [done|].
      unfold prev_after. rewrite last_cons. by destruct (last a).
Qed.

Lemma search_here ci r prev s st :
  match_here ci r prev s = Some st -> search ci r prev s = Some st.
Proof. intros H. destruct s; simpl; by rewrite H. Qed.

Lemma search_complete ci r a :
  forall prev b,
    is_Some (match_here ci r (prev_after prev a) b) ->
    is_Some (search ci r prev (a ++ b)).
Proof.
  induction a as [|c a IH]; intros prev b [st H].
  - exists st. by apply search_here.
  - simpl. destruct (match_here ci r prev (c :: a ++ b)) eqn:E; [by eexists|].
    apply IH. exists st.
    replace (prev_after (Some c) a) with (prev_after prev (c :: a)); [done|].
    unfold prev_after. rewrite last_cons. by destruct (last a).
Qed.

(** Where the pattern matches at no position, the replacement changes
    nothing. *)
Lemma replace_from_no_match ci r repl s :
  forall prev,
    (forall p a b, s = a ++ b -> match_here ci r p b = None) ->
    replace_from ci r repl prev s 0 = s.
Proof.
  induction s as [|c t IH]; intros prev H; simpl.
  - by rewrite (H prev [] []).
  - rewrite (H prev [] (c :: t)) by done. f_equal. apply IH.
    intros p a b ->. by apply (H p (c :: a) b).
Qed.

Lemma replace_all_no_match ci r repl s :
  (forall p a b, s = a ++ b -> match_here ci r p b = None) ->
  replace_all ci r repl s = s.
Proof. apply replace_from_no_match. Qed.

(** With an empty replacement text the result is a subsequence of the
    input. *)
Lemma replace_from_sublist ci r s :
  forall prev skip, replace_from ci r [] prev s skip `sublist_of` s.
Proof.
  induction s as [|c t IH]; intros prev skip.
  - destruct skip; simpl; [|done]. by destruct (match_here _ _ _ _).
  - destruct skip as [|n]; simpl.
    + destruct (match_here ci r prev (c :: t)) as [st|].
      * simpl. destruct (_ - _)%nat.
        -- by apply sublist_skip.
        -- by apply sublist_cons.
      * by apply sublist_skip.
    + by apply sublist_cons.
Qed.

End RegexFacts.

(** ** The sanitizer *)

Module SanitizeFacts.
Import Js Regex Pgn PgnSpec RegexFacts.

Lemma m_seq ci a b s k : m ci (Seq a b) s k = m ci a s (fun s1 => m ci b s1 k).
Proof. reflexivity. Qed.
Lemma m_chr ci c s k : m ci (Chr c) s k = eat (chr_match ci c) s k.
Proof. reflexivity. Qed.
Lemma m_cls ci inv rs s k : m ci (Cls inv rs) s k = eat (cls_match ci inv rs) s k.
Proof. reflexivity. Qed.

Lemma chr_match_false c x : chr_match false c x = (x =? c).
Proof. reflexivity. Qed.

Lemma in_ranges_single a x : in_ranges [(a, a)] x = (x =? a).
Proof.
  unfold in_ranges, in_range. simpl. rewrite orb_false_r.
  destruct (N.eqb_spec x a) as [->|Hne].
  - by rewrite N.leb_refl.
  - apply andb_false_iff.
    destruct (N.leb_spec a x); [right; apply N.leb_gt; lia | by left].
Qed.

Lemma not_chr_false a x : cls_match false true [(a, a)] x = negb (x =? a).
Proof.
  unfold cls_match, in_class. rewrite in_ranges_single. simpl.
  rewrite orb_false_r. by destruct (x =? a).
Qed.

(** *** The tag pattern *)

Lemma star_not_chr_then_chr a t :
  forall prev caps,
    star_eat (cls_match false true [(a, a)]) prev t caps
      (fun s2 => m false (Chr a) s2 Some)
    = match after_first a t with
      | Some r => Some (MState (Some a) r caps)
      | None => None
      end.
Proof.
  induction t as [|c t IH]; intros prev caps; [reflexivity|].
  cbn [star_eat after_first]. rewrite not_chr_false, IH.
  rewrite m_chr. unfold eat. cbn [m_rest m_caps]. rewrite chr_match_false.
  destruct (N.eqb_spec c a) as [->|Hne]; simpl; [done|].
  by destruct (after_first a t).
Qed.

Lemma match_here_HTML_TAG prev s :
  match_here false HTML_TAG prev s
  = match s with
    | c :: t =>
        if c =? LT then
          match after_first GT t with
          | Some r => Some (MState (Some GT) r [])
          | None => None
          end
        else None
    | [] => None
    end.
Proof.
  unfold match_here, HTML_TAG. rewrite m_seq, m_chr. unfold eat at 1.
  destruct s as [|c t]; [reflexivity|]. cbn [m_rest m_caps]. cbv beta iota.
  rewrite chr_match_false. destruct (c =? LT); [|reflexivity].
  rewrite m_seq, m_star_cls. apply star_not_chr_then_chr.
Qed.

Lemma after_first_Some x s r :
  after_first x s = Some r -> exists a, s = a ++ x :: r.
Proof.
  revert r. induction s as [|c t IH]; intros r H; simpl in H; [done|].
  destruct (N.eqb_spec c x) as [->|Hne].
  - inversion H; subst. by exists [].
  - apply IH in H as [a ->]. by exists (c :: a).
Qed.

Lemma after_first_None x s : after_first x s = None -> x ∉ s.
Proof.
  induction s as [|c t IH]; intros H; simpl in H; [apply not_elem_of_nil|].
  destruct (N.eqb_spec c x) as [->|Hne]; [done|].
  apply not_elem_of_cons. split; [congruence | auto].
Qed.

Lemma tag_sublist t : GT ∈ t -> [LT; GT] `sublist_of` LT :: t.
Proof.
  intros H. apply sublist_skip. by apply singleton_sublist_l in H.
Qed.

Lemma no_tag_cons_other c s : c <> LT -> no_tag s -> no_tag (c :: s).
Proof.
  intros Hc Hs H. apply sublist_cons_r in H as [H|(l & Hl & _)]; [done|].
  congruence.
Qed.

Lemma no_tag_cons_lt s : GT ∉ s -> no_tag s -> no_tag (LT :: s).
Proof.
  intros Hg Hs H. apply sublist_cons_r in H as [H|(l & Hl & H)]; [done|].
  inversion Hl; subst l. by apply singleton_sublist_l in H.
Qed.

Lemma no_tag_sublist s s' : s' `sublist_of` s -> no_tag s -> no_tag s'.
Proof. intros H Hs H'. apply Hs. by etrans. Qed.

Lemma no_tag_suffix a t b : no_tag (a ++ LT :: t) -> t = b -> GT ∉ b.
Proof.
  intros H -> Hg. apply H. etrans; [by apply tag_sublist|].
  apply sublist_inserts_l. done.
Qed.

(** After the tag replacement no [<] has a [>] behind it. *)
Lemma strip_tags_no_tag s :
  forall prev skip, no_tag (replace_from false HTML_TAG [] prev s skip).
Proof.
  induction s as [|c t IH]; intros prev skip.
  - assert (replace_from false HTML_TAG [] prev [] skip = []) as ->.
    { destruct skip; reflexivity. }
    intros H. by apply sublist_nil_r in H.
  - destruct skip as [|n]; [|apply IH].
    cbn [replace_from]. rewrite match_here_HTML_TAG.
    destruct (N.eqb_spec c LT) as [->|Hne].
    + destruct (after_first GT t) as [r|] eqn:E.
      * apply after_first_Some in E as [a ->]. cbn [m_rest app].
        destruct (length _ - length r)%nat eqn:En.
        -- exfalso. simpl in En. rewrite length_app in En. simpl in En. lia.
        -- apply IH.
      * apply no_tag_cons_lt; [|apply IH].
        intros Hin. apply after_first_None in E. apply E.
        eapply elem_of_sublist; [exact Hin|]. apply replace_from_sublist.
    + apply no_tag_cons_other; [done | apply IH].
Qed.

Lemma no_tag_no_HTML_TAG s p a b :
  no_tag s -> s = a ++ b -> match_here false HTML_TAG p b = None.
Proof.
  intros Hs ->. rewrite match_here_HTML_TAG. destruct b as [|c t]; [done|].
  destruct (N.eqb_spec c LT) as [->|]; [|done].
  destruct (after_first GT t) as [r|] eqn:E; [|done].
  apply after_first_Some in E as [u ->]. exfalso.
  eapply (no_tag_suffix a _ _ Hs eq_refl). set_solver.
Qed.

(** *** The script pattern *)

Lemma chr_match_ci_LT x : chr_match true LT x = true -> x = LT.
Proof.
  unfold chr_match, canon, to_upper, LT. intros H. apply N.eqb_eq in H.
  simpl in H. destruct ((97 <=? x) && (x <=? 122)) eqn:E; [|done].
  apply andb_true_iff in E as [E1 E2].
  apply N.leb_le in E1, E2. lia.
Qed.

Lemma chr_match_ci_GT x : chr_match true GT x = true -> x = GT.
Proof.
  unfold chr_match, canon, to_upper, GT. intros H. apply N.eqb_eq in H.
  simpl in H. destruct ((97 <=? x) && (x <=? 122)) eqn:E; [|done].
  apply andb_true_iff in E as [E1 E2].
  apply N.leb_le in E1, E2. lia.
Qed.

Lemma den_lit_first ci c w s s' :
  den ci (Lit (c :: w)) s s' ->
  exists x v, m_rest s = x :: v ++ m_rest s' /\ chr_match ci c x = true.
Proof.
  intros H. inversion H as [| | |a b s1 s2 s3 H1 H2| | | | |]; subst.
  inversion H1; subst. apply den_rest in H2 as [v Hv]. simpl in *.
  exists x, v. by rewrite Hv.
Qed.

Lemma den_lit_last ci c w :
  forall s s',
    den ci (Lit (w ++ [c])) s s' ->
    exists x u, m_rest s = u ++ x :: m_rest s' /\ chr_match ci c x = true.
Proof.
  induction w as [|d w IH]; intros s s' H.
  - inversion H as [| | |a b s1 s2 s3 H1 H2| | | | |]; subst.
    inversion H2; subst. inversion H1; subst. simpl. by exists x, [].
  - inversion H as [| | |a b s1 s2 s3 H1 H2| | | | |]; subst.
    apply IH in H2 as (x & u & Hu & Hx). inversion H1; subst. simpl in *.
    exists x, (x0 :: u). by rewrite Hu.
Qed.

Lemma den_seq_inv ci a b s s' :
  den ci (Seq a b) s s' -> exists s1, den ci a s s1 /\ den ci b s1 s'.
Proof. intros H. inversion H; subst. eauto. Qed.

(** A script block starts with [<] and has a [>] further on. *)
Lemma den_SCRIPT_BLOCK s s' :
  den true SCRIPT_BLOCK s s' -> exists t, m_rest s = LT :: t /\ GT ∈ t.
Proof.
  unfold SCRIPT_BLOCK. intros H.
  apply den_seq_inv in H as (s1 & H1 & H).
  apply den_seq_inv in H as (s2 & H2 & H).
  apply den_seq_inv in H as (s3 & H3 & H).
  apply den_seq_inv in H as (s4 & H4 & H).
  apply (den_lit_first true LT (lit "script")) in H1 as (x & v & Hv & Hx).
  apply chr_match_ci_LT in Hx as ->.
  apply den_rest in H2 as [w2 Hw2], H3 as [w3 Hw3], H4 as [w4 Hw4].
  apply (den_lit_last true GT (lit "</script")) in H as (y & u & Hu & Hy).
  apply chr_match_ci_GT in Hy as ->.
  exists (v ++ m_rest s1). split; [done|].
  rewrite Hw2, Hw3, Hw4, Hu. set_solver.
Qed.

Lemma no_tag_no_SCRIPT_BLOCK s p a b :
  no_tag s -> s = a ++ b -> match_here true SCRIPT_BLOCK p b = None.
Proof.
  intros Hs ->. destruct (match_here true SCRIPT_BLOCK p b) as [st|] eqn:E; [|done].
  apply match_here_sound, den_SCRIPT_BLOCK in E as (t & Ht & Hg).
  simpl in Ht. subst b. exfalso. by eapply (no_tag_suffix a _ _ Hs eq_refl).
Qed.

Lemma strip_markup_tags s : strip_markup s = replace_all false HTML_TAG [] s.
Proof.
  unfold strip_markup. apply replace_all_no_match. intros p a b.
  apply no_tag_no_SCRIPT_BLOCK. apply strip_tags_no_tag.
Qed.

Lemma strip_markup_no_tag s : no_tag (strip_markup s).
Proof. rewrite strip_markup_tags. apply strip_tags_no_tag. Qed.

Lemma strip_markup_id s : no_tag s -> strip_markup s = s.
Proof.
  intros H. rewrite strip_markup_tags. apply replace_all_no_match.
  intros p a b. by apply no_tag_no_HTML_TAG.
Qed.

(** *** Line endings *)

Lemma replace_from_skip ci r repl w :
  forall prev rest,
    replace_from ci r repl prev (w ++ rest) (length w)
    = replace_from ci r repl (prev_after prev w) rest 0.
Proof.
  induction w as [|c w IH]; intros prev rest; [reflexivity|].
  cbn [app length replace_from]. rewrite IH. f_equal.
  unfold prev_after. rewrite last_cons. by destruct (last w).
Qed.

Lemma match_here_CRLF prev s :
  match_here false CRLF prev s
  = match s with
    | c :: d :: t =>
        if (c =? CR) && (d =? LF) then Some (MState (Some d) t []) else None
    | _ => None
    end.
Proof.
  unfold match_here, CRLF. rewrite m_seq, m_chr. unfold eat at 1.
  destruct s as [|c t]; [reflexivity|]. cbn [m_rest m_caps]. cbv beta iota.
  rewrite chr_match_false. destruct (c =? CR); simpl; [|by destruct t].
  unfold eat. cbn [m_rest m_caps]. destruct t as [|d t]; [reflexivity|].
  rewrite chr_match_false. by destruct (d =? LF).
Qed.

Lemma match_here_LONE_CR prev s :
  match_here false LONE_CR prev s
  = match s with
    | c :: t => if c =? CR then Some (MState (Some c) t []) else None
    | _ => None
    end.
Proof.
  unfold match_here, LONE_CR. rewrite m_chr. unfold eat.
  destruct s as [|c t]; [reflexivity|]. cbn [m_rest m_caps].
  by rewrite chr_match_false.
Qed.

Lemma replace_CRLF s :
  forall prev, replace_from false CRLF [LF] prev s 0 = crlf_to_lf s.
Proof.
  induction s as [s IH] using (induction_ltof1 _ (@length N)).
  unfold ltof in IH. intros prev. destruct s as [|c t]; [reflexivity|].
  cbn [replace_from crlf_to_lf]. rewrite match_here_CRLF.
  destruct t as [|d t].
  - destruct (c =? CR); reflexivity.
  - destruct (c =? CR); cbn [andb].
    + destruct (d =? LF).
      * cbn [m_rest length]. replace (S (S (length t)) - length t)%nat with 2%nat by lia.
        cbn [app]. f_equal.
        change (replace_from false CRLF [LF] (Some c) (d :: t) 1)
          with (replace_from false CRLF [LF] (Some d) t 0).
        apply IH. simpl. lia.
      * f_equal. apply IH. simpl. lia.
    + f_equal. apply IH. simpl. lia.
Qed.

Lemma replace_LONE_CR s :
  forall prev, replace_from false LONE_CR [LF] prev s 0 = cr_to_lf s.
Proof.
  induction s as [|c t IH]; intros prev; [reflexivity|].
  cbn [replace_from]. rewrite match_here_LONE_CR. unfold cr_to_lf. cbn [List.map].
  destruct (c =? CR).
  - cbn [m_rest length]. replace (S (length t) - length t)%nat with 1%nat by lia.
    cbn [app]. f_equal. apply IH.
  - f_equal. apply IH.
Qed.

Lemma cr_crlf_normalize s : cr_to_lf (crlf_to_lf s) = normalize_eol s.
Proof.
  induction s as [s IH] using (induction_ltof1 _ (@length N)).
  unfold ltof in IH. destruct s as [|c t]; [reflexivity|].
  cbn [crlf_to_lf normalize_eol].
  destruct (N.eqb_spec c CR) as [->|Hc].
  - destruct t as [|d t]; [reflexivity|].
    destruct (N.eqb_spec d LF) as [->|Hd].
    + unfold cr_to_lf. cbn [List.map]. simpl (LF =? CR). cbv iota. f_equal.
      apply IH. simpl. lia.
    + unfold cr_to_lf. cbn [List.map]. simpl (CR =? CR). cbv iota. f_equal.
      apply IH. simpl. lia.
  - unfold cr_to_lf. cbn [List.map]. destruct (N.eqb_spec c CR); [done|].
    f_equal. apply IH. simpl. lia.
Qed.

Lemma crlf_to_lf_sublist s : crlf_to_lf s `sublist_of` s.
Proof.
  induction s as [s IH] using (induction_ltof1 _ (@length N)).
  unfold ltof in IH. destruct s as [|c t]; [done|].
  cbn [crlf_to_lf]. destruct (c =? CR).
  - destruct t as [|d t]; [done|]. destruct (N.eqb_spec d LF) as [->|].
    + apply sublist_cons, sublist_skip, IH. simpl. lia.
    + apply sublist_skip, IH. simpl. lia.
  - apply sublist_skip, IH. simpl. lia.
Qed.

Lemma cr_to_lf_no_CR s : CR ∉ cr_to_lf s.
Proof.
  induction s as [|c t IH]; [apply not_elem_of_nil|].
  unfold cr_to_lf. cbn [List.map]. apply not_elem_of_cons. split; [|exact IH].
  destruct (N.eqb_spec c CR); [done | congruence].
Qed.

Lemma cr_to_lf_id s : CR ∉ s -> cr_to_lf s = s.
Proof.
  induction s as [|c t IH]; intros H; [done|].
  apply not_elem_of_cons in H as [Hc Ht]. unfold cr_to_lf. cbn [List.map].
  destruct (N.eqb_spec c CR); [congruence|]. f_equal. by apply IH.
Qed.

Lemma cr_to_lf_tag l s : l `sublist_of` cr_to_lf s -> LF ∉ l -> l `sublist_of` s.
Proof.
  revert l. induction s as [|c t IH]; intros l H Hl; [done|].
  unfold cr_to_lf in H. cbn [List.map] in H.
  apply sublist_cons_r in H as [H|(l' & -> & H)].
  - apply sublist_cons. by apply IH.
  - apply not_elem_of_cons in Hl as [Hc Hl].
    destruct (N.eqb_spec c CR); [done|].
    apply sublist_skip. by apply IH.
Qed.

Lemma cr_to_lf_no_tag s : no_tag s -> no_tag (cr_to_lf s).
Proof.
  intros Hs H. apply Hs. apply cr_to_lf_tag; [done|].
  rewrite !not_elem_of_cons. repeat split; try done. apply not_elem_of_nil.
Qed.

Lemma crlf_to_lf_id s : CR ∉ s -> crlf_to_lf s = s.
Proof.
  induction s as [|c t IH]; intros H; [done|].
  apply not_elem_of_cons in H as [Hc Ht]. cbn [crlf_to_lf].
  destruct (N.eqb_spec c CR); [congruence|]. f_equal. by apply IH.
Qed.

(** *** Runs of newlines *)

Lemma drop_while_split p s : exists w, s = w ++ drop_while p s /\ Forall (fun c => p c = true) w.
Proof.
  induction s as [|c t (w & Hw & Hf)]; [by exists []|].
  simpl. destruct (p c) eqn:E.
  - exists (c :: w). split; [by rewrite Hw at 1 | by constructor].
  - by exists [].
Qed.

Lemma star_eat_all test s :
  forall prev caps,
    exists p, star_eat test prev s caps Some = Some (MState p (drop_while test s) caps).
Proof.
  induction s as [|c t IH]; intros prev caps; [by eexists|].
  simpl. destruct (test c); [|by eexists].
  destruct (IH (Some c) caps) as [p ->]. by eexists.
Qed.

Lemma m_chr_cons c x t prev caps k :
  m false (Chr c) (MState prev (x :: t) caps) k
  = if x =? c then k (MState (Some x) t caps) else None.
Proof. reflexivity. Qed.

Lemma m_chr_nil ci c prev caps k : m ci (Chr c) (MState prev [] caps) k = None.
Proof. reflexivity. Qed.

Lemma match_here_BLANK_RUN prev s :
  match s with
  | c1 :: c2 :: c3 :: t =>
      if (c1 =? LF) && (c2 =? LF) && (c3 =? LF) then
        exists p, match_here false BLANK_RUN prev s
                  = Some (MState p (drop_while is_LF t) [])
      else match_here false BLANK_RUN prev s = None
  | _ => match_here false BLANK_RUN prev s = None
  end.
Proof.
  unfold match_here, BLANK_RUN. cbn [AtLeast].
  destruct s as [|c1 [|c2 [|c3 t]]].
  - by rewrite m_seq, m_chr_nil.
  - rewrite m_seq, m_chr_cons. destruct (c1 =? LF); [|done].
    by rewrite m_seq, m_chr_nil.
  - rewrite m_seq, m_chr_cons. destruct (c1 =? LF); [|done].
    rewrite m_seq, m_chr_cons. destruct (c2 =? LF); [|done].
    by rewrite m_seq, m_chr_nil.
  - rewrite m_seq, m_chr_cons. destruct (c1 =? LF); [|done].
    rewrite m_seq, m_chr_cons. destruct (c2 =? LF); [|done].
    rewrite m_seq, m_chr_cons. destruct (c3 =? LF); [|done].
    cbn [andb]. rewrite m_star_chr. apply star_eat_all.
Qed.

Lemma match_here_BLANK_RUN_Some prev s st :
  match_here false BLANK_RUN prev s = Some st ->
  exists t, s = LF :: LF :: LF :: t /\ m_rest st = drop_while is_LF t.
Proof.
  intros H. pose proof (match_here_BLANK_RUN prev s) as M.
  destruct s as [|c1 [|c2 [|c3 t]]]; try congruence.
  destruct (N.eqb_spec c1 LF) as [->|]; [|simpl in M; congruence].
  destruct (N.eqb_spec c2 LF) as [->|]; [|simpl in M; congruence].
  destruct (N.eqb_spec c3 LF) as [->|]; [|simpl in M; congruence].
  simpl in M. destruct M as [p M]. rewrite M in H. inversion H; subst.
  by exists t.
Qed.

Lemma collapse_runs_ge2 t :
  forall n, (2 <= n)%nat ->
    collapse_runs n t = [LF; LF] ++ collapse_runs 0 (drop_while is_LF t).
Proof.
  induction t as [|c t IH]; intros n Hn.
  - simpl. by rewrite Nat.min_r.
  - cbn [collapse_runs drop_while]. unfold is_LF at 1.
    destruct (c =? LF) eqn:E.
    + apply IH. lia.
    + cbn [collapse_runs]. rewrite E. by rewrite Nat.min_r.
Qed.

Lemma collapse_runs_1 t :
  (forall t', t <> LF :: LF :: t') ->
  collapse_runs 1 t = LF :: collapse_runs 0 t.
Proof.
  intros H. destruct t as [|c t]; [reflexivity|].
  cbn [collapse_runs]. destruct (N.eqb_spec c LF) as [->|]; [|reflexivity].
  destruct t as [|d t]; [reflexivity|].
  cbn [collapse_runs]. destruct (N.eqb_spec d LF) as [->|]; [|reflexivity].
  by destruct (H t).
Qed.

Lemma replace_BLANK_RUN s :
  forall prev, replace_from false BLANK_RUN [LF; LF] prev s 0 = collapse_runs 0 s.
Proof.
  induction s as [s IH] using (induction_ltof1 _ (@length N)).
  unfold ltof in IH. intros prev. destruct s as [|c t]; [reflexivity|].
  cbn [replace_from].
  destruct (match_here false BLANK_RUN prev (c :: t)) as [st|] eqn:E.
  - apply match_here_BLANK_RUN_Some in E as (t2 & Ht & Hr).
    inversion Ht; subst c t. rewrite Hr.
    change (collapse_runs 0 (LF :: LF :: LF :: t2)) with (collapse_runs 3 t2).
    rewrite collapse_runs_ge2 by lia.
    destruct (drop_while_split is_LF t2) as (w & Hw & _).
    remember (drop_while is_LF t2) as r eqn:Er. clear Er. subst t2.
    replace (length (LF :: LF :: LF :: w ++ r) - length r)%nat
      with (S (length (LF :: LF :: w))).
    2:{ simpl. rewrite length_app. lia. }
    change (LF :: LF :: w ++ r) with ((LF :: LF :: w) ++ r).
    rewrite replace_from_skip, IH; [done|].
    simpl. rewrite length_app. lia.
  - rewrite IH by (simpl; lia). cbn [collapse_runs].
    destruct (N.eqb_spec c LF) as [->|]; [|reflexivity].
    symmetry. apply collapse_runs_1. intros t' ->.
    pose proof (match_here_BLANK_RUN prev (LF :: LF :: LF :: t')) as M.
    simpl in M. destruct M as [p M]. congruence.
Qed.

Lemma replicate_sublist (c : N) i j : (i <= j)%nat -> replicate i c `sublist_of` replicate j c.
Proof.
  intros H. replace j with ((j - i) + i)%nat by lia.
  rewrite replicate_add. apply sublist_inserts_l. done.
Qed.

Lemma collapse_runs_sublist s :
  forall n, collapse_runs n s `sublist_of` replicate n LF ++ s.
Proof.
  induction s as [|c t IH]; intros n.
  - simpl. rewrite app_nil_r. apply replicate_sublist. lia.
  - cbn [collapse_runs]. destruct (N.eqb_spec c LF) as [->|].
    + specialize (IH (S n)). by rewrite replicate_S_end, <- app_assoc in IH.
    + apply sublist_app; [apply replicate_sublist; lia|].
      apply sublist_skip. apply (IH 0%nat).
Qed.

Lemma no_blank_run_cons c s :
  no_blank_run (c :: s) <->
  (forall t, c :: s <> LF :: LF :: LF :: t) /\ no_blank_run s.
Proof.
  split.
  - intros H. split.
    + intros t Ht. by apply (H [] t).
    + intros a b Hs. apply (H (c :: a) b). by rewrite Hs.
  - intros [H1 H2] a b Hs. destruct a as [|d a].
    + by apply (H1 b).
    + inversion Hs; subst. by apply (H2 a b).
Qed.

Lemma no_blank_run_nil : no_blank_run [].
Proof. intros a b H. by destruct a. Qed.

Lemma no_blank_run_short i c X :
  (i <= 2)%nat -> c <> LF -> no_blank_run X ->
  no_blank_run (replicate i LF ++ c :: X).
Proof.
  intros Hi Hc HX.
  assert (no_blank_run (c :: X)) as H0.
  { apply no_blank_run_cons. split; [congruence | done]. }
  destruct i as [|[|[|i]]]; [done| | |lia].
  - apply no_blank_run_cons. split; [congruence | done].
  - apply no_blank_run_cons. split; [congruence |].
    apply no_blank_run_cons. split; [congruence | done].
Qed.

Lemma collapse_runs_no_blank_run s : forall n, no_blank_run (collapse_runs n s).
Proof.
  induction s as [|c t IH]; intros n.
  - simpl. assert (Nat.min n 2 <= 2)%nat as H by lia.
    destruct (Nat.min n 2) as [|[|[|i]]]; [apply no_blank_run_nil| | |lia].
    + apply no_blank_run_cons. split; [congruence | apply no_blank_run_nil].
    + apply no_blank_run_cons. split; [congruence |].
      apply no_blank_run_cons. split; [congruence | apply no_blank_run_nil].
  - cbn [collapse_runs]. destruct (N.eqb_spec c LF) as [->|]; [apply IH|].
    apply no_blank_run_short; [lia | done | apply IH].
Qed.

Lemma no_blank_run_no_match s p a b :
  no_blank_run s -> s = a ++ b -> match_here false BLANK_RUN p b = None.
Proof.
  intros Hs ->. destruct (match_here false BLANK_RUN p b) as [st|] eqn:E; [|done].
  apply match_here_BLANK_RUN_Some in E as (t & -> & _). by destruct (Hs a t).
Qed.

Lemma no_blank_run_infix a s b : no_blank_run (a ++ s ++ b) -> no_blank_run s.
Proof.
  intros H u v ->. apply (H (a ++ u) (v ++ b)).
  by rewrite <- !app_assoc.
Qed.

(** *** trim *)

Lemma drop_while_head p s :
  match drop_while p s with c :: _ => p c = false | [] => True end.
Proof.
  induction s as [|c t IH]; [done|]. simpl. destruct (p c) eqn:E; [done|].
  by rewrite E.
Qed.

Lemma drop_while_id p c s : p c = false -> drop_while p (c :: s) = c :: s.
Proof. intros H. simpl. by rewrite H. Qed.

Lemma trim_split s :
  exists a b, s = a ++ trim s ++ b
              /\ Forall (fun c => is_ws c = true) a
              /\ Forall (fun c => is_ws c = true) b.
Proof.
  unfold trim, trimEnd, trimStart.
  destruct (drop_while_split is_ws s) as (a & Ha & Hfa).
  destruct (drop_while_split is_ws (rev (drop_while is_ws s))) as (w & Hw & Hfw).
  exists a, (rev w). split; [|split; [done|]].
  - rewrite <- rev_app_distr, <- Hw, rev_involutive. exact Ha.
  - by apply List.Forall_rev.
Qed.

Lemma trim_sublist s : trim s `sublist_of` s.
Proof.
  destruct (trim_split s) as (a & b & H & _). rewrite H at 2.
  apply sublist_inserts_l, sublist_inserts_r. done.
Qed.

Lemma trimmed_id s : trimmed s -> trim s = s.
Proof.
  destruct s as [|c t]; [done|]. intros (Hc & d & Hd & Hw).
  unfold trim, trimStart, trimEnd. rewrite (drop_while_id _ _ _ Hc).
  destruct (rev (c :: t)) as [|e u] eqn:E.
  - apply (f_equal (@length N)) in E. rewrite length_rev in E. done.
  - assert (e = d) as ->.
    { apply (f_equal (@rev N)) in E. rewrite rev_involutive in E. rewrite E in Hd.
      simpl in Hd. rewrite last_snoc in Hd. congruence. }
    rewrite (drop_while_id _ _ _ Hw). by rewrite <- E, rev_involutive.
Qed.

Lemma trim_trimmed s : trimmed (trim s).
Proof.
  unfold trim, trimEnd, trimStart.
  set (s1 := drop_while is_ws s).
  pose proof (drop_while_head is_ws s) as H1. fold s1 in H1.
  pose proof (drop_while_head is_ws (rev s1)) as H2.
  destruct (drop_while_split is_ws (rev s1)) as (w & Hw & _).
  set (u := drop_while is_ws (rev s1)) in *.
  destruct u as [|d u'] eqn:Eu; [done|].
  assert (s1 = rev u' ++ [d] ++ rev w) as Hs1.
  { apply (f_equal (@rev N)) in Hw. rewrite rev_involutive in Hw. rewrite Hw.
    rewrite rev_app_distr. simpl. by rewrite <- app_assoc. }
  simpl rev. 
  assert (exists c r, rev u' ++ [d] = c :: r /\ is_ws c = false) as (c & r & Hr & Hc).
  { destruct (rev u') as [|c r] eqn:Er.
    - exists d, []. done.
    - exists c, (r ++ [d]). split; [done|]. rewrite Hs1 in H1. by simpl in H1. }
  rewrite Hr. simpl. split; [done|]. exists d. split; [|done].
  rewrite <- Hr. apply last_snoc.
Qed.

(** *** sanitizePGN as a whole *)

(** A run on a small text: tags go, line endings become LF, the run of
    three newlines becomes two, the ends are trimmed. *)
Example sanitizePGN_sample :
  sanitizePGN (VString (lit "  <b>1. e4</b>" ++ [CR; LF; CR; LF; CR; LF]
                          ++ lit "e5 <i>x</i> "))
  = Normal (VString (lit "1. e4" ++ [LF; LF] ++ lit "e5 x")).
Proof. vm_compute. reflexivity. Qed.

(** The script pattern on its own, with its flag [i]. *)
Example script_block_sample :
  replace_all true SCRIPT_BLOCK [] (lit "x<SCRIPT a>al<b>ert(1)</scrIpt>y<script>")
  = lit "xy<script>".
Proof. vm_compute. reflexivity. Qed.

Lemma sanitizePGN_string x :
  sanitizePGN (VString x) = Normal (VString (sanitize_string x)).
Proof. destruct x as [|c t]; reflexivity. Qed.

Lemma sanitize_string_spec x :
  sanitize_string x = trim (collapse_runs 0 (normalize_eol (strip_markup x))).
Proof.
  unfold sanitize_string, replace_all.
  by rewrite replace_CRLF, replace_LONE_CR, replace_BLANK_RUN, cr_crlf_normalize.
Qed.

Lemma collapse_runs_sublist0 s : collapse_runs 0 s `sublist_of` s.
Proof. apply (collapse_runs_sublist s 0). Qed.

Lemma sanitize_string_no_tag x : no_tag (sanitize_string x).
Proof.
  rewrite sanitize_string_spec, <- cr_crlf_normalize.
  eapply no_tag_sublist; [apply trim_sublist|].
  eapply no_tag_sublist; [apply collapse_runs_sublist0|].
  apply cr_to_lf_no_tag.
  eapply no_tag_sublist; [apply crlf_to_lf_sublist|].
  apply strip_markup_no_tag.
Qed.

Lemma sanitize_string_no_CR x : CR ∉ sanitize_string x.
Proof.
  rewrite sanitize_string_spec, <- cr_crlf_normalize. intros H.
  eapply cr_to_lf_no_CR.
  eapply elem_of_sublist; [|apply collapse_runs_sublist0].
  eapply elem_of_sublist; [exact H | apply trim_sublist].
Qed.

Lemma sanitize_string_no_blank_run x : no_blank_run (sanitize_string x).
Proof.
  rewrite sanitize_string_spec.
  destruct (trim_split (collapse_runs 0 (normalize_eol (strip_markup x))))
    as (a & b & H & _).
  apply (no_blank_run_infix a _ b). rewrite <- H.
  apply collapse_runs_no_blank_run.
Qed.

Lemma sanitize_string_trimmed x : trimmed (sanitize_string x).
Proof. rewrite sanitize_string_spec. apply trim_trimmed. Qed.

(** A string in the shape sanitizePGN produces is left as it is. *)
Lemma sanitize_string_fixed y :
  no_tag y -> CR ∉ y -> no_blank_run y -> trimmed y -> sanitize_string y = y.
Proof.
  intros Ht Hc Hb Hw. unfold sanitize_string.
  rewrite (strip_markup_id y Ht).
  unfold replace_all at 3. rewrite replace_CRLF, (crlf_to_lf_id y Hc).
  unfold replace_all at 2. rewrite replace_LONE_CR, (cr_to_lf_id y Hc).
  rewrite (replace_all_no_match false BLANK_RUN [LF; LF] y).
  - by apply trimmed_id.
  - intros p a b. by apply no_blank_run_no_match.
Qed.

(** C1.  sanitizePGN is idempotent: for every string [x], running
    sanitizePGN on the result of sanitizePGN(x) gives that result again. *)
Theorem sanitizePGN_idempotent (x : jsstring) :
  (sanitizePGN (VString x) ≫= sanitizePGN) = sanitizePGN (VString x).
Proof.
  rewrite sanitizePGN_string.
  change (sanitizePGN (VString (sanitize_string x))
          = Normal (VString (sanitize_string x))).
  rewrite sanitizePGN_string. do 2 f_equal.
  apply sanitize_string_fixed.
  - apply sanitize_string_no_tag.
  - apply sanitize_string_no_CR.
  - apply sanitize_string_no_blank_run.
  - apply sanitize_string_trimmed.
Qed.

(** C5, as the code has it.  For every string [x], sanitizePGN(x) is the
    text of [x] without its markup, with every CR LF pair and every other
    CR turned into one LF, then with every maximal run of three or more
    newline characters cut down to exactly two newline characters (that
    is one blank line; shorter runs are kept), and then trimmed.  The
    result holds no CR and no three newlines in a row, and neither starts
    nor ends with white space. *)
Theorem sanitizePGN_normal_form (x : jsstring) :
  exists y,
    sanitizePGN (VString x) = Normal (VString y)
    /\ y = trim (collapse_runs 0 (normalize_eol (strip_markup x)))
    /\ (CR ∉ y) /\ no_blank_run y /\ trimmed y.
Proof.
  exists (sanitize_string x). split; [apply sanitizePGN_string|].
  split; [apply sanitize_string_spec|].
  split; [apply sanitize_string_no_CR|].
  split; [apply sanitize_string_no_blank_run | apply sanitize_string_trimmed].
Qed.

(** C5 as stated fails: a text with a run of three blank lines (four
    newline characters between two words) comes out with one blank line,
    not with two. *)
Lemma sanitizePGN_blank_lines_counterexample :
  let x := lit "a" ++ [LF; LF; LF; LF] ++ lit "b" in
  let y := lit "a" ++ [LF; LF] ++ lit "b" in
  blank_lines x = 3%nat
  /\ sanitizePGN (VString x) = Normal (VString y)
  /\ blank_lines y = 1%nat
  /\ blank_lines y <> 2%nat.
Proof. vm_compute. repeat split; done. Qed.

(** C10.  For every value, sanitizePGN returns normally: the empty
    string when the value is not a string (null and undefined among
    them), the sanitized text when it is.  A string method reached with
    another value would make the result a throw, so none is. *)
Theorem sanitizePGN_total (v : value) :
  sanitizePGN v
  = Normal (VString (match v with VString s => sanitize_string s | _ => [] end)).
Proof.
  destruct v as [| |b|z| |s|i|i|i]; try reflexivity.
  - by destruct b.
  - unfold sanitizePGN. simpl. by destruct (Z.eqb z 0).
  - apply sanitizePGN_string.
Qed.

End SanitizeFacts.

(** ** The validator *)

Module ValidateFacts.
Import Js Regex Pgn PgnSpec RegexFacts SanitizeFacts.

Lemma m_group ci i a s k :
  m ci (Group i a) s k = m ci a s (fun s1 => k (set_cap i s s1)).
Proof. reflexivity. Qed.

Lemma m_cls_cons ci inv rs x t prev caps k :
  m ci (Cls inv rs) (MState prev (x :: t) caps) k
  = if cls_match ci inv rs x then k (MState (Some x) t caps) else None.
Proof. reflexivity. Qed.

(** A greedy [+] over a character class reads the whole run of accepted
    characters when the rest of the pattern matches behind it. *)
Lemma m_plus_cls_greedy ci inv rs w prev rest caps k r :
  w <> [] ->
  Forall (fun c => cls_match ci inv rs c = true) w ->
  match rest with c :: _ => cls_match ci inv rs c = false | [] => True end ->
  k (MState (prev_after prev w) rest caps) = Some r ->
  m ci (Plus (Cls inv rs)) (MState prev (w ++ rest) caps) k = Some r.
Proof.
  intros Hne Hw Hrest Hk. destruct w as [|c w]; [done|].
  inversion Hw as [|? ? Hc Hw']; subst.
  unfold Plus. rewrite m_seq. cbn [app]. rewrite m_cls_cons, Hc, m_star_cls.
  apply star_eat_greedy; [done | done |].
  replace (prev_after (Some c) w) with (prev_after prev (c :: w)); [done|].
  unfold prev_after. rewrite last_cons. by destruct (last w).
Qed.

Lemma m_star_cls_greedy ci inv rs w prev rest caps k r :
  Forall (fun c => cls_match ci inv rs c = true) w ->
  match rest with c :: _ => cls_match ci inv rs c = false | [] => True end ->
  k (MState (prev_after prev w) rest caps) = Some r ->
  m ci (Star (Cls inv rs)) (MState prev (w ++ rest) caps) k = Some r.
Proof. intros. rewrite m_star_cls. by apply star_eat_greedy. Qed.

Lemma cls_plain rs c : cls_match false false rs c = in_ranges rs c.
Proof. unfold cls_match, in_class. simpl. by rewrite orb_false_r. Qed.

Lemma ws_not_word c : is_ws c = true -> in_ranges WORD c = false.
Proof.
  unfold is_ws, in_ranges, in_range, WHITESPACE, WORD. simpl.
  rewrite !orb_false_r. intros H.
  repeat (apply orb_true_iff in H as [H|H]);
    apply andb_true_iff in H as [H1 H2]; apply N.leb_le in H1, H2;
    repeat (apply orb_false_iff; split);
    apply andb_false_iff;
    first [ left; apply N.leb_gt; lia | right; apply N.leb_gt; lia ].
Qed.

Lemma letter_not_ws c : in_ranges LETTER c = true -> is_ws c = false.
Proof.
  unfold is_ws, in_ranges, in_range, WHITESPACE, LETTER. simpl.
  rewrite !orb_false_r. intros H.
  repeat (apply orb_true_iff in H as [H|H]);
    apply andb_true_iff in H as [H1 H2]; apply N.leb_le in H1, H2;
    repeat (apply orb_false_iff; split);
    apply andb_false_iff;
    first [ left; apply N.leb_gt; lia | right; apply N.leb_gt; lia ].
Qed.

Lemma digit_not_ws c : in_ranges DIGIT c = true -> is_ws c = false.
Proof.
  unfold is_ws, in_ranges, in_range, WHITESPACE, DIGIT. simpl.
  rewrite !orb_false_r. intros H.
  repeat (apply orb_true_iff in H as [H|H]);
    apply andb_true_iff in H as [H1 H2]; apply N.leb_le in H1, H2;
    repeat (apply orb_false_iff; split);
    apply andb_false_iff;
    first [ left; apply N.leb_gt; lia | right; apply N.leb_gt; lia ].
Qed.

(** *** A header line is matched, with its key and its value *)

Lemma header_line_app key ws value rest :
  header_line key ws value ++ rest
  = cu "[" :: key ++ ws ++ QUOTE :: value ++ QUOTE :: cu "]" :: rest.
Proof.
  unfold header_line. cbn [app]. f_equal.
  rewrite <- !app_assoc. do 2 f_equal. cbn [app]. f_equal.
  by rewrite <- app_assoc.
Qed.

Lemma match_here_header_line prev key ws value rest :
  key <> [] -> Forall (fun c => in_ranges WORD c = true) key ->
  header_shape ws value ->
  exists st,
    match_here false PGN_HEADER prev (header_line key ws value ++ rest) = Some st
    /\ m_caps st = [(2%nat, value); (1%nat, key)].
Proof.
  intros Hk Hkw [Hw1 Hw2 _ Hv1 Hv2 _].
  exists (MState (Some (cu "]")) rest [(2%nat, value); (1%nat, key)]).
  split; [|reflexivity].
  rewrite header_line_app. unfold match_here, PGN_HEADER.
  rewrite m_seq, m_chr_cons. simpl (cu "[" =? cu "["). cbv iota.
  rewrite m_seq, m_group.
  apply m_plus_cls_greedy; [done | | |].
  { eapply Forall_impl; [exact Hkw|]. intros c Hc. by rewrite cls_plain. }
  { destruct ws as [|c ws']; [done|]. cbn [app].
    inversion Hw2; subst. rewrite cls_plain. by apply ws_not_word. }
  unfold set_cap. cbn [m_prev m_rest m_caps].
  rewrite m_seq.
  apply m_plus_cls_greedy; [done | | |].
  { eapply Forall_impl; [exact Hw2|]. intros c Hc. by rewrite cls_plain. }
  { cbn [app]. reflexivity. }
  cbn [app]. rewrite m_seq, m_chr_cons. simpl (QUOTE =? QUOTE). cbv iota.
  rewrite m_seq, m_group.
  apply m_plus_cls_greedy; [done | | |].
  { apply Forall_forall. intros c Hc. rewrite not_chr_false.
    destruct (N.eqb_spec c QUOTE) as [->|]; [done|reflexivity]. }
  { cbn [app]. reflexivity. }
  unfold set_cap. cbn [m_prev m_rest m_caps app].
  rewrite m_seq, m_chr_cons. simpl (QUOTE =? QUOTE). cbv iota.
  rewrite m_chr_cons. simpl (cu "]" =? cu "]"). cbv iota.
  f_equal. f_equal. f_equal; [|f_equal].
  - f_equal. apply consumed_app. cbn [m_rest]. reflexivity.
  - f_equal. apply consumed_app. cbn [m_rest]. reflexivity.
Qed.

(** *** What a match of the header pattern tells about the line *)

Lemma den_chr_inv ci c s s' :
  den ci (Chr c) s s' ->
  exists x, m_rest s = x :: m_rest s' /\ chr_match ci c x = true
            /\ m_caps s' = m_caps s.
Proof. intros H. inversion H; subst. simpl. eauto. Qed.

Lemma den_group_inv ci i a s s' :
  den ci (Group i a) s s' -> exists s1, den ci a s s1 /\ s' = set_cap i s s1.
Proof. intros H. inversion H; subst. eauto. Qed.

Lemma den_group_plus_cls ci i inv rs s s' :
  den ci (Group i (Plus (Cls inv rs))) s s' ->
  exists w, w <> [] /\ m_rest s = w ++ m_rest s'
            /\ Forall (fun c => cls_match ci inv rs c = true) w
            /\ m_caps s' = (i, w) :: m_caps s.
Proof.
  intros H. apply den_group_inv in H as (s1 & H & ->).
  apply den_plus_cls in H as (c & w & Hr & Hf & Hc).
  exists (c :: w). split; [done|]. split; [done|]. split; [done|].
  unfold set_cap. cbn [m_caps]. rewrite Hc. f_equal. f_equal.
  by apply consumed_app.
Qed.

Lemma den_PGN_HEADER s st :
  den false PGN_HEADER s st ->
  exists key ws value,
    m_rest s = header_line key ws value ++ m_rest st
    /\ m_caps st = (2%nat, value) :: (1%nat, key) :: m_caps s
    /\ key <> [] /\ Forall (fun c => in_ranges WORD c = true) key
    /\ ws <> [] /\ Forall (fun c => is_ws c = true) ws
    /\ value <> [] /\ QUOTE ∉ value.
Proof.
  unfold PGN_HEADER. intros H.
  apply den_seq_inv in H as (s1 & H1 & H).
  apply den_seq_inv in H as (s2 & H2 & H).
  apply den_seq_inv in H as (s3 & H3 & H).
  apply den_seq_inv in H as (s4 & H4 & H).
  apply den_seq_inv in H as (s5 & H5 & H).
  apply den_seq_inv in H as (s6 & H6 & H7).
  apply den_chr_inv in H1 as (x1 & R1 & M1 & C1).
  apply den_group_plus_cls in H2 as (key & Hk & R2 & F2 & C2).
  apply den_plus_cls in H3 as (c & ws & R3 & F3 & C3).
  apply den_chr_inv in H4 as (x4 & R4 & M4 & C4).
  apply den_group_plus_cls in H5 as (value & Hv & R5 & F5 & C5).
  apply den_chr_inv in H6 as (x6 & R6 & M6 & C6).
  apply den_chr_inv in H7 as (x7 & R7 & M7 & C7).
  rewrite chr_match_false in M1, M4, M6, M7.
  apply N.eqb_eq in M1, M4, M6, M7. subst x1 x4 x6 x7.
  exists key, (c :: ws), value. split; [|split; [|split; [done|]]].
  - by rewrite header_line_app, R1, R2, R3, R4, R5, R6, R7.
  - by rewrite C7, C6, C5, C4, C3, C2, C1.
  - split.
    { eapply Forall_impl; [exact F2|]. intros d Hd. cbv beta in Hd. by rewrite cls_plain in Hd. }
    split; [done|]. split.
    { eapply Forall_impl; [exact F3|]. intros d Hd. cbv beta in Hd. by rewrite cls_plain in Hd. }
    split; [done|]. intros Hq. rewrite Forall_forall in F5.
    apply F5 in Hq. rewrite not_chr_false in Hq. done.
Qed.

Lemma match_header_Some l key value :
  match_header l = Some (key, value) ->
  exists a ws b,
    l = a ++ header_line key ws value ++ b
    /\ key <> [] /\ Forall (fun c => in_ranges WORD c = true) key
    /\ ws <> [] /\ Forall (fun c => is_ws c = true) ws
    /\ value <> [] /\ QUOTE ∉ value.
Proof.
  unfold match_header, exec. intros H.
  destruct (search false PGN_HEADER None l) as [st|] eqn:E; [|done].
  apply search_sound in E as (a & b & -> & E).
  apply match_here_sound, den_PGN_HEADER in E
    as (k & ws & v & R & C & Hk & Fk & Hw & Fw & Hv & Hq).
  cbn [m_rest m_caps] in R, C. rewrite C in H. cbn in H.
  inversion H; subst k v. exists a, ws, (m_rest st). by rewrite R.
Qed.

Lemma match_header_line key ws value :
  key <> [] -> Forall (fun c => in_ranges WORD c = true) key ->
  header_shape ws value ->
  match_header (header_line key ws value) = Some (key, value).
Proof.
  intros Hk Hkw Hs.
  destruct (match_here_header_line None key ws value [] Hk Hkw Hs) as (st & Hm & Hc).
  rewrite app_nil_r in Hm. unfold match_header, exec.
  rewrite (search_here _ _ _ _ _ Hm), Hc. reflexivity.
Qed.

(** *** Lines *)

Lemma split_nonempty c s : split c s <> [].
Proof.
  destruct s as [|d t]; simpl; [done|].
  destruct (d =? c); [done|]. by destruct (split c t).
Qed.

Lemma split_no_LF l : LF ∉ l -> split LF l = [l].
Proof.
  induction l as [|c t IH]; intros H; [done|].
  apply not_elem_of_cons in H as [Hc Ht]. simpl.
  destruct (N.eqb_spec c LF); [congruence|]. by rewrite IH.
Qed.

Lemma split_app_LF p r : split LF (p ++ LF :: r) = split LF p ++ split LF r.
Proof.
  induction p as [|c p IH]; [reflexivity|]. simpl.
  destruct (c =? LF); [by rewrite IH|]. rewrite IH.
  pose proof (split_nonempty LF p). by destruct (split LF p).
Qed.

Lemma split_elem_LF l s : l ∈ split LF s -> LF ∉ l.
Proof.
  revert l. induction s as [|c t IH]; intros l H; simpl in H.
  - apply list_elem_of_singleton in H as ->. apply not_elem_of_nil.
  - destruct (N.eqb_spec c LF) as [->|Hc].
    + apply elem_of_cons in H as [->|H]; [apply not_elem_of_nil | by apply IH].
    + pose proof (split_nonempty LF t).
      destruct (split LF t) as [|l0 ls]; [done|].
      apply elem_of_cons in H as [->|H].
      * apply not_elem_of_cons. split; [congruence|]. apply IH. by left.
      * apply IH. by right.
Qed.

Lemma split_head s :
  exists l0 ls,
    split LF s = l0 :: ls /\ (LF ∉ l0)
    /\ ((ls = [] /\ s = l0) \/ (exists q, s = l0 ++ LF :: q /\ ls = split LF q)).
Proof.
  induction s as [|c t (l0 & ls & E & Hl & H)].
  - exists [], []. split; [done|]. split; [apply not_elem_of_nil | by left].
  - simpl. destruct (N.eqb_spec c LF) as [->|Hc].
    + exists [], (split LF t). split; [done|].
      split; [apply not_elem_of_nil|]. right. by exists t.
    + rewrite E. exists (c :: l0), ls. split; [done|].
      split; [apply not_elem_of_cons; split; [congruence | done]|].
      destruct H as [[-> ->]|(q & -> & ->)]; [by left|]. right. by exists q.
Qed.

(** A line of a text, with what stands before and behind it. *)
Lemma split_elem s :
  forall l, l ∈ split LF s ->
  exists pre post, s = pre ++ l ++ post /\ ends_line pre /\ starts_line post.
Proof.
  induction s as [s IH] using (induction_ltof1 _ (@length N)).
  unfold ltof in IH. intros l H.
  destruct (split_head s) as (l0 & ls & E & _ & Hs). rewrite E in H.
  apply elem_of_cons in H as [->|H].
  - exists []. destruct Hs as [[-> ->]|(q & -> & ->)].
    + exists []. rewrite app_nil_r. by repeat split; left.
    + exists (LF :: q). repeat split; [by left | right; by eexists].
  - destruct Hs as [[-> ->]|(q & -> & ->)]; [by apply elem_of_nil in H|].
    apply IH in H as (pre & post & -> & Hpre & Hpost).
    2:{ rewrite length_app. simpl. lia. }
    exists (l0 ++ LF :: pre), post. split; [by rewrite <- app_assoc|].
    split; [|done]. right.
    destruct Hpre as [->|[p ->]]; [by exists l0|].
    exists (l0 ++ LF :: p). by rewrite <- app_assoc.
Qed.

(** The lines of a text around one of its lines. *)
Lemma split_around pre l post :
  LF ∉ l -> ends_line pre -> starts_line post ->
  exists l1 l2,
    split LF (pre ++ l ++ post) = l1 ++ l :: l2
    /\ (forall l', l' ∈ l2 -> exists x y, post = x ++ l' ++ y).
Proof.
  intros Hl Hpre Hpost.
  assert (exists l2, split LF (l ++ post) = l :: l2
                     /\ (forall l', l' ∈ l2 -> exists x y, post = x ++ l' ++ y))
    as (l2 & E2 & H2).
  { destruct Hpost as [->|[q ->]].
    - exists []. rewrite app_nil_r, split_no_LF by done. split; [done|].
      intros l' H. by apply elem_of_nil in H.
    - exists (split LF q). rewrite split_app_LF, split_no_LF by done.
      split; [done|]. intros l' H.
      apply split_elem in H as (x & y & -> & _). by exists (LF :: x), y. }
  destruct Hpre as [->|[p ->]].
  - exists [], l2. by split.
  - exists (split LF p), l2. split; [|done].
    rewrite <- app_assoc. cbn [app]. by rewrite split_app_LF, E2.
Qed.

Lemma elem_split pre l post :
  LF ∉ l -> ends_line pre -> starts_line post -> l ∈ split LF (pre ++ l ++ post).
Proof.
  intros Hl Hpre Hpost.
  destruct (split_around pre l post Hl Hpre Hpost) as (l1 & l2 & -> & _).
  apply elem_of_app. right. by left.
Qed.

(** *** Trimming a text around one of its lines *)

Lemma drop_while_app p pre x r :
  p x = false -> drop_while p (pre ++ x :: r) = drop_while p pre ++ x :: r.
Proof.
  intros Hx. induction pre as [|c pre IH]; simpl; [by rewrite Hx|].
  by destruct (p c).
Qed.

Lemma ends_line_suffix w pre : ends_line (w ++ pre) -> ends_line pre.
Proof.
  intros [H|[p H]].
  - apply app_eq_nil in H as [_ ->]. by left.
  - destruct pre as [|c pre'] using rev_ind; [by left|]. right.
    rewrite app_assoc in H. apply app_inj_tail in H as [_ ->]. by eexists.
Qed.

Lemma starts_line_prefix post y : starts_line (post ++ y) -> starts_line post.
Proof.
  intros [H|[q H]].
  - apply app_eq_nil in H as [-> _]. by left.
  - destruct post as [|c post']; [by left|]. right. inversion H; subst.
    by eexists.
Qed.

Lemma trim_infix pre l post :
  trimmed l -> l <> [] ->
  trim (pre ++ l ++ post) = trimStart pre ++ l ++ trimEnd post.
Proof.
  intros Hl Hne. destruct l as [|x l']; [done|].
  destruct Hl as (Hx & z & Hz & Hzw).
  apply last_Some in Hz as [l'' Hz].
  unfold trim, trimStart, trimEnd. cbn [app].
  rewrite (drop_while_app _ _ _ _ Hx).
  change (drop_while is_ws pre ++ x :: l' ++ post)
    with (drop_while is_ws pre ++ (x :: l') ++ post).
  rewrite Hz. rewrite !rev_app_distr. cbn [rev app].
  rewrite <- !app_assoc. cbn [app].
  rewrite (drop_while_app _ _ _ _ Hzw).
  rewrite rev_app_distr. cbn [rev]. rewrite !rev_app_distr, !rev_involutive.
  cbn [rev app].
  change (x :: l' ++ rev (drop_while is_ws (rev post)))
    with ((x :: l') ++ rev (drop_while is_ws (rev post))).
  rewrite Hz. by rewrite <- !app_assoc.
Qed.

Lemma trimStart_ends_line pre : ends_line pre -> ends_line (trimStart pre).
Proof.
  intros H. destruct (drop_while_split is_ws pre) as (w & Hw & _).
  rewrite Hw in H. by apply ends_line_suffix in H.
Qed.

Lemma trimEnd_prefix post : exists y, post = trimEnd post ++ y.
Proof.
  destruct (drop_while_split is_ws (rev post)) as (u & Hu & _).
  exists (rev u). apply (f_equal (@rev N)) in Hu.
  by rewrite rev_involutive, rev_app_distr in Hu.
Qed.

Lemma trimEnd_starts_line post : starts_line post -> starts_line (trimEnd post).
Proof.
  intros H. destruct (trimEnd_prefix post) as [y Hy].
  rewrite Hy in H. by apply starts_line_prefix in H.
Qed.

(** *** The headers object *)

Lemma has_header_lookup h K v : obj_get h K = Some v -> v <> [] -> has_header h K = true.
Proof. unfold has_header. intros -> H. by destruct v. Qed.

Lemma add_header_keeps h line K :
  has_header h K = true -> has_header (add_header h line) K = true.
Proof.
  intros H. unfold add_header.
  destruct (match_header line) as [[k v]|] eqn:E; [|done].
  unfold obj_set, str_eqb. case_bool_decide; [done|].
  apply match_header_Some in E as (_ & _ & _ & _ & _ & _ & _ & _ & Hv & _).
  unfold has_header, obj_get in *.
  destruct (decide (k = K)) as [->|Hne].
  - rewrite lookup_insert_eq. by destruct v.
  - by rewrite lookup_insert_ne.
Qed.

Lemma fold_keeps lines :
  forall h K, has_header h K = true ->
              has_header (fold_left add_header lines h) K = true.
Proof.
  induction lines as [|l lines IH]; intros h K H; [done|].
  simpl. by apply IH, add_header_keeps.
Qed.

Lemma add_header_sets h line K v :
  match_header line = Some (K, v) -> K <> lit "__proto__" ->
  obj_get (add_header h line) K = Some v.
Proof.
  intros E HK. unfold add_header. rewrite E. unfold obj_set, str_eqb.
  case_bool_decide; [done|]. unfold obj_get. by rewrite lookup_insert_eq.
Qed.

Lemma fold_sets lines :
  forall h l K v,
    l ∈ lines -> match_header l = Some (K, v) -> K <> lit "__proto__" ->
    has_header (fold_left add_header lines h) K = true.
Proof.
  induction lines as [|l0 lines IH]; intros h l K v Hl E HK.
  - by apply elem_of_nil in Hl.
  - simpl. apply elem_of_cons in Hl as [->|Hl]; [|by eapply IH].
    apply fold_keeps. eapply has_header_lookup; [by apply add_header_sets|].
    by apply match_header_Some in E as (_ & _ & _ & _ & _ & _ & _ & _ & Hv & _).
Qed.

Lemma add_header_other h line K :
  (forall v, match_header line <> Some (K, v)) ->
  obj_get (add_header h line) K = obj_get h K.
Proof.
  intros H. unfold add_header.
  destruct (match_header line) as [[k v]|] eqn:E; [|done].
  unfold obj_set, str_eqb. case_bool_decide; [done|].
  unfold obj_get. rewrite lookup_insert_ne; [done|]. intros ->. by apply (H v).
Qed.

Lemma fold_other lines :
  forall h K,
    (forall l v, l ∈ lines -> match_header l <> Some (K, v)) ->
    obj_get (fold_left add_header lines h) K = obj_get h K.
Proof.
  induction lines as [|l0 lines IH]; intros h K H; [done|].
  simpl. rewrite IH.
  - apply add_header_other. intros v. apply H. by left.
  - intros l v Hl. apply H. by right.
Qed.

(** A line on which the header pattern finds the key holds a header of
    that key. *)
Lemma match_header_contains l K v :
  LF ∉ l -> match_header l = Some (K, v) -> contains_header K l.
Proof.
  intros Hl E.
  apply match_header_Some in E as (a & ws & b & -> & _ & _ & Hw & Fw & Hv & Hq).
  exists a, ws, v, b. split; [|done].
  rewrite header_line_app in Hl.
  split; try done.
  - intros H. apply Hl. set_solver.
  - intros H. apply Hl. set_solver.
Qed.

Lemma contains_header_infix K x s y :
  contains_header K s -> contains_header K (x ++ s ++ y).
Proof.
  intros (a & ws & v & b & Hs & ->). exists (x ++ a), ws, v, (b ++ y).
  split; [done|]. by rewrite <- !app_assoc.
Qed.

(** *** validatePGN *)

Lemma validatePGN_string toLowerCase s :
  trim s <> [] ->
  validatePGN toLowerCase (VString s)
  = let headers := extractHeaders (trim s) in
    Validation (length (missing_headers headers) =? 0)%nat
      (missing_headers headers)
      (moves_warning (trim s) ++ result_warning headers
       ++ variant_warning toLowerCase headers).
Proof.
  intros H. destruct s as [|c t]; [done|].
  unfold validatePGN. cbn [truthy typeof type_tag_eqb negb orb].
  destruct (trim (c :: t)) as [|d u] eqn:E; [done|]. reflexivity.
Qed.

Lemma required_keys K :
  K ∈ REQUIRED_HEADERS ->
  K <> [] /\ Forall (fun c => in_ranges WORD c = true) K /\ K <> lit "__proto__".
Proof.
  unfold REQUIRED_HEADERS. rewrite !elem_of_cons, elem_of_nil.
  intros [->|[->|[->|[->|[->|[->|[]]]]]]];
    (split; [done|]); (split; [by repeat constructor | done]).
Qed.

Lemma header_line_trimmed key ws value : trimmed (header_line key ws value).
Proof.
  unfold header_line, trimmed. split; [reflexivity|]. exists (cu "]").
  split; [|reflexivity]. apply last_Some.
  exists (cu "[" :: key ++ ws ++ QUOTE :: value ++ [QUOTE]).
  cbn [app]. f_equal. rewrite <- !app_assoc. do 2 f_equal. cbn [app]. f_equal.
  by rewrite <- app_assoc.
Qed.

(** A header line of the record is a line of the trimmed record. *)
Lemma header_line_of_trimmed key ws value s :
  header_line key ws value ∈ split LF s ->
  header_line key ws value ∈ split LF (trim s).
Proof.
  intros H. pose proof (split_elem_LF _ _ H) as Hl.
  apply split_elem in H as (pre & post & -> & Hpre & Hpost).
  rewrite trim_infix; [|apply header_line_trimmed|done].
  apply elem_split; [done | by apply trimStart_ends_line
                    | by apply trimEnd_starts_line].
Qed.

Lemma split_nil_only l : l ∈ split LF [] -> l = [].
Proof. simpl. by intros ->%list_elem_of_singleton. Qed.

Lemma has_header_line_found K v s :
  K ∈ REQUIRED_HEADERS -> has_header_line K v s ->
  trim s <> [] /\ has_header (extractHeaders (trim s)) K = true.
Proof.
  intros HK (ws & Hs & Hl). apply header_line_of_trimmed in Hl.
  destruct (required_keys K HK) as (Hne & Hw & Hp). split.
  - intros E. rewrite E in Hl. by apply split_nil_only in Hl.
  - unfold extractHeaders. eapply fold_sets; [exact Hl | | exact Hp].
    by apply match_header_line.
Qed.

Lemma all_headers_found s :
  (forall K, K ∈ REQUIRED_HEADERS -> exists v, has_header_line K v s) ->
  trim s <> [] /\ missing_headers (extractHeaders (trim s)) = [].
Proof.
  intros H. split.
  - assert (lit "Result" ∈ REQUIRED_HEADERS) as HR by (do 5 right; by left).
    destruct (H _ HR) as [v Hv].
    by eapply has_header_line_found.
  - unfold missing_headers.
    assert (forall K, K ∈ REQUIRED_HEADERS ->
                      has_header (extractHeaders (trim s)) K = true) as Hall.
    { intros K HK. destruct (H K HK) as [v Hv].
      by apply (has_header_line_found K v s HK). }
    revert Hall. generalize REQUIRED_HEADERS as ks.
    induction ks as [|k ks IH]; intros Hall; [done|].
    simpl. rewrite (Hall k) by (by left). simpl. apply IH.
    intros K HK. apply Hall. by right.
Qed.

(** *** Moves *)

Lemma move_token_trimmed ds ws c :
  ds <> [] -> Forall (fun d => in_ranges DIGIT d = true) ds ->
  in_ranges LETTER c = true ->
  trimmed (move_token ds ws c) /\ move_token ds ws c <> [].
Proof.
  intros Hne Hd Hc. destruct ds as [|d ds]; [done|]. split; [|done].
  inversion Hd; subst. unfold move_token, trimmed. cbn [app].
  split; [by apply digit_not_ws|]. exists c. split; [|by apply letter_not_ws].
  apply last_Some. exists (d :: ds ++ cu "." :: ws). cbn [app]. f_equal.
  rewrite <- app_assoc. by cbn [app].
Qed.

Lemma match_here_move prev ds ws c rest :
  ds <> [] -> Forall (fun d => in_ranges DIGIT d = true) ds ->
  Forall (fun d => is_ws d = true) ws ->
  in_ranges LETTER c = true ->
  is_Some (match_here false movePattern prev (move_token ds ws c ++ rest)).
Proof.
  intros Hne Hd Hw Hc. eexists.
  unfold match_here, movePattern, move_token.
  rewrite m_seq, <- !app_assoc. cbn [app]. rewrite <- app_assoc. cbn [app].
  apply m_plus_cls_greedy; [done | | reflexivity |].
  { eapply Forall_impl; [exact Hd|]. intros d H. by rewrite cls_plain. }
  rewrite m_seq, m_chr_cons. simpl (cu "." =? cu "."). cbv iota.
  rewrite m_seq. apply m_star_cls_greedy.
  { eapply Forall_impl; [exact Hw|]. intros d H. by rewrite cls_plain. }
  { rewrite cls_plain. by apply letter_not_ws. }
  rewrite m_cls_cons, cls_plain, Hc. reflexivity.
Qed.

Lemma contains_move_found s :
  contains_move s -> checkForMoves (trim s) = true.
Proof.
  intros (a & ds & ws & c & b & -> & Hne & Hd & Hw & Hc).
  destruct (move_token_trimmed ds ws c Hne Hd Hc) as [Ht Hn].
  rewrite trim_infix by done. unfold checkForMoves, test, exec.
  destruct (search_complete false movePattern (trimStart a) None
              (move_token ds ws c ++ trimEnd b)) as [st ->]; [|done].
  by apply match_here_move.
Qed.

Lemma not_includes arr x : x ∉ arr -> includes arr x = false.
Proof.
  induction arr as [|a arr IH]; intros H; [done|].
  apply not_elem_of_cons in H as [Hne H]. unfold includes. simpl.
  unfold str_eqb at 1. rewrite bool_decide_eq_false_2 by done. by apply IH.
Qed.

Lemma no_moves_warning_absent toLowerCase h :
  lit "No moves found in PGN" ∉ result_warning h ++ variant_warning toLowerCase h.
Proof.
  rewrite not_elem_of_app. split.
  - unfold result_warning. destruct (obj_get h (lit "Result")) as [[|c r]|];
      try apply not_elem_of_nil.
    destruct (includes validResults (c :: r)); [apply not_elem_of_nil|].
    by intros H%list_elem_of_singleton.
  - unfold variant_warning. destruct (obj_get h (lit "Variant")) as [[|c r]|].
    + by intros H%list_elem_of_singleton.
    + destruct (str_eqb _ _); [apply not_elem_of_nil|].
      by intros H%list_elem_of_singleton.
    + by intros H%list_elem_of_singleton.
Qed.

(** C2.  A record that has each of the six required headers as a line
    of the form [Key "Value"], and holds a move token, is valid: the
    list of errors is empty (and no warning says that moves are
    missing). *)
Theorem validatePGN_complete_record
  (toLowerCase : jsstring -> jsstring) (s : jsstring) :
  (forall K, K ∈ REQUIRED_HEADERS -> exists v, has_header_line K v s) ->
  contains_move s ->
  valid (validatePGN toLowerCase (VString s)) = true
  /\ errors (validatePGN toLowerCase (VString s)) = []
  /\ lit "No moves found in PGN" ∉ warnings (validatePGN toLowerCase (VString s)).
Proof.
  intros Hh Hm. destruct (all_headers_found s Hh) as [Ht He].
  rewrite validatePGN_string by done. cbn [valid errors warnings]. rewrite He.
  split; [done|]. split; [done|].
  unfold moves_warning. rewrite contains_move_found by done.
  apply no_moves_warning_absent.
Qed.

(** C3, as the code has it.  For a record that is not empty (nor white
    space only) and holds no header [Result "..."] anywhere in its text,
    validatePGN returns valid = false, and its errors hold the message
    that names the Result header. *)
Theorem validatePGN_missing_result
  (toLowerCase : jsstring -> jsstring) (s : jsstring) :
  trim s <> [] ->
  ~ contains_header (lit "Result") s ->
  valid (validatePGN toLowerCase (VString s)) = false
  /\ lit "Missing required header: Result"
     ∈ errors (validatePGN toLowerCase (VString s)).
Proof.
  intros Ht Hc. rewrite validatePGN_string by done. cbn [valid errors].
  assert (has_header (extractHeaders (trim s)) (lit "Result") = false) as Hr.
  { unfold has_header, extractHeaders. rewrite fold_other; [done|].
    intros l v Hl E. apply Hc.
    destruct (trim_split s) as (x & y & Hs & _). rewrite Hs.
    apply contains_header_infix.
    pose proof (split_elem_LF _ _ Hl) as HLF.
    apply split_elem in Hl as (pre & post & -> & _).
    apply contains_header_infix. by apply match_header_contains with v. }
  assert (lit "Missing required header: Result"
          ∈ missing_headers (extractHeaders (trim s))) as Hin.
  { unfold missing_headers, REQUIRED_HEADERS. cbn [flat_map].
    rewrite Hr. rewrite !elem_of_app. do 5 right. left. by left. }
  split; [|done].
  destruct (missing_headers (extractHeaders (trim s))); [|done].
  by apply elem_of_nil in Hin.
Qed.

(** C3 as stated fails.  On the empty record validatePGN stops at its
    first guard: the only error does not name the Result header.  And a
    Result header is looked for on every line of the text, not in the
    header section only: a record whose header section has no Result
    header, but whose move text quotes one in a comment, is valid. *)
Lemma validatePGN_missing_result_counterexample :
  (forallb (fun l => negb (occurs_in (lit "Result") l)) (header_section []) = true
   /\ forallb (fun e => negb (occurs_in (lit "Result") e))
        (errors (validatePGN ascii_toLowerCase (VString []))) = true)
  /\ (forallb (fun l => negb (occurs_in (lit "Result") l))
        (header_section stray_result_record) = true
      /\ valid (validatePGN ascii_toLowerCase (VString stray_result_record)) = true).
Proof. vm_compute. done. Qed.


(** *** The theorems at example records *)

Example validatePGN_odd_result :
  validatePGN ascii_toLowerCase (VString odd_result_record)
  = Validation true []
      [ lit "Unusual result format: ??";
        lit "No Variant header found (should be " ++ [QUOTE] ++ lit "atomic"
        ++ [QUOTE] ++ lit " for atomic chess)" ].
Proof. vm_compute. reflexivity. Qed.

Lemma occurs_in_app w a r : occurs_in w (a ++ w ++ r) = true.
Proof.
  induction a as [|c a IH].
  - assert (starts_with w (w ++ r) = true) as H.
    { induction w as [|d w IHw]; [done|]. simpl. by rewrite N.eqb_refl. }
    cbn [app]. destruct (w ++ r); simpl; simpl in H; by rewrite H.
  - cbn [app occurs_in]. rewrite IH. apply orb_true_r.
Qed.

Lemma contains_header_occurs K s :
  contains_header K s -> occurs_in (cu "[" :: K) s = true.
Proof.
  intros (a & ws & v & b & _ & ->). unfold header_line.
  change (cu "[" :: K ++ ws ++ QUOTE :: v ++ [QUOTE; cu "]"])
    with ((cu "[" :: K) ++ ws ++ QUOTE :: v ++ [QUOTE; cu "]"]).
  rewrite <- app_assoc. apply occurs_in_app.
Qed.

Lemma example_shape value :
  value <> [] -> QUOTE ∉ value -> LF ∉ value -> header_shape (lit " ") value.
Proof.
  intros H1 H2 H3. split; try done.
  - by repeat constructor.
  - apply (bool_decide_unpack _). by vm_compute.
Qed.

Ltac example_header v :=
  exists (lit v), (lit " "%string); split;
  [ apply example_shape; [done | |]; apply (bool_decide_unpack _); by vm_compute
  | apply (bool_decide_unpack _); by vm_compute ].

Lemma complete_record_headers K :
  K ∈ REQUIRED_HEADERS -> exists v, has_header_line K v complete_record.
Proof.
  unfold REQUIRED_HEADERS. rewrite !elem_of_cons, elem_of_nil.
  intros [->|[->|[->|[->|[->|[->|[]]]]]]].
  - example_header ("Live Chess"%string).
  - example_header ("Chess.com"%string).
  - example_header ("2024.01.01"%string).
  - example_header ("alice"%string).
  - example_header ("bob"%string).
  - example_header ("1-0"%string).
Defined.

Lemma odd_result_record_headers K :
  K ∈ REQUIRED_HEADERS -> exists v, has_header_line K v odd_result_record.
Proof.
  unfold REQUIRED_HEADERS. rewrite !elem_of_cons, elem_of_nil.
  intros [->|[->|[->|[->|[->|[->|[]]]]]]].
  - example_header ("Live Chess"%string).
  - example_header ("Chess.com"%string).
  - example_header ("2024.01.01"%string).
  - example_header ("alice"%string).
  - example_header ("bob"%string).
  - example_header ("??"%string).
Defined.

Lemma complete_record_move : contains_move complete_record.
Proof.
  exists (five_headers ++ header "Result" "1-0" ++ [LF]),
    (lit "1"), (lit " "), (cu "e"), (lit "4 e5").
  split; [by vm_compute|]. split; [done|].
  split; [by repeat constructor|]. split; [by repeat constructor | done].
Defined.

Lemma validatePGN_complete_record_witness :
  valid (validatePGN ascii_toLowerCase (VString complete_record)) = true
  /\ errors (validatePGN ascii_toLowerCase (VString complete_record)) = []
  /\ lit "No moves found in PGN"
     ∉ warnings (validatePGN ascii_toLowerCase (VString complete_record)).
Proof.
  apply (validatePGN_complete_record ascii_toLowerCase complete_record).
  - exact complete_record_headers.
  - exact complete_record_move.
Defined.

Lemma validatePGN_missing_result_witness :
  trim five_headers <> []
  /\ ~ contains_header (lit "Result") five_headers
  /\ valid (validatePGN ascii_toLowerCase (VString five_headers)) = false
  /\ lit "Missing required header: Result"
     ∈ errors (validatePGN ascii_toLowerCase (VString five_headers)).
Proof.
  assert (trim five_headers <> []) as H1 by (by vm_compute).
  assert (~ contains_header (lit "Result") five_headers) as H2.
  { intros H%contains_header_occurs. by vm_compute in H. }
  split; [exact H1|]. split; [exact H2|].
  exact (validatePGN_missing_result ascii_toLowerCase five_headers H1 H2).
Defined.


End ValidateFacts.

(** ** The element-wait utility *)

Module DomUtilsFacts.
Import Js Script DomUtils.

Section Wait.
Context {element selector : Type}.
Implicit Types (root : selector -> option element) (sels : list selector).

(** The loop stops at the first selector that finds an element. *)
Lemma find_first_Some root sels sel e :
  find_first root sels = Some (sel, e) ->
  exists pre post,
    sels = pre ++ sel :: post
    /\ (forall s', s' ∈ pre -> root s' = None)
    /\ root sel = Some e.
Proof.
  induction sels as [|s0 sels IH]; simpl; [done|].
  destruct (root s0) as [e0|] eqn:E0.
  - intros [= <- <-]. exists [], sels. split; [done|]. split; [|done].
    intros s' H. by apply elem_of_nil in H.
  - intros H. apply IH in H as (pre & post & -> & Hpre & Hsel).
    exists (s0 :: pre), post. split; [done|]. split; [|done].
    intros s' [->|H]%elem_of_cons; [done | by apply Hpre].
Qed.

Lemma find_first_is_Some root sels sel :
  sel ∈ sels -> is_Some (root sel) -> is_Some (find_first root sels).
Proof.
  induction sels as [|s0 sels IH]; intros Hin Hs; [by apply elem_of_nil in Hin|].
  simpl. destruct (root s0) as [e0|] eqn:E0; [by eexists|].
  apply elem_of_cons in Hin as [->|Hin].
  - rewrite E0 in Hs. by destruct Hs.
  - by apply IH.
Qed.

End Wait.


End DomUtilsFacts.

(** ** The destination-page agent *)

Module LichessFacts.
Import Js Script Constants Page Lichess.

Ltac find_elem :=
  repeat first [ apply list_elem_of_here | apply list_elem_of_further ].

Ltac run_script :=
  unfold mbind, mret, prog_bind, prog_ret, bind, ret, emit, throw, try_catch,
    get, put, updateNotification, showLoading, showError, showNotification;
  cbn beta iota zeta.

(** pastePGN with an empty clipboard. *)
Lemma pastePGN_empty w ta p :
  empty_clipboard w ->
  pastePGN w ta p
  = (p, [Log debug [Txt (lit "Reading from clipboard...")]; ReadClipboard; empty_log],
     Thrown (new_Error CLIPBOARD_READ_DENIED)).
Proof.
  intros (text & Hc & Ht). unfold pastePGN. rewrite Hc. run_script.
  rewrite Ht. cbn [length Nat.eqb orb]. rewrite orb_true_r. reflexivity.
Qed.

(** pastePGN when reading the clipboard is not allowed. *)
Lemma pastePGN_denied w ta p e :
  clipboard w = inr e -> err_name e = lit "NotAllowedError" ->
  pastePGN w ta p
  = (p, [Log debug [Txt (lit "Reading from clipboard...")]; ReadClipboard; denied_log],
     Thrown (new_Error CLIPBOARD_READ_DENIED)).
Proof.
  intros Hc Hn. unfold pastePGN. rewrite Hc. run_script. rewrite Hn. reflexivity.
Qed.

(** C7.  On the paste route, at the first run, with an empty clipboard
    (no text, or white space only): an error notification is shown and the
    submit path is never entered; when the textarea was found, the
    clipboard is read and the notification carries the message of the
    failed clipboard read. *)
Theorem empty_clipboard_not_submitted (w : world) (p : page) :
  pathname w = lit "/paste" -> hasRun p = false -> empty_clipboard w ->
  existsb is_error_notification (trace (initializeLichessPaste w p)) = true
  /\ existsb is_submit (trace (initializeLichessPaste w p)) = false
  /\ (is_Some (textarea w) ->
      ReadClipboard ∈ trace (initializeLichessPaste w p)
      /\ UpdateNotification (S (notificationCounter p)) CLIPBOARD_READ_DENIED
           "error" (Some 8000)
         ∈ trace (initializeLichessPaste w p)).
Proof.
  intros Hpath Hrun Hclip.
  unfold initializeLichessPaste. run_script. rewrite Hpath, Hrun.
  cbn [negb]. change (str_eqb (lit "/paste") (lit "/paste")) with true.
  cbn [negb]. unfold waitForTextarea. run_script.
  destruct (textarea w) as [ta|] eqn:Eta.
  - rewrite (pastePGN_empty w ta _ Hclip). unfold trace. cbn [fst snd app].
    split; [reflexivity|]. split; [reflexivity|]. intros _. split; find_elem.
  - unfold trace. cbn [fst snd app].
    split; [reflexivity|]. split; [reflexivity|]. by intros [? ?].
Qed.

(** C8, as the code has it.  The clipboard read fails with the same
    error, the one with the message CLIPBOARD_READ_DENIED, when the
    permission is denied and when the clipboard is empty; what differs is
    the line written to the log. *)
Theorem pastePGN_failures (w : world) (ta : nat) (p : page) :
  (forall e, clipboard w = inr e -> err_name e = lit "NotAllowedError" ->
             result (pastePGN w ta p) = Thrown (new_Error CLIPBOARD_READ_DENIED)
             /\ denied_log ∈ trace (pastePGN w ta p)
             /\ empty_log ∉ trace (pastePGN w ta p))
  /\ (empty_clipboard w ->
      result (pastePGN w ta p) = Thrown (new_Error CLIPBOARD_READ_DENIED)
      /\ empty_log ∈ trace (pastePGN w ta p)
      /\ denied_log ∉ trace (pastePGN w ta p)).
Proof.
  split.
  - intros e Hc Hn. rewrite (pastePGN_denied w ta p e Hc Hn).
    unfold trace, result. cbn [fst snd].
    split; [done|]. split; [find_elem|].
    rewrite !not_elem_of_cons. repeat split; try done. apply not_elem_of_nil.
  - intros H. rewrite (pastePGN_empty w ta p H).
    unfold trace, result. cbn [fst snd].
    split; [done|]. split; [find_elem|].
    rewrite !not_elem_of_cons. repeat split; try done. apply not_elem_of_nil.
Qed.

(** C8 as stated fails: the error thrown for a denied permission and the
    error thrown for an empty clipboard are the same. *)
Lemma pastePGN_same_error_counterexample :
  result (pastePGN denied_world 1%nat fresh_page)
  = result (pastePGN empty_world 1%nat fresh_page).
Proof. reflexivity. Qed.

Lemma empty_world_empty : empty_clipboard empty_world.
Proof. exists []. by split. Defined.

Lemma empty_clipboard_not_submitted_witness :
  existsb is_error_notification (trace (initializeLichessPaste empty_world fresh_page))
  = true
  /\ existsb is_submit (trace (initializeLichessPaste empty_world fresh_page)) = false
  /\ (is_Some (textarea empty_world) ->
      ReadClipboard ∈ trace (initializeLichessPaste empty_world fresh_page)
      /\ UpdateNotification (S (notificationCounter fresh_page)) CLIPBOARD_READ_DENIED
           "error" (Some 8000)
         ∈ trace (initializeLichessPaste empty_world fresh_page)).
Proof.
  apply (empty_clipboard_not_submitted empty_world fresh_page).
  - reflexivity.
  - reflexivity.
  - exact empty_world_empty.
Defined.

Lemma pastePGN_failures_witness :
  (result (pastePGN denied_world 1%nat fresh_page)
   = Thrown (new_Error CLIPBOARD_READ_DENIED)
   /\ denied_log ∈ trace (pastePGN denied_world 1%nat fresh_page)
   /\ empty_log ∉ trace (pastePGN denied_world 1%nat fresh_page))
  /\ (result (pastePGN empty_world 1%nat fresh_page)
      = Thrown (new_Error CLIPBOARD_READ_DENIED)
      /\ empty_log ∈ trace (pastePGN empty_world 1%nat fresh_page)
      /\ denied_log ∉ trace (pastePGN empty_world 1%nat fresh_page)).
Proof.
  split.
  - apply (proj1 (pastePGN_failures denied_world 1%nat fresh_page) NotAllowedError);
      reflexivity.
  - apply (proj2 (pastePGN_failures empty_world 1%nat fresh_page)).
    exact empty_world_empty.
Defined.

End LichessFacts.

(** ** The source-page agent *)

Module ChessComFacts.
Import Js Script Constants Page ChessCom.

Ltac run_script :=
  unfold mbind, mret, prog_bind, prog_ret, bind, ret, emit, throw, try_catch,
    get, put;
  cbn beta iota zeta.

(** C9.  While the in-progress flag is set, handleButtonClick only
    writes a line to the log: the module variables, the state of the button
    among them, stay as they are, no record is extracted, the clipboard is
    not written and no tab is opened.  The same holds for the two events of
    an activation, the click (which restarts the timer of the debounced
    handler) and the firing of that timer. *)
Theorem activation_while_processing (w : world) (a : agent) :
  isProcessing a = true ->
  handleButtonClick w a
  = (a, [Log debug [Txt (lit "Already processing, ignoring click")]], Ok tt)
  /\ forall ev, ev <> ResetFires ->
       existsb is_transfer (trace (step w ev a)) = false
       /\ isProcessing (final (step w ev a)) = true
       /\ sendButton (final (step w ev a)) = sendButton a.
Proof.
  intros H.
  assert (forall a', isProcessing a' = true ->
            handleButtonClick w a'
            = (a', [Log debug [Txt (lit "Already processing, ignoring click")]], Ok tt))
    as Hh.
  { intros a' H'. unfold handleButtonClick. run_script. by rewrite H'. }
  split; [by apply Hh|].
  intros [| |] Hev; [| |done].
  - unfold step. run_script. by destruct a.
  - unfold step. run_script. rewrite Hh by (by destruct a). by destruct a.
Qed.

Lemma activation_while_processing_witness :
  handleButtonClick busy_world busy_agent
  = (busy_agent, [Log debug [Txt (lit "Already processing, ignoring click")]], Ok tt)
  /\ forall ev, ev <> ResetFires ->
       existsb is_transfer (trace (step busy_world ev busy_agent)) = false
       /\ isProcessing (final (step busy_world ev busy_agent)) = true
       /\ sendButton (final (step busy_world ev busy_agent)) = sendButton busy_agent.
Proof. apply (activation_while_processing busy_world busy_agent). reflexivity. Defined.

(** An activation of the idle agent runs the transfer, for comparison. *)
Example idle_activation_transfers :
  existsb is_transfer (trace (handleButtonClick busy_world idle_agent)) = true
  /\ isProcessing (final (handleButtonClick busy_world idle_agent)) = true
  /\ sendButton (final (handleButtonClick busy_world idle_agent)) = Some "success"%string.
Proof. vm_compute. done. Qed.

End ChessComFacts.

(** ** More about the sanitizer *)

Module SanitizeMore.
Import Js Regex Pgn PgnSpec RegexFacts SanitizeFacts.

(** X1.  No markup is left in what sanitizePGN returns: behind a [<] of
    the result there is no [>] any more. *)
Theorem sanitizePGN_no_markup (x y a b : jsstring) :
  sanitizePGN (VString x) = Normal (VString y) ->
  y = a ++ LT :: b ->
  GT ∉ b.
Proof.
  rewrite sanitizePGN_string. intros [= <-] Hy.
  pose proof (sanitize_string_no_tag x) as H. rewrite Hy in H.
  by apply (no_tag_suffix a b b H).
Qed.

Lemma sanitizePGN_no_markup_witness :
  sanitizePGN (VString (lit "<b>x</b> < y")) = Normal (VString (lit "x < y"))
  /\ (GT ∉ lit " y").
Proof.
  assert (sanitizePGN (VString (lit "<b>x</b> < y")) = Normal (VString (lit "x < y")))
    as H by (by vm_compute).
  split; [exact H|].
  exact (sanitizePGN_no_markup (lit "<b>x</b> < y") (lit "x < y") (lit "x ") (lit " y")
           H eq_refl).
Defined.

(** X2.  The replacement of script blocks never changes anything: once
    the tags are removed no script block is left to match, so sanitizePGN
    is the chain of its other replacements (the text between the two tags
    of a script block stays in the result). *)
Theorem sanitizePGN_script_pass_idle (x : jsstring) :
  sanitizePGN (VString x)
  = Normal (VString
              (trim (replace_all false BLANK_RUN [LF; LF]
                       (replace_all false LONE_CR [LF]
                          (replace_all false CRLF [LF]
                             (replace_all false HTML_TAG [] x)))))).
Proof.
  rewrite sanitizePGN_string. unfold sanitize_string.
  by rewrite strip_markup_tags.
Qed.

Lemma no_lt_no_tag s : LT ∉ s -> no_tag s.
Proof.
  intros H Hs. apply H. eapply elem_of_sublist; [|exact Hs]. by left.
Qed.

Lemma no_blank_run_occurs s : occurs_in [LF; LF; LF] s = false -> no_blank_run s.
Proof.
  intros H a b ->.
  change (a ++ LF :: LF :: LF :: b) with (a ++ [LF; LF; LF] ++ b) in H.
  by rewrite ValidateFacts.occurs_in_app in H.
Qed.

(** X3.  A clean text is not altered: a text without markup (no [<]
    with a [>] behind it), without CR, without three newlines in a row and
    without white space at its ends comes back as it is. *)
Theorem sanitizePGN_clean_text (x : jsstring) :
  no_tag x -> CR ∉ x -> no_blank_run x -> trimmed x ->
  sanitizePGN (VString x) = Normal (VString x).
Proof.
  intros H1 H2 H3 H4. rewrite sanitizePGN_string.
  by rewrite sanitize_string_fixed.
Qed.

Lemma sanitizePGN_clean_text_witness :
  sanitizePGN (VString complete_record) = Normal (VString complete_record).
Proof.
  apply (sanitizePGN_clean_text complete_record).
  - apply no_lt_no_tag. apply (bool_decide_unpack _). by vm_compute.
  - apply (bool_decide_unpack _). by vm_compute.
  - apply no_blank_run_occurs. by vm_compute.
  - split; [by vm_compute|]. exists (cu "5"). split; by vm_compute.
Defined.

Lemma replace_from_length ci r s :
  forall prev skip, (length (replace_from ci r [] prev s skip) <= length s)%nat.
Proof. intros. apply sublist_length, replace_from_sublist. Qed.

(** X4.  sanitizePGN never makes a text longer. *)
Theorem sanitizePGN_length (x y : jsstring) :
  sanitizePGN (VString x) = Normal (VString y) ->
  (length y <= length x)%nat.
Proof.
  rewrite sanitizePGN_string. intros [= <-].
  rewrite sanitize_string_spec, <- cr_crlf_normalize.
  etrans; [apply sublist_length, trim_sublist|].
  etrans; [apply sublist_length, collapse_runs_sublist0|].
  unfold cr_to_lf. rewrite length_map.
  etrans; [apply sublist_length, crlf_to_lf_sublist|].
  rewrite strip_markup_tags. apply replace_from_length.
Qed.

Lemma sanitizePGN_length_witness :
  sanitizePGN (VString (lit "<b>x</b> < y")) = Normal (VString (lit "x < y"))
  /\ (length (lit "x < y") <= length (lit "<b>x</b> < y"))%nat.
Proof.
  assert (sanitizePGN (VString (lit "<b>x</b> < y")) = Normal (VString (lit "x < y")))
    as H by (by vm_compute).
  split; [exact H|].
  exact (sanitizePGN_length (lit "<b>x</b> < y") (lit "x < y") H).
Defined.

End SanitizeMore.

(** ** More about the validator *)

Module ValidateMore.
Import Js Regex Pgn PgnSpec PgnMore RegexFacts SanitizeFacts ValidateFacts.

(** The flag agrees with the list: validatePGN returns valid = true
    exactly when it returns no error, whatever value it is given. *)
Lemma validatePGN_valid_iff_no_error
  (toLowerCase : jsstring -> jsstring) (pgn : value) :
  valid (validatePGN toLowerCase pgn) = true
  <-> errors (validatePGN toLowerCase pgn) = [].
Proof.
  destruct pgn as [| |b|z| |s|i|i|i];
    try (unfold validatePGN; cbn; split; intros; discriminate).
  - unfold validatePGN. cbn. destruct b; split; intros; discriminate.
  - unfold validatePGN. cbn. destruct (Z.eqb z 0); split; intros; discriminate.
  - destruct (decide (trim s = [])) as [E|E].
    + unfold validatePGN. destruct s as [|c t]; [split; intros; discriminate|].
      cbn [truthy typeof type_tag_eqb negb orb]. rewrite E. cbn.
      split; intros; discriminate.
    + rewrite validatePGN_string by done. cbn [valid errors].
      destruct (missing_headers _); split; intros; done.
Qed.

(** X5.  The guards: for a value that is not a string, for the empty
    string and for a string of white space only, validatePGN returns
    valid = false with one error, about the empty record, and without
    warnings; no header is looked for. *)
Theorem validatePGN_blank
  (toLowerCase : jsstring -> jsstring) (pgn : value) :
  (forall s, pgn = VString s -> trim s = []) ->
  validatePGN toLowerCase pgn
  = Validation false
      [match pgn with
       | VString (_ :: _) => lit "PGN is empty"
       | _ => lit "PGN is empty or invalid type"
       end] [].
Proof.
  intros H. destruct pgn as [| |b|z| |s|i|i|i]; try reflexivity.
  - unfold validatePGN. cbn. by destruct b.
  - unfold validatePGN. cbn. by destruct (Z.eqb z 0).
  - specialize (H s eq_refl). destruct s as [|c t]; [reflexivity|].
    unfold validatePGN. cbn [truthy typeof type_tag_eqb negb orb].
    by rewrite H.
Qed.

Lemma validatePGN_blank_witness :
  validatePGN ascii_toLowerCase (VString (lit "  "))
  = Validation false [lit "PGN is empty"] [].
Proof.
  apply (validatePGN_blank ascii_toLowerCase (VString (lit "  "))).
  intros s [= <-]. by vm_compute.
Defined.

Lemma missing_headers_elem h msg :
  msg ∈ missing_headers h ->
  exists K, K ∈ REQUIRED_HEADERS /\ has_header h K = false
            /\ msg = lit "Missing required header: " ++ K.
Proof.
  unfold missing_headers. generalize REQUIRED_HEADERS as ks.
  induction ks as [|k ks IH]; simpl; [by intros ?%elem_of_nil|].
  intros [H|H]%elem_of_app.
  - destruct (has_header h k) eqn:E; [by apply elem_of_nil in H|].
    apply list_elem_of_singleton in H as ->. exists k. split; [by left|done].
  - destruct (IH H) as (K & HK & Hh & ->). exists K. split; [by right|done].
Qed.

Lemma missing_headers_intro h K :
  K ∈ REQUIRED_HEADERS -> has_header h K = false ->
  (lit "Missing required header: " ++ K) ∈ missing_headers h.
Proof.
  unfold missing_headers. generalize REQUIRED_HEADERS as ks.
  induction ks as [|k ks IH]; [by intros ?%elem_of_nil|].
  intros [->|HK]%elem_of_cons Hh; simpl; apply elem_of_app.
  - left. rewrite Hh. by left.
  - right. by apply IH.
Qed.

Lemma no_header_anywhere K s :
  ~ contains_header K s -> obj_get (extractHeaders (trim s)) K = None.
Proof.
  intros Hc. unfold extractHeaders. rewrite fold_other; [done|].
  intros l v Hl E. apply Hc.
  destruct (trim_split s) as (x & y & Hs & _). rewrite Hs.
  apply contains_header_infix.
  pose proof (split_elem_LF _ _ Hl) as HLF.
  apply split_elem in Hl as (pre & post & -> & _).
  apply contains_header_infix. by apply match_header_contains with v.
Qed.

(** X6.  The errors name the missing headers, one by one: for a record
    that is not blank and each of the six required keys, the error
    'Missing required header: Key' is in the list when the text holds no
    header of that key anywhere, and it is not when the record has a
    header line of that key. *)
Theorem validatePGN_names_missing
  (toLowerCase : jsstring -> jsstring) (s K : jsstring) :
  trim s <> [] -> K ∈ REQUIRED_HEADERS ->
  (~ contains_header K s ->
   valid (validatePGN toLowerCase (VString s)) = false
   /\ (lit "Missing required header: " ++ K)
      ∈ errors (validatePGN toLowerCase (VString s)))
  /\ (forall v, has_header_line K v s ->
      (lit "Missing required header: " ++ K)
      ∉ errors (validatePGN toLowerCase (VString s))).
Proof.
  intros Ht HK. rewrite validatePGN_string by done. cbn [valid errors]. split.
  - intros Hc.
    assert ((lit "Missing required header: " ++ K)
            ∈ missing_headers (extractHeaders (trim s))) as Hin.
    { apply missing_headers_intro; [done|]. unfold has_header.
      by rewrite no_header_anywhere. }
    split; [|done]. destruct (missing_headers _); [|done].
    by apply elem_of_nil in Hin.
  - intros v Hv Hin. apply missing_headers_elem in Hin as (K' & _ & Hh & E).
    apply app_inv_head in E. subst K'.
    destruct (has_header_line_found K v s HK Hv) as [_ Hf]. congruence.
Qed.

Lemma validatePGN_names_missing_witness :
  (~ contains_header (lit "Result") five_headers ->
   valid (validatePGN ascii_toLowerCase (VString five_headers)) = false
   /\ (lit "Missing required header: " ++ lit "Result")
      ∈ errors (validatePGN ascii_toLowerCase (VString five_headers)))
  /\ (forall v, has_header_line (lit "Result") v five_headers ->
      (lit "Missing required header: " ++ lit "Result")
      ∉ errors (validatePGN ascii_toLowerCase (VString five_headers))).
Proof.
  apply (validatePGN_names_missing ascii_toLowerCase five_headers (lit "Result")).
  - by vm_compute.
  - do 5 right. left.
Defined.

(** *** extractHeaders *)

Lemma fold_add_header_sound (Q : jsstring -> jsstring -> Prop) lines :
  forall h,
    (forall K v, obj_get h K = Some v -> Q K v) ->
    (forall l K v, l ∈ lines -> match_header l = Some (K, v) -> Q K v) ->
    forall K v, obj_get (fold_left add_header lines h) K = Some v -> Q K v.
Proof.
  induction lines as [|l lines IH]; intros h Hh Hl K v; [apply Hh|].
  simpl. apply IH.
  - intros K' v'. unfold add_header.
    destruct (match_header l) as [[k w]|] eqn:E; [|apply Hh].
    unfold obj_set, str_eqb. case_bool_decide; [apply Hh|].
    unfold obj_get. destruct (decide (k = K')) as [->|Hne].
    + rewrite lookup_insert_eq. intros [= <-]. eapply Hl; [by left | done].
    + rewrite lookup_insert_ne by done. apply Hh.
  - intros l' K' v' Hin. apply Hl. by right.
Qed.

(** X7.  What extractHeaders returns is in the text: a key it maps to a
    value is a non-empty word, the value is not empty, and the text holds
    the header [[key "value"]] on one of its lines. *)
Theorem extractHeaders_sound (s K v : jsstring) :
  obj_get (extractHeaders s) K = Some v ->
  K <> [] /\ Forall (fun c => in_ranges WORD c = true) K
  /\ exists a ws b, header_shape ws v /\ s = a ++ header_line K ws v ++ b.
Proof.
  unfold extractHeaders.
  apply (fold_add_header_sound
           (fun K v => K <> [] /\ Forall (fun c => in_ranges WORD c = true) K
                       /\ exists a ws b, header_shape ws v
                                         /\ s = a ++ header_line K ws v ++ b)).
  - intros K' v'. unfold obj_get. by rewrite lookup_empty.
  - intros l K' v' Hl E.
    pose proof (split_elem_LF _ _ Hl) as HLF.
    destruct (match_header_contains l K' v' HLF E) as (a0 & ws0 & v0 & b0 & _ & _).
    apply match_header_Some in E as (a & ws & b & -> & Hk & Fk & Hw & Fw & Hv & Hq).
    split; [done|]. split; [done|].
    apply split_elem in Hl as (pre & post & -> & _).
    exists (pre ++ a), ws, (b ++ post). split.
    + rewrite header_line_app in HLF.
      split; try done; intros H; apply HLF; set_solver.
    + by rewrite <- !app_assoc.
Qed.

Lemma extractHeaders_sound_witness :
  lit "Event" <> [] /\ Forall (fun c => in_ranges WORD c = true) (lit "Event")
  /\ exists a ws b, header_shape ws (lit "Live Chess")
                    /\ complete_record
                       = a ++ header_line (lit "Event") ws (lit "Live Chess") ++ b.
Proof.
  apply (extractHeaders_sound complete_record (lit "Event") (lit "Live Chess")).
  by vm_compute.
Defined.

Lemma word_not_LF c : in_ranges WORD c = true -> c <> LF.
Proof. intros H ->. by vm_compute in H. Qed.

Lemma header_line_no_LF K ws v :
  Forall (fun c => in_ranges WORD c = true) K -> header_shape ws v ->
  LF ∉ header_line K ws v.
Proof.
  intros HK [_ _ H1 _ _ H2]. unfold header_line.
  rewrite not_elem_of_cons, !not_elem_of_app, not_elem_of_cons, not_elem_of_app.
  repeat split; try done.
  - intros Hin. rewrite Forall_forall in HK. by apply HK, word_not_LF in Hin.
  - by repeat (apply not_elem_of_cons; split; [done|]); apply not_elem_of_nil.
Qed.

(** X8.  The last header wins: when a line of the text is the header
    [[key "value"]] and no header of that key stands behind it,
    extractHeaders maps the key to that value, whatever stands before
    it. *)
Theorem extractHeaders_last (pre K ws v post : jsstring) :
  K <> [] -> Forall (fun c => in_ranges WORD c = true) K ->
  K <> lit "__proto__" ->
  header_shape ws v -> ends_line pre -> starts_line post ->
  ~ contains_header K post ->
  obj_get (extractHeaders (pre ++ header_line K ws v ++ post)) K = Some v.
Proof.
  intros HK1 HK2 HK3 Hshape Hpre Hpost Hlast.
  pose proof (header_line_no_LF K ws v HK2 Hshape) as HLF.
  destruct (split_around pre _ post HLF Hpre Hpost) as (l1 & l2 & E & Hl2).
  unfold extractHeaders. rewrite E, fold_left_app. cbn [fold_left].
  rewrite fold_other.
  - apply add_header_sets; [|done]. by apply match_header_line.
  - intros l v' Hl Em. apply Hlast.
    assert (LF ∉ l) as HLFl.
    { assert (l ∈ split LF (pre ++ header_line K ws v ++ post)) as Hin.
      { rewrite E. apply elem_of_app. right. by right. }
      by apply split_elem_LF in Hin. }
    destruct (Hl2 l Hl) as (x & z & ->).
    apply contains_header_infix. by apply match_header_contains with v'.
Qed.

Lemma extractHeaders_last_witness :
  obj_get (extractHeaders
             (header "White" "alice"
              ++ header_line (lit "White") (lit " ") (lit "carol") ++ []))
    (lit "White")
  = Some (lit "carol").
Proof.
  apply (extractHeaders_last (header "White" "alice") (lit "White") (lit " ")
           (lit "carol") []).
  - done.
  - by repeat constructor.
  - done.
  - apply example_shape; [done | |]; apply (bool_decide_unpack _); by vm_compute.
  - right. exists (header_line (lit "White") (lit " ") (lit "alice")). reflexivity.
  - by left.
  - intros H%contains_header_occurs. by vm_compute in H.
Defined.

(** *** checkForMoves *)

Lemma den_cls_inv ci inv rs s s' :
  den ci (Cls inv rs) s s' ->
  exists x, m_rest s = x :: m_rest s' /\ cls_match ci inv rs x = true.
Proof. intros H. inversion H; subst. simpl. eauto. Qed.

Lemma den_movePattern s st :
  den false movePattern s st ->
  exists ds ws c,
    m_rest s = move_token ds ws c ++ m_rest st
    /\ ds <> [] /\ Forall (fun d => in_ranges DIGIT d = true) ds
    /\ Forall (fun d => is_ws d = true) ws
    /\ in_ranges LETTER c = true.
Proof.
  unfold movePattern. intros H.
  apply den_seq_inv in H as (s1 & H1 & H).
  apply den_seq_inv in H as (s2 & H2 & H).
  apply den_seq_inv in H as (s3 & H3 & H4).
  apply den_plus_cls in H1 as (d & ds & R1 & F1 & _).
  apply den_chr_inv in H2 as (x & R2 & M2 & _).
  apply den_star_cls in H3 as (ws & R3 & F3 & _).
  apply den_cls_inv in H4 as (c & R4 & M4).
  rewrite chr_match_false in M2. apply N.eqb_eq in M2. subst x.
  rewrite cls_plain in M4.
  exists (d :: ds), ws, c. split; [|split; [done|split; [|split; [|done]]]].
  - unfold move_token. rewrite R1, R2, R3, R4. cbn [app].
    rewrite <- !app_assoc. cbn [app]. by rewrite <- app_assoc.
  - eapply Forall_impl; [exact F1|]. intros e He. cbv beta in He.
    by rewrite cls_plain in He.
  - eapply Forall_impl; [exact F3|]. intros e He. cbv beta in He.
    by rewrite cls_plain in He.
Qed.

(** X9.  checkForMoves finds move tokens and nothing else: it is true
    exactly for a text that holds, somewhere, a run of digits, a dot,
    white space or none, and a letter. *)
Theorem checkForMoves_iff (s : jsstring) :
  checkForMoves s = true <-> contains_move s.
Proof.
  unfold checkForMoves, test, exec. split.
  - destruct (search false movePattern None s) as [st|] eqn:E; [|done].
    intros _. apply search_sound in E as (a & b & -> & E).
    apply match_here_sound, den_movePattern in E
      as (ds & ws & c & R & Hne & Hd & Hw & Hc).
    cbn [m_rest] in R. exists a, ds, ws, c, (m_rest st). by rewrite R.
  - intros (a & ds & ws & c & b & -> & Hne & Hd & Hw & Hc).
    destruct (search_complete false movePattern a None
                (move_token ds ws c ++ b)) as [st ->]; [|done].
    by apply match_here_move.
Qed.

(** *** getPGNInfo and isAtomicPGN *)

Lemma fold_no_match lines :
  forall h, (forall l, l ∈ lines -> match_header l = None) ->
            fold_left add_header lines h = h.
Proof.
  induction lines as [|l lines IH]; intros h H; [done|].
  simpl. unfold add_header at 2. rewrite (H l) by (by left).
  apply IH. intros l' Hl'. apply H. by right.
Qed.

Lemma no_bracket_no_headers s : cu "[" ∉ s -> extractHeaders s = ∅.
Proof.
  intros H. unfold extractHeaders. apply fold_no_match. intros l Hl.
  destruct (match_header l) as [[K v]|] eqn:E; [|done]. exfalso. apply H.
  apply match_header_Some in E as (a & ws & b & -> & _).
  apply split_elem in Hl as (pre & post & -> & _).
  rewrite header_line_app. set_solver.
Qed.

(** X10.  Without headers getPGNInfo answers with its fallbacks: for a
    text without an opening bracket every name is 'Unknown', the result
    is '*', the variant is 'Standard' and the number of headers is 0. *)
Theorem getPGNInfo_no_headers (s : jsstring) :
  cu "[" ∉ s ->
  getPGNInfo s
  = PgnInfo (lit "Unknown") (lit "Unknown") (lit "*") (lit "Unknown")
      (lit "Standard") (lit "Unknown") (checkForMoves s) 0.
Proof.
  intros H. unfold getPGNInfo. rewrite (no_bracket_no_headers s H).
  reflexivity.
Qed.

Lemma getPGNInfo_no_headers_witness :
  getPGNInfo (lit "1. e4 e5")
  = PgnInfo (lit "Unknown") (lit "Unknown") (lit "*") (lit "Unknown")
      (lit "Standard") (lit "Unknown") (checkForMoves (lit "1. e4 e5")) 0.
Proof.
  apply (getPGNInfo_no_headers (lit "1. e4 e5")).
  apply (bool_decide_unpack _). by vm_compute.
Defined.

Lemma str_includes_refl w : str_includes w w = true.
Proof.
  assert (startsWith w w = true) as H.
  { induction w as [|c w IH]; [done|]. simpl. by rewrite N.eqb_refl. }
  destruct w; simpl in *; [done|]. by rewrite H.
Qed.

(** X11.  The two tests of the variant agree on a record that passes
    without warnings: when validatePGN has no warning for a record that is
    not blank, isAtomicPGN is true for the trimmed record. *)
Theorem no_warning_is_atomic
  (toLowerCase : jsstring -> jsstring) (s : jsstring) :
  trim s <> [] ->
  warnings (validatePGN toLowerCase (VString s)) = [] ->
  isAtomicPGN toLowerCase (trim s) = true.
Proof.
  intros Ht. rewrite validatePGN_string by done. cbn [warnings].
  intros H. apply app_eq_nil in H as [_ H]. apply app_eq_nil in H as [_ H].
  unfold variant_warning in H. unfold isAtomicPGN, header_or.
  destruct (obj_get (extractHeaders (trim s)) (lit "Variant")) as [[|c r]|];
    [done| |done].
  unfold str_eqb in H. case_bool_decide as E; [|done].
  rewrite E. apply str_includes_refl.
Qed.

Lemma no_warning_is_atomic_witness :
  trim MovesSpec.atomic_record <> []
  /\ warnings (validatePGN ascii_toLowerCase (VString MovesSpec.atomic_record)) = []
  /\ isAtomicPGN ascii_toLowerCase (trim MovesSpec.atomic_record) = true.
Proof.
  assert (trim MovesSpec.atomic_record <> []) as H1 by (by vm_compute).
  assert (warnings (validatePGN ascii_toLowerCase (VString MovesSpec.atomic_record)) = [])
    as H2 by (by vm_compute).
  split; [exact H1|]. split; [exact H2|].
  exact (no_warning_is_atomic ascii_toLowerCase MovesSpec.atomic_record H1 H2).
Defined.

End ValidateMore.

(** ** Scripts that complete normally *)

Module ScriptFacts.
Import Js Script ScriptSpec.

Section Prog.
Context {S E : Type}.
Implicit Types (s : S).

Lemma contained_ret {A} (a : A) : contained (mret a : prog S E A).
Proof. intros s. by exists a. Qed.

Lemma contained_emit (e : E) : contained (emit e : prog S E unit).
Proof. intros s. by exists tt. Qed.

Lemma contained_get : contained (get : prog S E S).
Proof. intros s. by exists s. Qed.

Lemma contained_put s' : contained (put s' : prog S E unit).
Proof. intros s. by exists tt. Qed.

Lemma contained_bind {A B} (c : prog S E A) (f : A -> prog S E B) :
  contained c -> (forall a, contained (f a)) -> contained (c ≫= f).
Proof.
  intros Hc Hf s. unfold mbind, prog_bind, bind.
  destruct (Hc s) as [a Ha]. destruct (c s) as [[s1 t] r]. cbn in Ha. subst r.
  destruct (Hf a s1) as [b Hb]. destruct (f a s1) as [[s2 t'] r']. cbn in Hb.
  subst. by exists b.
Qed.

Lemma contained_try_catch {A} (body : prog S E A) (handler : error -> prog S E A) :
  (forall e, contained (handler e)) -> contained (try_catch body handler).
Proof.
  intros Hh s. unfold try_catch. destruct (body s) as [[s1 t] [a|e]].
  - by exists a.
  - destruct (Hh e s1) as [a Ha]. destruct (handler e s1) as [[s2 t'] r].
    cbn in Ha. subst. by exists a.
Qed.

(** The trace of a sequence is the trace of its first part followed by
    the trace of the rest. *)
Lemma trace_bind {A B} (c : prog S E A) (f : A -> prog S E B) s :
  trace ((c ≫= f) s)
  = trace (c s)
    ++ match result (c s) with
       | Ok a => trace (f a (final (c s)))
       | Thrown _ => []
       end.
Proof.
  unfold mbind, prog_bind, bind, trace, result, final.
  destruct (c s) as [[s1 t] [a|e]]; cbn.
  - by destruct (f a s1) as [[s2 t'] r'].
  - by rewrite app_nil_r.
Qed.
End Prog.

End ScriptFacts.

(** ** More about the destination-page agent *)

Module LichessMore.
Import Js Script ScriptSpec Constants Page Lichess LichessFacts ScriptFacts.

(** X12.  submitForm never throws, and it submits in one way at most:
    the form when the textarea has one, the submit button when there is
    no form but a button, nothing otherwise. *)
Theorem submitForm_contained (w : world) (ta : nat) (p : page) :
  result (submitForm w ta p) = Ok tt
  /\ final (submitForm w ta p) = p
  /\ existsb (fun e => match e with FormSubmit => true | _ => false end)
       (trace (submitForm w ta p)) = has_form w
  /\ existsb (fun e => match e with ClickSubmitButton => true | _ => false end)
       (trace (submitForm w ta p)) = negb (has_form w) && has_submit_button w.
Proof.
  unfold submitForm. run_script.
  destruct (has_form w), (has_submit_button w), (submit_throws w); cbn; done.
Qed.

Ltac contain :=
  repeat first
    [ apply contained_ret | apply contained_emit | apply contained_get
    | apply contained_put
    | apply contained_bind; [|intros ?]
    | apply contained_try_catch; intros ?
    | progress unfold updateNotification, showLoading, showError, showNotification
    | match goal with
      | |- contained (if ?b then _ else _) => destruct b
      | |- contained (match ?x with _ => _ end) => destruct x
      end ].

Lemma submitForm_is_contained w ta : contained (submitForm w ta).
Proof. unfold submitForm. contain. Qed.

Lemma report_is_contained id e : contained (report id e).
Proof. unfold report. contain. Qed.


Ltac unfold_paste :=
  unfold initializeLichessPaste, waitForTextarea, pastePGN, submitForm, report;
  run_script.

Ltac paste_cases w :=
  destruct (textarea w) as [?ta|];
  [ destruct (clipboard w) as [?text|?e];
    [ destruct (negb (truthy (VString text)) || (length (trim text) =? 0)%nat) eqn:?Hblank
    | destruct (str_eqb (err_name e) (lit "NotAllowedError")) ];
    destruct (has_form w), (has_submit_button w), (submit_throws w)
  | ].

Lemma skip_run w p :
  negb (str_eqb (pathname w) (lit "/paste")) || hasRun p = true ->
  exists msg, initializeLichessPaste w p = (p, [Log debug [Txt msg]], Ok tt).
Proof.
  intros H. unfold initializeLichessPaste. run_script.
  destruct (negb (str_eqb (pathname w) (lit "/paste"))); [by eexists|].
  simpl in H. rewrite H. by eexists.
Qed.

(** X14.  The script acts once per page: after a run on the paste route
    the flag hasRun is set, and every later run, whatever the page and the
    browser would answer, writes one line to the log and nothing else. *)
Theorem initializeLichessPaste_once (w w' : world) (p : page) :
  pathname w = lit "/paste" ->
  hasRun (final (initializeLichessPaste w p)) = true
  /\ exists msg,
      initializeLichessPaste w' (final (initializeLichessPaste w p))
      = (final (initializeLichessPaste w p), [Log debug [Txt msg]], Ok tt).
Proof.
  intros Hpath.
  assert (hasRun (final (initializeLichessPaste w p)) = true) as H.
  { unfold_paste. rewrite Hpath.
    change (str_eqb (lit "/paste") (lit "/paste")) with true. cbn [negb].
    destruct (hasRun p) eqn:Hrun; [exact Hrun|].
    paste_cases w; reflexivity. }
  split; [exact H|]. apply skip_run. rewrite H. apply orb_true_r.
Qed.

Lemma initializeLichessPaste_once_witness :
  hasRun (final (initializeLichessPaste empty_world fresh_page)) = true
  /\ exists msg,
      initializeLichessPaste denied_world
        (final (initializeLichessPaste empty_world fresh_page))
      = (final (initializeLichessPaste empty_world fresh_page),
         [Log debug [Txt msg]], Ok tt).
Proof.
  apply (initializeLichessPaste_once empty_world denied_world fresh_page).
  reflexivity.
Defined.

Ltac crunch :=
  cbv beta iota zeta delta
    [trace fst snd app orb negb mbind mret prog_bind prog_ret bind ret emit
     throw try_catch get put updateNotification showLoading showError
     showNotification set_counter].

Ltac absent H :=
  exfalso; revert H; rewrite ?elem_of_cons, elem_of_nil;
  intros H; repeat destruct H as [H|H]; done.

Lemma empty_is_not_denied :
  str_eqb (err_name (new_Error (lit "Clipboard is empty"))) (lit "NotAllowedError")
  = false.
Proof. by vm_compute. Qed.

Lemma not_blank_guard text :
  trim text <> [] ->
  negb (truthy (VString text)) || (length (trim text) =? 0)%nat = false.
Proof.
  intros H. destruct text as [|c t]; [done|]. cbn [truthy negb orb].
  by destruct (trim (c :: t)).
Qed.

Lemma blank_guard text :
  trim text = [] ->
  negb (truthy (VString text)) || (length (trim text) =? 0)%nat = true.
Proof. intros ->. apply orb_true_r. Qed.

(** X15.  The paste: at the first run on the paste route, with the
    textarea found and a clipboard text that is not blank, the textarea
    gets exactly the clipboard text, then the input and the change events,
    then submitForm is entered and the notification ends as a success;
    whether the form can be submitted or not, no error is shown. *)
Theorem paste_and_submit (w : world) (p : page) (ta : nat) (text : jsstring) :
  pathname w = lit "/paste" -> hasRun p = false ->
  textarea w = Some ta -> clipboard w = inl text -> trim text <> [] ->
  exists pre post,
    trace (initializeLichessPaste w p)
    = pre ++ [SetValue text; DispatchEvent "input"; DispatchEvent "change"] ++ post
    /\ CallSubmitForm ∈ post
    /\ UpdateNotification (S (notificationCounter p)) READY_FOR_ANALYSIS
         "success" (Some 3000) ∈ post
    /\ existsb is_error_notification (trace (initializeLichessPaste w p)) = false.
Proof.
  intros Hpath Hrun Hta Hclip Htext.
  unfold_paste. rewrite Hpath, Hrun, Hta, Hclip.
  change (str_eqb (lit "/paste") (lit "/paste")) with true. cbn [negb].
  cbn beta iota. rewrite (not_blank_guard text Htext).
  destruct (has_form w), (has_submit_button w), (submit_throws w);
    eexists [_; _; _; _; _; _; _; _], _;
    (split; [reflexivity|]); (split; [find_elem|]); (split; [find_elem|]);
    reflexivity.
Qed.

Lemma paste_and_submit_witness :
  exists pre post,
    trace (initializeLichessPaste pgn_world fresh_page)
    = pre ++ [SetValue (lit "1. e4 e5"); DispatchEvent "input";
              DispatchEvent "change"] ++ post
    /\ CallSubmitForm ∈ post
    /\ UpdateNotification (S (notificationCounter fresh_page)) READY_FOR_ANALYSIS
         "success" (Some 3000) ∈ post
    /\ existsb is_error_notification
         (trace (initializeLichessPaste pgn_world fresh_page)) = false.
Proof.
  apply (paste_and_submit pgn_world fresh_page 1%nat (lit "1. e4 e5")).
  - reflexivity.
  - reflexivity.
  - reflexivity.
  - reflexivity.
  - by vm_compute.
Defined.

(** X16.  What the agent never does: the clipboard is read only at the
    first run on the paste route and after the textarea was found, and the
    textarea is only ever given the text of the clipboard, which is then
    not blank. *)
Theorem paste_only_from_clipboard (w : world) (p : page) :
  (ReadClipboard ∈ trace (initializeLichessPaste w p) ->
   pathname w = lit "/paste" /\ hasRun p = false /\ is_Some (textarea w))
  /\ (forall text, SetValue text ∈ trace (initializeLichessPaste w p) ->
      clipboard w = inl text /\ trim text <> []).
Proof.
  unfold_paste.
  destruct (str_eqb (pathname w) (lit "/paste")) eqn:Hpath.
  2:{ crunch. split; [intros H | intros text H]; by absent H. }
  apply bool_decide_eq_true in Hpath.
  destruct (hasRun p) eqn:Hrun.
  { crunch. split; [intros H | intros text H]; by absent H. }
  paste_cases w; rewrite ?empty_is_not_denied; crunch; (split; [intros H | intros text' H]);
    try (split; [done|split; [done|by eexists]]);
    try (by absent H);
    revert H; rewrite !elem_of_cons, elem_of_nil; intros H;
    repeat destruct H as [H|H]; try done;
    injection H as ->; (split; [done|]);
    intros Hb; by rewrite (blank_guard _ Hb) in Hblank.
Qed.

End LichessMore.

(** ** The source page: one activation, and sequences of events *)

Module ChessComMore.
Import Js Script ScriptSpec Constants Page PgnSpec ChessCom ChessComSpec.
Import SanitizeFacts ScriptFacts.

Ltac crunch :=
  cbv beta iota zeta delta
    [trace final result fst snd app orb negb mbind mret prog_bind prog_ret bind
     ret emit throw try_catch get put updateNotification showLoading showError
     showNotification set_counter set_isProcessing set_debounce
     handleButtonClick report extractPGN copyToClipboard openLichessTab
     sanitized updateButtonState reset step
     sendButton isProcessing debounce_pending notificationCounter
     extracted clipboard_write_fails popup_blocked truthy restyled failure
     is_reset_timer is_extract List.filter String.eqb Ascii.eqb Bool.eqb].

(** The cases of one activation of the idle agent. *)
Ltac activation a w :=
  let b := fresh "b" in let n := fresh "n" in let dp := fresh "dp" in
  let pgn := fresh "pgn" in let e := fresh "e" in
  let cf := fresh "cf" in let pb := fresh "pb" in
  destruct a as [[b|] [|] dp n]; [discriminate | | discriminate | ];
  (destruct w as [[[|c pgn]|e] cf pb];
   [ | destruct cf, pb | ]);
  crunch; rewrite ?sanitizePGN_string; crunch.

Ltac absent H :=
  exfalso; revert H; rewrite ?elem_of_cons, elem_of_nil;
  intros H; repeat destruct H as [H|H]; done.

Ltac find_elem :=
  repeat first [ apply list_elem_of_here | apply list_elem_of_further ].

Lemma denied_message :
  message_or (new_Error CLIPBOARD_WRITE_DENIED) GENERIC_ERROR = CLIPBOARD_WRITE_DENIED.
Proof. reflexivity. Qed.

Lemma tab_message :
  message_or (new_Error LICHESS_TAB_FAILED) GENERIC_ERROR = LICHESS_TAB_FAILED.
Proof. reflexivity. Qed.

Lemma not_found_message :
  message_or (new_Error PGN_NOT_FOUND) GENERIC_ERROR = PGN_NOT_FOUND.
Proof. reflexivity. Qed.



(** X18.  How an activation of the idle agent ends.  If every step of
    the transfer succeeds, the button shows success and the notification is
    updated to the success text for 3000 ms.  Otherwise the button shows
    error and the notification is updated, for 8000 ms, to the text of the
    first failure: the message of the rejection of the export (the
    generic text if it has none), no record found, the clipboard refused,
    or the tab not opened. *)
Theorem handleButtonClick_outcome (w : world) (a : agent) :
  isProcessing a = false ->
  match failure w with
  | None =>
      sendButton (final (handleButtonClick w a)) = restyled a "success"
      /\ UpdateNotification (S (notificationCounter a)) SENT_TO_LICHESS
           "success" (Some 3000) ∈ trace (handleButtonClick w a)
  | Some msg =>
      sendButton (final (handleButtonClick w a)) = restyled a "error"
      /\ UpdateNotification (S (notificationCounter a)) msg
           "error" (Some 8000) ∈ trace (handleButtonClick w a)
  end.
Proof.
  intros H. activation a w;
    rewrite ?denied_message, ?tab_message, ?not_found_message;
    (split; [done|]); find_elem.
Qed.

Lemma handleButtonClick_outcome_witness :
  sendButton (final (handleButtonClick no_record_world idle_agent))
  = Some "error"%string
  /\ UpdateNotification 1 PGN_NOT_FOUND "error" (Some 8000)
     ∈ trace (handleButtonClick no_record_world idle_agent).
Proof.
  apply (handleButtonClick_outcome no_record_world idle_agent). reflexivity.
Defined.

(** X19.  No tab without the record in the clipboard: if an activation
    opens a tab, then the page gave a record, the clipboard accepted the
    write, what was written is the sanitized record, the write came after
    the extraction and before the tab, and the tab is the paste page of
    Lichess. *)
Theorem tab_after_clipboard (w : world) (a : agent) (url : jsstring) :
  WindowOpen url ∈ trace (handleButtonClick w a) ->
  exists pgn pre post,
    extracted w = inl pgn
    /\ clipboard_write_fails w = false
    /\ trace (handleButtonClick w a)
       = pre ++ WriteClipboard (sanitize_string pgn) :: post
    /\ CallExtractPGN ∈ pre
    /\ WindowOpen url ∈ post
    /\ url = lit "https://lichess.org/paste".
Proof.
  intros H.
  destruct a as [[b|] [|] dp n];
    (destruct w as [[[|c pgn]|e] cf pb]; [ | destruct cf, pb | ]);
    revert H; crunch; rewrite ?sanitizePGN_string; crunch; intros H;
    try (by absent H);
    (exists (c :: pgn));
    first [ eexists [_; _; _; _; _; _; _; _; _], _;
            (split; [reflexivity|]); (split; [reflexivity|]);
            (split; [reflexivity|])
          | eexists [_; _; _; _; _; _; _; _], _;
            (split; [reflexivity|]); (split; [reflexivity|]);
            (split; [reflexivity|]) ];
    (split; [find_elem|]);
    rewrite !elem_of_cons, elem_of_nil in H;
    repeat destruct H as [H|H]; try done;
    injection H as ->; (split; [find_elem | reflexivity]).
Qed.

Lemma tab_after_clipboard_witness :
  exists pgn pre post,
    extracted busy_world = inl pgn
    /\ clipboard_write_fails busy_world = false
    /\ trace (handleButtonClick busy_world idle_agent)
       = pre ++ WriteClipboard (sanitize_string pgn) :: post
    /\ CallExtractPGN ∈ pre
    /\ WindowOpen (lit "https://lichess.org/paste") ∈ post
    /\ lit "https://lichess.org/paste" = lit "https://lichess.org/paste".
Proof.
  apply (tab_after_clipboard busy_world idle_agent (lit "https://lichess.org/paste")).
  vm_compute. find_elem.
Defined.

(** X20.  The callback of the reset timers puts the agent back: the
    button, if there is one, shows idle, the in-progress flag is cleared,
    and the next activation runs a transfer again. *)
Theorem reset_reenables (w : world) (a : agent) :
  result (reset a) = Ok tt
  /\ sendButton (final (reset a)) = restyled a "idle"
  /\ isProcessing (final (reset a)) = false
  /\ CallExtractPGN ∈ trace (handleButtonClick w (final (reset a))).
Proof.
  destruct a as [[b|] ip dp n];
    (destruct w as [[[|c pgn]|e] cf pb]; [ | destruct cf, pb | ]);
    crunch; rewrite ?sanitizePGN_string; crunch;
    (split; [done|]); (split; [done|]); (split; [done|]); find_elem.
Qed.

Lemma handle_busy w a :
  isProcessing a = true ->
  handleButtonClick w a
  = (a, [Log debug [Txt (lit "Already processing, ignoring click")]], Ok tt).
Proof. destruct a as [b [|] dp n]; [reflexivity | discriminate]. Qed.

Lemma step_result w ev a : result (step w ev a) = Ok tt.
Proof.
  destruct ev; [reflexivity | | by destruct a as [[b|] ip dp n]].
  destruct a as [[b|] [|] dp n]; try reflexivity;
    (destruct w as [[[|c pgn]|e] cf pb]; [ | destruct cf, pb | ]);
    crunch; rewrite ?sanitizePGN_string; crunch; reflexivity.
Qed.

(** What one event other than the reset does to the flag, and how many
    extractions it starts. *)
Lemma step_extracts w ev a :
  ev <> ResetFires ->
  (List.filter is_extract (trace (step w ev a)) = []
   /\ isProcessing (final (step w ev a)) = isProcessing a)
  \/ (List.filter is_extract (trace (step w ev a)) = [CallExtractPGN]
      /\ isProcessing a = false
      /\ isProcessing (final (step w ev a)) = true).
Proof.
  intros Hev. destruct ev; [| |done].
  - left. by destruct a.
  - destruct a as [[b|] [|] dp n];
      try (left; split; reflexivity);
      right;
      (destruct w as [[[|c pgn]|e] cf pb]; [ | destruct cf, pb | ]);
      crunch; rewrite ?sanitizePGN_string; crunch; done.
Qed.

Lemma run_cons w ev rest a :
  trace (run ((w, ev) :: rest) a)
  = trace (step w ev a) ++ trace (run rest (final (step w ev a))).
Proof.
  change (run ((w, ev) :: rest)) with (step w ev ≫= fun _ => run rest).
  rewrite trace_bind. by rewrite step_result.
Qed.

Lemma run_extracts evs : forall a,
  Forall (fun x => x.2 <> ResetFires) evs ->
  (isProcessing a = true -> List.filter is_extract (trace (run evs a)) = [])
  /\ (length (List.filter is_extract (trace (run evs a))) <= 1)%nat.
Proof.
  induction evs as [|[w ev] rest IH]; intros a Hevs.
  - split; [done|]. cbn. lia.
  - inversion Hevs as [|? ? Hev Hrest]; subst. cbn [snd] in Hev.
    rewrite run_cons, List.filter_app, length_app.
    destruct (IH (final (step w ev a)) Hrest) as [IH1 IH2].
    destruct (step_extracts w ev a Hev) as [[-> Hp]|(-> & Hidle & Hp)].
    + split; [|cbn; lia]. intros Ha. rewrite Hp in IH1. by rewrite IH1.
    + split; [congruence|]. rewrite (IH1 Hp). cbn. lia.
Qed.

(** X21.  One transfer at a time: in any sequence of clicks and firings
    of the debounce timer, with whatever the page and the browser answer
    at each of them, at most one extraction of the record starts until a
    reset timer fires; none starts if the in-progress flag was set. *)
Theorem one_transfer_until_reset (evs : list (world * event)) (a : agent) :
  Forall (fun x => x.2 <> ResetFires) evs ->
  (length (List.filter is_extract (trace (run evs a))) <= 1)%nat
  /\ (isProcessing a = true -> CallExtractPGN ∉ trace (run evs a)).
Proof.
  intros Hevs. destruct (run_extracts evs a Hevs) as [H1 H2].
  split; [exact H2|]. intros Ha Hin. specialize (H1 Ha).
  assert (In CallExtractPGN (List.filter is_extract (trace (run evs a)))) as Hf.
  { apply List.filter_In. split; [by apply list_elem_of_In|done]. }
  by rewrite H1 in Hf.
Qed.

Lemma one_transfer_until_reset_witness :
  (length (List.filter is_extract
     (trace (run [(busy_world, Click); (busy_world, DebounceFires);
                  (no_clipboard_world, Click); (busy_world, DebounceFires)]
               idle_agent))) <= 1)%nat
  /\ (isProcessing idle_agent = true ->
      CallExtractPGN ∉ trace (run [(busy_world, Click); (busy_world, DebounceFires);
                  (no_clipboard_world, Click); (busy_world, DebounceFires)]
               idle_agent)).
Proof.
  apply (one_transfer_until_reset
           [(busy_world, Click); (busy_world, DebounceFires);
            (no_clipboard_world, Click); (busy_world, DebounceFires)] idle_agent).
  repeat (constructor; [simpl; discriminate|]). constructor.
Defined.

End ChessComMore.

(** ** waitForElement after the call, and querySelectorFallback *)

Module DomUtilsMore.
Import Js Script DomUtils DomUtilsRun DomUtilsFacts.

Section Run.
Context {element selector : Type}.
Implicit Types (root : selector -> option element)
         (selectors : selector + list selector)
         (evs : list (@page_event element selector))
         (t : list (wait_effect element selector)).

Lemma settled_None t : settled t = None <-> List.filter is_settle t = [].
Proof.
  induction t as [|e t IH]; [done|].
  destruct e; cbn [settled is_settle List.filter]; try exact IH; by split.
Qed.

Lemma callbacks_dead selectors timeout evs :
  callbacks selectors timeout (WaitState false false) evs
  = ([], WaitState false false).
Proof.
  induction evs as [|[root|] evs IH]; [done| |];
    cbn [callbacks observing armed after fold_left app]; by rewrite IH.
Qed.

Lemma callbacks_alive selectors timeout evs :
  let r := callbacks selectors timeout (WaitState true true) evs in
  (r.2 = WaitState true true /\ r.1 = [])
  \/ (r.2 = WaitState false false
      /\ exists pre x, r.1 = pre ++ [x] /\ is_settle x = true
                       /\ List.filter is_settle pre = []).
Proof.
  induction evs as [|[root|] evs IH]; [by left| |];
    cbn [callbacks observing armed].
  - unfold on_mutation.
    destruct (find_first root (selectorArray selectors)) as [[sel e]|].
    + cbn [after fold_left apply_effect observing armed].
      rewrite callbacks_dead. right. split; [done|].
      by eexists [_; _; _], _.
    + cbn [after fold_left app].
      destruct (callbacks selectors timeout (WaitState true true) evs). exact IH.
  - cbn [on_timeout after fold_left apply_effect observing armed].
    rewrite callbacks_dead. right. split; [done|].
    by eexists [_; _], _.
Qed.

(** X22.  The promise of waitForElement is settled at most once, and
    nothing is left behind: whatever the page does after the call and
    whenever the timer fires, the promise is resolved or rejected at
    most once, and as soon as it is settled the observer is
    disconnected and the timer is no longer pending; until then both
    are in place. *)
Theorem waitForElement_settles_once selectors timeout root evs :
  let r := wait selectors timeout root evs in
  (length (List.filter is_settle r.1) <= 1)%nat
  /\ (settled r.1 = None -> r.2 = WaitState true true)
  /\ (settled r.1 <> None -> r.2 = WaitState false false).
Proof.
  unfold wait, waitForElement.
  destruct (find_first root (selectorArray selectors)) as [[sel e]|].
  - cbn [after fold_left apply_effect observing armed].
    rewrite callbacks_dead. cbn. split; [lia|]. by split.
  - cbn [after fold_left apply_effect observing armed].
    pose proof (callbacks_alive selectors timeout evs) as H. cbv zeta in H.
    destruct (callbacks selectors timeout (WaitState true true) evs) as [t st].
    cbn [fst snd] in *.
    destruct H as [[-> ->]|(-> & pre & x & -> & Hx & Hpre)].
    + cbn. split; [lia|]. by split.
    + cbn [app List.filter is_settle settled].
      rewrite List.filter_app, Hpre. cbn [List.filter app]. rewrite Hx.
      split; [cbn; lia|]. split; [|done].
      intros Hs. apply settled_None in Hs.
      rewrite List.filter_app, Hpre in Hs. cbn in Hs. by rewrite Hx in Hs.
Qed.

Lemma find_first_elem root (sels : list selector) sel e :
  find_first root sels = Some (sel, e) -> sel ∈ sels /\ root sel = Some e.
Proof.
  intros H. apply find_first_Some in H as (pre & post & -> & _ & H).
  split; [|done]. apply elem_of_app. right. left.
Qed.

Lemma callbacks_resolve selectors timeout evs e : forall st,
  Resolve e ∈ (callbacks selectors timeout st evs).1 ->
  exists sel root',
    sel ∈ selectorArray selectors /\ root' ∈ pages evs /\ root' sel = Some e.
Proof.
  induction evs as [|[root|] evs IH]; intros st; cbn [callbacks pages].
  - intros H. by apply elem_of_nil in H.
  - match goal with |- context [callbacks _ _ ?s evs] =>
      specialize (IH s); destruct (callbacks selectors timeout s evs) as [t' st']
    end.
    cbn [fst] in *. intros [H|H]%elem_of_app.
    + destruct (observing st); [|by apply elem_of_nil in H].
      unfold on_mutation in H.
      destruct (find_first root (selectorArray selectors)) as [[sel e']|] eqn:E;
        [|by apply elem_of_nil in H].
      rewrite !elem_of_cons, elem_of_nil in H.
      repeat destruct H as [H|H]; try done. injection H as <-.
      apply find_first_elem in E as [Hin Hsel].
      exists sel, root. split; [done|]. split; [left|done].
    + destruct (IH H) as (sel & root' & ? & ? & ?).
      exists sel, root'. split; [done|]. split; [by right|done].
  - match goal with |- context [callbacks _ _ ?s evs] =>
      specialize (IH s); destruct (callbacks selectors timeout s evs) as [t' st']
    end.
    cbn [fst] in *. intros [H|H]%elem_of_app.
    + destruct (armed st); [|by apply elem_of_nil in H].
      unfold on_timeout in H. rewrite !elem_of_cons, elem_of_nil in H.
      by repeat destruct H as [H|H].
    + exact (IH H).
Qed.

Lemma callbacks_reject selectors timeout evs to ss : forall st,
  Reject to ss ∈ (callbacks selectors timeout st evs).1 ->
  to = timeout /\ ss = selectorArray selectors /\ TimerFires ∈ evs.
Proof.
  induction evs as [|[root|] evs IH]; intros st; cbn [callbacks].
  - intros H. by apply elem_of_nil in H.
  - match goal with |- context [callbacks _ _ ?s evs] =>
      specialize (IH s); destruct (callbacks selectors timeout s evs) as [t' st']
    end.
    cbn [fst] in *. intros [H|H]%elem_of_app.
    + destruct (observing st); [|by apply elem_of_nil in H].
      unfold on_mutation in H.
      destruct (find_first root (selectorArray selectors)) as [[sel e']|];
        [|by apply elem_of_nil in H].
      rewrite !elem_of_cons, elem_of_nil in H.
      by repeat destruct H as [H|H].
    + destruct (IH H) as (? & ? & ?). split; [done|]. split; [done|by right].
  - match goal with |- context [callbacks _ _ ?s evs] =>
      specialize (IH s); destruct (callbacks selectors timeout s evs) as [t' st']
    end.
    cbn [fst] in *. intros [H|H]%elem_of_app.
    + destruct (armed st); [|by apply elem_of_nil in H].
      unfold on_timeout in H. rewrite !elem_of_cons, elem_of_nil in H.
      repeat destruct H as [H|H]; try done. injection H as -> ->.
      split; [done|]. split; [done|left].
    + destruct (IH H) as (? & ? & ?). split; [done|]. split; [done|by right].
Qed.


Lemma query_loop_spec (all rest : list selector)
      (root : selector -> error + option element) :
  (query_loop all root rest).2 = snd <$> find_first (forgiving root) rest
  /\ match (query_loop all root rest).2 with
     | Some e => exists sel, last (query_loop all root rest).1 = Some (QFound sel)
                             /\ sel ∈ rest /\ root sel = inr (Some e)
     | None => last (query_loop all root rest).1 = Some (QNone all)
     end
  /\ (forall sel ex, QInvalid sel ex ∈ (query_loop all root rest).1 ->
        sel ∈ rest /\ root sel = inl ex).
Proof.
  induction rest as [|s0 rest (IH1 & IH2 & IH3)]; cbn [query_loop find_first].
  - cbn [fst snd]. split; [done|]. split; [done|]. intros sel ex H.
    rewrite elem_of_cons, elem_of_nil in H. by destruct H.
  - unfold forgiving at 1. destruct (root s0) as [ex0|[e0|]] eqn:E0.
    + destruct (query_loop all root rest) as [t r]. cbn [fst snd] in *.
      split; [done|]. split.
      * destruct r as [e|].
        -- destruct IH2 as (sel & Hl & Hin & Hsel). exists sel.
           split; [|split; [by right|done]].
           destruct t; [done|]. by rewrite last_cons, Hl.
        -- destruct t; [done|]. by rewrite last_cons, IH2.
      * intros sel ex [H|H]%elem_of_cons.
        -- injection H as -> ->. split; [left|done].
        -- destruct (IH3 sel ex H). split; [by right|done].
    + cbn [fst snd fmap option_fmap option_map]. split; [done|]. split.
      * exists s0. split; [done|]. split; [left|done].
      * intros sel ex H. rewrite elem_of_cons, elem_of_nil in H. by destruct H.
    + split; [done|]. split.
      * destruct (query_loop all root rest).2 as [e|]; [|done].
        destruct IH2 as (sel & Hl & Hin & Hsel). exists sel.
        split; [done|]. split; [by right|done].
      * intros sel ex H. destruct (IH3 sel ex H). split; [by right|done].
Qed.

(** X24.  querySelectorFallback treats a text that is no selector like
    a selector that finds nothing: it returns what the loop of
    waitForElement finds on the page where such texts find nothing, so
    the element of the first selector that finds one, or null.  Its last
    line in the log names the selector that found the element, or says
    that none did; each warning for an invalid selector is for a given
    selector on which querySelector threw. *)
Theorem querySelectorFallback_forgiving (selectors : list selector)
        (root : selector -> error + option element) :
  (querySelectorFallback selectors root).2
  = snd <$> find_first (forgiving root) selectors
  /\ match (querySelectorFallback selectors root).2 with
     | Some e =>
         exists sel, last (querySelectorFallback selectors root).1 = Some (QFound sel)
                     /\ sel ∈ selectors /\ root sel = inr (Some e)
     | None => last (querySelectorFallback selectors root).1 = Some (QNone selectors)
     end
  /\ (forall sel ex, QInvalid sel ex ∈ (querySelectorFallback selectors root).1 ->
        sel ∈ selectors /\ root sel = inl ex).
Proof. apply query_loop_spec. Qed.
End Run.

(** Two runs on the example page.  The textarea appears with the second
    change of the page: the promise is resolved then, and the timer and
    the later change do nothing.  Or it never appears: the promise is
    rejected when the timer fires, and the observer is gone. *)
Example wait_found_later :
  wait example_selectors 5000 (fun _ => None)
    [Mutation (fun _ => None); Mutation example_root; TimerFires;
     Mutation example_root]
  = ([WLog debug "Waiting for element" ["textarea.form-control"; "textarea"]%string;
      SetTimeout 5000; NewObserver; Observe;
      WLog debug "Element found via observer" ["textarea"%string];
      ClearTimeout; Disconnect; Resolve 7%nat],
     WaitState false false).
Proof. reflexivity. Qed.

Example wait_timeout :
  wait example_selectors 5000 (fun _ => None)
    [Mutation (fun _ => None); TimerFires; Mutation example_root]
  = ([WLog debug "Waiting for element" ["textarea.form-control"; "textarea"]%string;
      SetTimeout 5000; NewObserver; Observe;
      Disconnect;
      WLog warn "Timeout waiting for element" ["textarea.form-control"; "textarea"]%string;
      Reject 5000 ["textarea.form-control"; "textarea"]%string],
     WaitState false false).
Proof. reflexivity. Qed.

End DomUtilsMore.

(** ** formatPGN and prepareForLichess *)

Module FormatMore.
Import Js Regex Pgn PgnSpec PgnMore.
Import RegexFacts SanitizeFacts ValidateFacts ValidateMore.

(** *** join and split *)

Lemma join_cons sep x y rest :
  join sep (x :: y :: rest) = x ++ sep ++ join sep (y :: rest).
Proof. reflexivity. Qed.

Lemma join_split s : join [LF] (split LF s) = s.
Proof.
  induction s as [|c t IH]; [done|]. simpl split.
  pose proof (split_nonempty LF t) as Hne.
  destruct (N.eqb_spec c LF) as [->|Hc].
  - destruct (split LF t) as [|l ls]; [done|]. rewrite join_cons, IH. done.
  - destruct (split LF t) as [|l ls]; [done|].
    rewrite <- IH. by destruct ls.
Qed.

Lemma split_join (F : list jsstring) :
  F <> [] -> Forall (fun l => LF ∉ l) F -> split LF (join [LF] F) = F.
Proof.
  induction F as [|x F IH]; [done|]. intros _ HF.
  apply Forall_cons in HF as [Hx HF].
  destruct F as [|y F].
  - cbn [join]. by apply split_no_LF.
  - rewrite join_cons. cbn [app]. rewrite split_app_LF, (split_no_LF x Hx).
    by rewrite IH.
Qed.

Lemma join_sublist (F G : list jsstring) x y :
  x `sublist_of` y -> join [LF] F `sublist_of` join [LF] G ->
  (F = [] -> G = [] \/ True) ->
  join [LF] (x :: F) `sublist_of` join [LF] (y :: G) \/ (F <> [] /\ G = []).
Proof.
  intros Hxy HFG _. destruct F as [|f F].
  - left. destruct G as [|g G]; [done|].
    rewrite join_cons. change (join [LF] [x]) with x. by apply sublist_inserts_r.
  - destruct G as [|g G]; [right; by split|]. left.
    rewrite !join_cons. apply sublist_app; [done|]. by apply sublist_app.
Qed.

(** *** The loop of formatPGN *)

Lemma trim_nil : trim [] = [].
Proof. reflexivity. Qed.

Lemma trim_idem l : trim (trim l) = trim l.
Proof. apply trimmed_id, trim_trimmed. Qed.

Lemma length_zero {A} (l : list A) : (length l =? 0)%nat = true <-> l = [].
Proof. destruct l; split; intros; done. Qed.

(** The three cases of one round of the loop. *)
Lemma format_lines_cons b line rest :
  (trim line = [] /\ b = true
   /\ format_lines b (line :: rest) = [] :: format_lines false rest)
  \/ (trim line = [] /\ b = false
      /\ format_lines b (line :: rest) = format_lines false rest)
  \/ (trim line <> []
      /\ format_lines b (line :: rest) = trim line :: format_lines b rest).
Proof.
  cbn [format_lines]. destruct (trim line) as [|c t] eqn:E.
  - destruct b; [left | right; left]; done.
  - right. right. split; [done|]. cbn [length Nat.eqb].
    by destruct (test false PGN_HEADER (c :: t)).
Qed.

Ltac format_cases b line rest :=
  destruct (format_lines_cons b line rest)
    as [(?Ht & -> & ->)|[(?Ht & -> & ->)|(?Ht & ->)]].

Lemma format_lines_from b lines l :
  l ∈ format_lines b lines -> l = [] \/ exists l0, l0 ∈ lines /\ l = trim l0.
Proof.
  revert b. induction lines as [|line rest IH]; intros b H.
  - by apply elem_of_nil in H.
  - revert H. format_cases b line rest; intros H.
    + apply elem_of_cons in H as [->|H]; [by left|].
      destruct (IH _ H) as [->|(l0 & H0 & ->)]; [by left|].
      right. exists l0. split; [by right|done].
    + destruct (IH _ H) as [->|(l0 & H0 & ->)]; [by left|].
      right. exists l0. split; [by right|done].
    + apply elem_of_cons in H as [->|H]; [right; exists line; split; [left|done]|].
      destruct (IH _ H) as [->|(l0 & H0 & ->)]; [by left|].
      right. exists l0. split; [by right|done].
Qed.

Lemma format_lines_blank b lines :
  (length (filter (fun l => l = []) (format_lines b lines))
   <= if b then 1 else 0)%nat.
Proof.
  revert b. induction lines as [|line rest IH]; intros b.
  - cbn. destruct b; lia.
  - format_cases b line rest.
    + rewrite filter_cons_True by done. cbn [length].
      specialize (IH false). cbn beta iota in IH. lia.
    + apply (IH false).
    + rewrite filter_cons_False by done. apply IH.
Qed.

Lemma format_lines_nonempty lines : lines <> [] -> format_lines true lines <> [].
Proof.
  destruct lines as [|line rest]; [done|]. intros _.
  by destruct (format_lines_cons true line rest)
    as [(_ & _ & ->)|[(_ & H & _)|(_ & ->)]].
Qed.

Lemma format_lines_sublist b lines :
  join [LF] (format_lines b lines) `sublist_of` join [LF] lines.
Proof.
  revert b. induction lines as [|line rest IH]; intros b; [done|].
  assert (forall b', rest = [] -> format_lines b' rest = []) as Hnil
      by (by intros b' ->).
  format_cases b line rest.
  - destruct (join_sublist (format_lines false rest) rest [] line) as [H|[H1 H2]];
      [apply sublist_nil_l | apply IH | by right | done |].
    by rewrite (Hnil false H2) in H1.
  - destruct rest as [|r rest]; [apply sublist_nil_l|].
    rewrite join_cons. etrans; [apply IH|].
    apply sublist_inserts_l, sublist_inserts_l. done.
  - destruct (join_sublist (format_lines b rest) rest (trim line) line) as [H|[H1 H2]];
      [apply trim_sublist | apply IH | by right | done |].
    by rewrite (Hnil b H2) in H1.
Qed.

Lemma format_lines_fixed b lines :
  format_lines b (format_lines b lines) = format_lines b lines.
Proof.
  revert b. induction lines as [|line rest IH]; intros b; [done|].
  format_cases b line rest.
  - cbn [format_lines]. rewrite trim_nil. cbn [length Nat.eqb]. by rewrite IH.
  - apply IH.
  - destruct (format_lines_cons b (trim line) (format_lines b rest))
      as [(H & _)|[(H & _)|(_ & ->)]];
      rewrite trim_idem in *; try done. by rewrite IH.
Qed.

(** *** formatPGN *)

Lemma sanitizePGN_returns v : exists x, sanitizePGN v = Normal (VString (sanitize_string x)).
Proof.
  destruct v as [| |b|z| |s|i|i|i]; try (by exists []).
  - exists []. by destruct b.
  - exists []. unfold sanitizePGN. simpl. by destruct (Z.eqb z 0).
  - exists s. apply sanitizePGN_string.
Qed.

(** The lines formatPGN joins. *)
Lemma formatPGN_eq v s :
  sanitizePGN v = Normal (VString s) ->
  formatPGN v = Normal (VString (join [LF] (format_lines true (split LF s)))).
Proof. intros H. unfold formatPGN. by rewrite H. Qed.

Lemma format_lines_no_LF b s :
  Forall (fun l => LF ∉ l) (format_lines b (split LF s)).
Proof.
  apply Forall_forall. intros l Hl.
  apply format_lines_from in Hl as [->|(l0 & H0 & ->)]; [apply not_elem_of_nil|].
  intros H. apply (split_elem_LF _ _ H0).
  eapply elem_of_sublist; [exact H | apply trim_sublist].
Qed.

Lemma split_formatted s :
  split LF (join [LF] (format_lines true (split LF s)))
  = format_lines true (split LF s).
Proof.
  apply split_join; [|apply format_lines_no_LF].
  apply format_lines_nonempty, split_nonempty.
Qed.

(** X25.  formatPGN never throws, and its result is the sanitized
    record with nothing added: what it returns is obtained from the
    result of sanitizePGN by leaving characters out; every line of it is
    free of white space at both ends, and at most one line is empty. *)
Theorem formatPGN_shape (v : value) :
  exists s out,
    sanitizePGN v = Normal (VString s)
    /\ formatPGN v = Normal (VString out)
    /\ out `sublist_of` s
    /\ (forall l, l ∈ split LF out -> trimmed l)
    /\ (blank_lines out <= 1)%nat.
Proof.
  destruct (sanitizePGN_returns v) as [x Hs].
  exists (sanitize_string x), (join [LF] (format_lines true (split LF (sanitize_string x)))).
  split; [done|]. split; [by apply formatPGN_eq|]. split; [|split].
  - etrans; [apply format_lines_sublist|]. by rewrite join_split.
  - intros l. rewrite split_formatted. intros Hl.
    apply format_lines_from in Hl as [->|(l0 & _ & ->)]; [done|apply trim_trimmed].
  - unfold blank_lines. rewrite split_formatted. apply (format_lines_blank true).
Qed.

(** *** The result of formatPGN is in the shape sanitizePGN produces *)

Lemma blank_run_blank_lines a b : (2 <= blank_lines (a ++ LF :: LF :: LF :: b))%nat.
Proof.
  unfold blank_lines. rewrite split_app_LF.
  change (split LF (LF :: LF :: b)) with ([] :: [] :: split LF b).
  rewrite filter_app, length_app, !filter_cons_True by done. cbn [length]. lia.
Qed.

Lemma split_first c t :
  c <> LF -> exists l ls, split LF (c :: t) = (c :: l) :: ls.
Proof.
  intros Hc. simpl. destruct (N.eqb_spec c LF); [done|].
  pose proof (split_nonempty LF t). destruct (split LF t) as [|l ls]; [done|].
  by exists l, ls.
Qed.

Lemma split_last s d :
  last s = Some d -> d <> LF ->
  exists L ln, split LF s = L ++ [ln] /\ last ln = Some d.
Proof.
  intros Hs Hd. induction s as [|c t IH]; [done|].
  destruct t as [|c' t'].
  - injection Hs as ->. simpl. destruct (N.eqb_spec d LF); [done|].
    by exists [], [d].
  - rewrite last_cons_cons in Hs. destruct (IH Hs) as (L & ln & E & Hl).
    simpl split in *. rewrite E. destruct (c =? LF).
    + by exists ([] :: L), ln.
    + destruct L as [|l0 L]; cbn [app].
      * exists [], (c :: ln). split; [done|].
        destruct ln; [done|]. by rewrite last_cons_cons.
      * by exists ((c :: l0) :: L), ln.
Qed.

Lemma all_ws_last (b : jsstring) d :
  Forall (fun c => is_ws c = true) b -> last b = Some d -> is_ws d = true.
Proof.
  intros Hb Hd. apply last_Some in Hd as [b' ->].
  apply Forall_app in Hb as [_ Hb]. by inversion Hb.
Qed.

Lemma trim_first c t : is_ws c = false -> exists t', trim (c :: t) = c :: t'.
Proof.
  intros Hc. destruct (trim_split (c :: t)) as (a & b & E & Ha & Hb).
  destruct a as [|a0 a].
  - destruct (trim (c :: t)) as [|c' t'].
    + cbn [app] in E. subst b. inversion Hb; congruence.
    + injection E as -> _. by exists t'.
  - injection E as <- _. inversion Ha; congruence.
Qed.

Lemma trim_last l d :
  last l = Some d -> is_ws d = false -> last (trim l) = Some d.
Proof.
  intros Hl Hd. destruct (trim_split l) as (a & b & E & Ha & Hb).
  destruct b as [|b0 b] using rev_ind.
  - rewrite app_nil_r in E. destruct (trim l) as [|c t] using rev_ind.
    + rewrite app_nil_r in E. subst a.
      pose proof (all_ws_last _ _ Ha Hl). congruence.
    + rewrite E, app_assoc, last_snoc in Hl. by rewrite last_snoc.
  - rewrite E, !app_assoc, last_snoc in Hl. injection Hl as ->.
    apply Forall_app in Hb as [_ Hb]. inversion Hb; congruence.
Qed.

Lemma format_lines_snoc b L ln :
  trim ln <> [] -> format_lines b (L ++ [ln]) = format_lines b L ++ [trim ln].
Proof.
  intros Hn. revert b. induction L as [|line rest IH]; intros b.
  - cbn [app]. destruct (format_lines_cons b ln [])
      as [(H & _)|[(H & _)|(_ & ->)]]; done.
  - cbn [app].
    destruct (format_lines_cons b line (rest ++ [ln]))
      as [(H1 & Hb & ->)|[(H1 & Hb & ->)|(H1 & ->)]];
    destruct (format_lines_cons b line rest)
      as [(H2 & Hb' & ->)|[(H2 & Hb' & ->)|(H2 & ->)]];
      try congruence; by rewrite IH.
Qed.

Lemma join_last sep (F : list jsstring) ln :
  last F = Some ln -> ln <> [] -> last (join sep F) = last ln.
Proof.
  intros HF Hn. induction F as [|x F IH]; [done|].
  destruct F as [|y F].
  - by injection HF as ->.
  - rewrite last_cons_cons in HF. rewrite join_cons, !last_app.
    rewrite (IH HF). destruct (last ln) eqn:E; [done|].
    by apply last_None in E.
Qed.

Lemma formatted_trimmed s :
  trimmed s -> trimmed (join [LF] (format_lines true (split LF s))).
Proof.
  destruct s as [|c t]; [done|]. intros (Hc & d & Hd & Hw).
  assert (c <> LF) as HcLF by (by intros ->).
  assert (d <> LF) as HdLF by (by intros ->).
  destruct (split_first c t HcLF) as (l & ls & E1).
  destruct (split_last _ d Hd HdLF) as (L & ln & E2 & Hln).
  destruct (trim_first c l Hc) as [t' Ht'].
  pose proof (trim_last ln d Hln Hw) as Hlast.
  assert (trim ln <> []) as Hne by (intros H; by rewrite H in Hlast).
  assert (exists r, join [LF] (format_lines true (split LF (c :: t))) = c :: r) as [r Hr].
  { rewrite E1. destruct (format_lines_cons true (c :: l) ls)
      as [(H & _)|[(H & _)|(_ & ->)]]; try congruence.
    rewrite Ht'. destruct (format_lines true ls); by eexists. }
  rewrite Hr. split; [done|]. exists d. split; [|done].
  rewrite <- Hr, E2, format_lines_snoc by done.
  rewrite (join_last _ _ (trim ln)); [done | by rewrite last_snoc | done].
Qed.

Lemma formatted_fixed x :
  let out := join [LF] (format_lines true (split LF (sanitize_string x))) in
  sanitize_string out = out.
Proof.
  intros out. pose proof (format_lines_sublist true (split LF (sanitize_string x))) as Hsub.
  rewrite join_split in Hsub. fold out in Hsub.
  apply sanitize_string_fixed.
  - eapply no_tag_sublist; [exact Hsub | apply sanitize_string_no_tag].
  - intros H. apply (sanitize_string_no_CR x). by eapply elem_of_sublist.
  - intros a b E. pose proof (blank_run_blank_lines a b) as H2. rewrite <- E in H2.
    unfold blank_lines, out in H2. rewrite split_formatted in H2.
    pose proof (format_lines_blank true (split LF (sanitize_string x))) as H1.
    cbn beta iota in H1. lia.
  - apply formatted_trimmed, sanitize_string_trimmed.
Qed.

(** X26.  formatPGN is idempotent: formatting the result of formatPGN
    gives that result again, for every value. *)
Theorem formatPGN_idempotent (v : value) :
  formatPGN v ≫= formatPGN = formatPGN v.
Proof.
  destruct (sanitizePGN_returns v) as [x Hs].
  rewrite (formatPGN_eq v _ Hs). cbn [mbind completion_bind Js.bind].
  rewrite (formatPGN_eq _ _ (sanitizePGN_string _)), formatted_fixed.
  by rewrite split_formatted, format_lines_fixed.
Qed.

(** *** The header pattern on a line and on the trimmed line *)

Lemma match_header_caps l :
  match_header l
  = match caps_of (exec false PGN_HEADER l) with
    | Some caps =>
        match cap_lookup 1 caps, cap_lookup 2 caps with
        | Some key, Some value => Some (key, value)
        | _, _ => None
        end
    | None => None
    end.
Proof. unfold match_header. by destruct (exec false PGN_HEADER l). Qed.

Lemma header_here_inv prev s st :
  LF ∉ s -> match_here false PGN_HEADER prev s = Some st ->
  exists K ws v rest,
    s = header_line K ws v ++ rest /\ m_caps st = [(2%nat, v); (1%nat, K)]
    /\ K <> [] /\ Forall (fun c => in_ranges WORD c = true) K
    /\ header_shape ws v.
Proof.
  intros Hs H. apply match_here_sound, den_PGN_HEADER in H
    as (K & ws & v & R & C & HK & FK & Hw & Fw & Hv & Hq).
  cbn [m_rest m_caps] in R, C. exists K, ws, v, (m_rest st).
  split; [done|]. split; [done|]. split; [done|]. split; [done|].
  rewrite R, header_line_app in Hs.
  split; try done.
  - intros H. apply Hs. set_solver.
  - intros H. apply Hs. set_solver.
Qed.

Lemma header_line_last K ws v : last (header_line K ws v) = Some (cu "]").
Proof.
  apply last_Some. exists (cu "[" :: K ++ ws ++ QUOTE :: v ++ [QUOTE]).
  unfold header_line. cbn [app]. f_equal. rewrite <- !app_assoc. do 2 f_equal.
  cbn [app]. f_equal. by rewrite <- app_assoc.
Qed.

(** White space behind the text does not change what the pattern finds
    at its start. *)
Lemma header_here_ext prev prev' s w :
  LF ∉ s ++ w -> Forall (fun c => is_ws c = true) w ->
  caps_of (match_here false PGN_HEADER prev s)
  = caps_of (match_here false PGN_HEADER prev' (s ++ w)).
Proof.
  intros HLF Hw.
  assert (LF ∉ s) as Hs by (intros H; apply HLF; set_solver).
  destruct (match_here false PGN_HEADER prev s) as [st|] eqn:E1.
  - destruct (header_here_inv _ _ _ Hs E1) as (K & ws & v & rest & -> & C & HK & FK & Hsh).
    rewrite <- app_assoc.
    destruct (match_here_header_line prev' K ws v (rest ++ w) HK FK Hsh) as (st' & -> & C').
    cbn. by rewrite C, C'.
  - destruct (match_here false PGN_HEADER prev' (s ++ w)) as [st|] eqn:E2; [|done].
    exfalso.
    destruct (header_here_inv _ _ _ HLF E2) as (K & ws & v & rest & E & C & HK & FK & Hsh).
    apply app_eq_inv in E as [(k & -> & _)|(k & Hk & ->)].
    + destruct (match_here_header_line prev K ws v k HK FK Hsh) as (st' & E' & _).
      congruence.
    + destruct k as [|k0 k] using rev_ind.
      * rewrite app_nil_r in Hk. subst s.
        destruct (match_here_header_line prev K ws v [] HK FK Hsh) as (st' & E' & _).
        rewrite app_nil_r in E'. congruence.
      * pose proof (header_line_last K ws v) as Hl.
        rewrite Hk, app_assoc, last_snoc in Hl. injection Hl as ->.
        apply Forall_app in Hw as [Hw _]. apply Forall_app in Hw as [_ Hw].
        by inversion Hw.
Qed.

Lemma search_ws prev w :
  LF ∉ w -> Forall (fun c => is_ws c = true) w ->
  search false PGN_HEADER prev w = None.
Proof.
  intros HLF Hw. revert prev. induction w as [|c w IH]; intros prev.
  - reflexivity.
  - cbn [search].
    destruct (match_here false PGN_HEADER prev (c :: w)) as [st|] eqn:E.
    + destruct (header_here_inv _ _ _ HLF E) as (K & ws & v & rest & E' & _).
      rewrite header_line_app in E'. injection E' as -> _. by inversion Hw.
    + apply IH; [|by inversion Hw]. intros Hin. apply HLF. by right.
Qed.

Lemma search_ext s : forall prev prev' w,
  LF ∉ s ++ w -> Forall (fun c => is_ws c = true) w ->
  caps_of (search false PGN_HEADER prev s)
  = caps_of (search false PGN_HEADER prev' (s ++ w)).
Proof.
  induction s as [|c s IH]; intros prev prev' w HLF Hw.
  - cbn [app] in *. rewrite (search_ws prev' w) by done. reflexivity.
  - pose proof (header_here_ext prev prev' (c :: s) w HLF Hw) as H.
    cbn [search app] in *.
    destruct (match_here false PGN_HEADER prev (c :: s)) as [st|],
             (match_here false PGN_HEADER prev' (c :: s ++ w)) as [st'|];
      try done.
    apply IH; [|done]. intros Hin. apply HLF. by right.
Qed.

Lemma search_skip_ws w : forall prev s,
  LF ∉ w ++ s -> Forall (fun c => is_ws c = true) w ->
  exists prev', search false PGN_HEADER prev (w ++ s)
                = search false PGN_HEADER prev' s.
Proof.
  induction w as [|c w IH]; intros prev s HLF Hw; [by exists prev|].
  cbn [app search] in *.
  destruct (match_here false PGN_HEADER prev (c :: w ++ s)) as [st|] eqn:E.
  - destruct (header_here_inv _ _ _ HLF E) as (K & ws & v & rest & E' & _).
    rewrite header_line_app in E'. injection E' as -> _. by inversion Hw.
  - apply IH; [|by inversion Hw]. intros Hin. apply HLF. by right.
Qed.

Lemma match_header_trim l : LF ∉ l -> match_header (trim l) = match_header l.
Proof.
  intros HLF. rewrite !match_header_caps.
  destruct (trim_split l) as (a & b & E & Ha & Hb).
  remember (trim l) as t eqn:Et. clear Et. subst l. unfold exec.
  destruct (search_skip_ws a None (t ++ b) HLF Ha) as [prev' ->].
  rewrite (search_ext t None prev' b); [done | | done].
  intros H. apply HLF, elem_of_app. by right.
Qed.

Lemma match_header_nil : match_header [] = None.
Proof. reflexivity. Qed.

Lemma add_header_trim h l : LF ∉ l -> add_header h (trim l) = add_header h l.
Proof. intros H. unfold add_header. by rewrite match_header_trim. Qed.

Lemma fold_format_lines lines : forall b h,
  Forall (fun l => LF ∉ l) lines ->
  fold_left add_header (format_lines b lines) h = fold_left add_header lines h.
Proof.
  induction lines as [|line rest IH]; intros b h HF; [done|].
  apply Forall_cons in HF as [Hl HF].
  format_cases b line rest; cbn [fold_left].
  - rewrite IH by done. f_equal.
    rewrite <- (add_header_trim h line Hl), Ht. done.
  - rewrite IH by done. f_equal.
    rewrite <- (add_header_trim h line Hl), Ht. done.
  - rewrite IH by done. f_equal. by apply add_header_trim.
Qed.

Lemma extractHeaders_formatted s :
  extractHeaders (join [LF] (format_lines true (split LF s))) = extractHeaders s.
Proof.
  unfold extractHeaders. rewrite split_formatted. apply fold_format_lines.
  apply Forall_forall. intros l. apply split_elem_LF.
Qed.

(** X27.  formatPGN keeps the headers: extractHeaders reads from the
    formatted record the same headers, with the same values, as from the
    sanitized record. *)
Theorem formatPGN_keeps_headers (v : value) :
  exists s out,
    sanitizePGN v = Normal (VString s)
    /\ formatPGN v = Normal (VString out)
    /\ extractHeaders out = extractHeaders s.
Proof.
  destruct (sanitizePGN_returns v) as [x Hs].
  eexists _, _. split; [exact Hs|]. split; [by apply formatPGN_eq|].
  apply extractHeaders_formatted.
Qed.

(** *** prepareForLichess *)

Section LowerCase.
Variable toLowerCase : jsstring -> jsstring.

Lemma sanitize_string_idem x : sanitize_string (sanitize_string x) = sanitize_string x.
Proof.
  apply sanitize_string_fixed;
    [ apply sanitize_string_no_tag | apply sanitize_string_no_CR
    | apply sanitize_string_no_blank_run | apply sanitize_string_trimmed ].
Qed.

Lemma validatePGN_trimmed s :
  s <> [] -> trimmed s ->
  validatePGN toLowerCase (VString s)
  = Validation (length (missing_headers (extractHeaders s)) =? 0)%nat
      (missing_headers (extractHeaders s))
      (moves_warning s ++ result_warning (extractHeaders s)
       ++ variant_warning toLowerCase (extractHeaders s)).
Proof.
  intros Hn Ht. pose proof (trimmed_id s Ht) as E.
  rewrite validatePGN_string by congruence. by rewrite E.
Qed.

Lemma first_missing h :
  missing_headers h <> [] ->
  exists K, K ∈ REQUIRED_HEADERS
            /\ first_error (missing_headers h) = lit "Missing required header: " ++ K.
Proof.
  intros Hne. destruct (missing_headers h) as [|msg rest] eqn:E; [done|].
  assert (msg ∈ missing_headers h) as Hin by (rewrite E; left).
  apply missing_headers_elem in Hin as (K & HK & _ & ->).
  exists K. split; [done|]. reflexivity.
Qed.

(** The result of prepareForLichess on a string in the shape
    sanitizePGN produces. *)
Lemma prepare_sanitized v s :
  sanitizePGN v = Normal (VString s) -> sanitize_string s = s -> trimmed s ->
  prepareForLichess toLowerCase v
  = Normal
      (if valid (validatePGN toLowerCase (VString s))
       then Prepared true
              (Some (VString (join [LF] (format_lines true (split LF s))))) None
       else Prepared false None
              (Some (first_error (errors (validatePGN toLowerCase (VString s)))))).
Proof.
  intros Hs Hfix Ht. unfold prepareForLichess. rewrite Hs.
  cbn [mbind completion_bind Js.bind].
  destruct (valid (validatePGN toLowerCase (VString s))); cbn [negb]; [|done].
  rewrite (formatPGN_eq (VString s) s); [done|].
  by rewrite sanitizePGN_string, Hfix.
Qed.

(** X28.  prepareForLichess never throws, and it ends in one of two
    ways.  Either the record is valid: then there is no error and the
    record returned is what formatPGN gives for the argument.  Or it is
    not: then no record is returned, and the error is the text for an
    empty or ill-typed record or names a required header that is
    missing; the texts [PGN is empty] and [Invalid PGN format] are
    never the error. *)
Theorem prepareForLichess_outcome (v : value) :
  exists p,
    prepareForLichess toLowerCase v = Normal p
    /\ ((p_valid p = true /\ p_error p = None
         /\ exists out, p_pgn p = Some (VString out)
                         /\ formatPGN v = Normal (VString out))
        \/ (p_valid p = false /\ p_pgn p = None
            /\ exists msg,
                 p_error p = Some msg
                 /\ (msg = lit "PGN is empty or invalid type"
                     \/ exists K, K ∈ REQUIRED_HEADERS
                                  /\ msg = lit "Missing required header: " ++ K))).
Proof.
  destruct (sanitizePGN_returns v) as [x Hs].
  pose proof (prepare_sanitized v _ Hs (sanitize_string_idem x)
                (sanitize_string_trimmed x)) as Hp.
  eexists. split; [exact Hp|].
  destruct (sanitize_string x) as [|c t] eqn:E.
  { right. cbn. split; [done|]. split; [done|]. eexists. split; [done|]. by left. }
  rewrite <- E in *.
  assert (sanitize_string x <> []) as Hne by (by rewrite E).
  rewrite validatePGN_trimmed by (done || apply sanitize_string_trimmed).
  cbn [valid errors].
  destruct (missing_headers (extractHeaders (sanitize_string x))) as [|m ms] eqn:Em.
  - left. cbn. split; [done|]. split; [done|]. eexists. split; [done|].
    by apply formatPGN_eq.
  - right. cbn [length Nat.eqb p_valid p_pgn p_error].
    split; [done|]. split; [done|]. eexists. split; [done|]. right.
    rewrite <- Em. apply first_missing. by rewrite Em.
Qed.

(** X29.  A prepared record passes again, unchanged: when
    prepareForLichess returns a record, prepareForLichess of that record
    is valid and returns the same record. *)
Theorem prepareForLichess_fixed (v : value) (p : prepared) (out : value) :
  prepareForLichess toLowerCase v = Normal p ->
  p_pgn p = Some out ->
  prepareForLichess toLowerCase out = Normal (Prepared true (Some out) None).
Proof.
  destruct (sanitizePGN_returns v) as [x Hs].
  rewrite (prepare_sanitized v _ Hs (sanitize_string_idem x)
             (sanitize_string_trimmed x)).
  pose proof (sanitize_string_trimmed x) as Hts.
  pose proof (formatted_fixed x) as Hfix. cbv zeta in Hfix.
  remember (sanitize_string x) as s eqn:Es. clear Es Hs.
  remember (join [LF] (format_lines true (split LF s))) as o eqn:Eo.
  destruct (valid (validatePGN toLowerCase (VString s))) eqn:Hv;
    intros [= <-]; [|done]. cbn [p_pgn]. intros [= <-].
  assert (extractHeaders o = extractHeaders s) as Hh
      by (rewrite Eo; apply extractHeaders_formatted).
  assert (missing_headers (extractHeaders s) = []) as Hm.
  { destruct (decide (s = [])) as [->|Hn]; [done|].
    rewrite validatePGN_trimmed in Hv by done.
    cbn [valid] in Hv. by apply length_zero in Hv. }
  assert (o <> []) as Ho.
  { intros E. rewrite E in Hh. by rewrite <- Hh in Hm. }
  assert (trimmed o) as Hto by (rewrite Eo; by apply formatted_trimmed).
  rewrite (prepare_sanitized (VString o) o);
    [| by rewrite sanitizePGN_string, Hfix | done | done].
  rewrite validatePGN_trimmed by done. cbn [valid]. rewrite Hh, Hm.
  cbn [length Nat.eqb]. do 3 f_equal.
  rewrite Eo at 1. rewrite split_formatted, format_lines_fixed. by rewrite Eo.
Qed.
End LowerCase.

Lemma prepareForLichess_fixed_witness :
  prepareForLichess ascii_toLowerCase (VString MovesSpec.raw_record)
  = Normal (Prepared true (Some (VString complete_record)) None)
  /\ prepareForLichess ascii_toLowerCase (VString complete_record)
     = Normal (Prepared true (Some (VString complete_record)) None).
Proof.
  assert (prepareForLichess ascii_toLowerCase (VString MovesSpec.raw_record)
          = Normal (Prepared true (Some (VString complete_record)) None)) as H
      by (by vm_compute).
  split; [exact H|].
  exact (prepareForLichess_fixed ascii_toLowerCase (VString MovesSpec.raw_record)
           _ (VString complete_record) H eq_refl).
Defined.

(** *** extractMoves *)

Import MovesSpec.

Lemma kept_cons line rest :
  kept (line :: rest)
  = if (length (trim line) =? 0)%nat then kept rest else trim line :: kept rest.
Proof. unfold kept. cbn [map List.filter]. by destruct (length (trim line) =? 0)%nat. Qed.

Lemma move_lines_in_moves lines : forall acc,
  move_lines true acc lines = rev acc ++ kept lines.
Proof.
  induction lines as [|line rest IH]; intros acc.
  - cbn. by rewrite app_nil_r.
  - cbn [move_lines]. rewrite kept_cons.
    destruct (length (trim line) =? 0)%nat.
    + rewrite <- (IH acc). by destruct (0 <? length acc)%nat.
    + destruct (negb (test false PGN_HEADER (trim line)));
        rewrite IH; cbn [rev]; by rewrite <- app_assoc.
Qed.

Lemma move_lines_start lines :
  move_lines false [] lines = kept (from_first_move lines).
Proof.
  induction lines as [|line rest IH]; [done|].
  cbn [move_lines from_first_move].
  destruct (length (trim line) =? 0)%nat eqn:E; cbn [orb length Nat.ltb Nat.leb].
  - exact IH.
  - destruct (test false PGN_HEADER (trim line)); cbn [negb].
    + exact IH.
    + rewrite move_lines_in_moves, kept_cons, E. done.
Qed.

Lemma from_first_move_suffix lines : exists pre, lines = pre ++ from_first_move lines.
Proof.
  induction lines as [|line rest [pre IH]]; [by exists []|].
  cbn [from_first_move].
  destruct ((length (trim line) =? 0)%nat || test false PGN_HEADER (trim line)).
  - exists (line :: pre). cbn [app]. by f_equal.
  - by exists [].
Qed.

Lemma join_no_LF sep (F : list jsstring) :
  LF ∉ sep -> Forall (fun l => LF ∉ l) F -> LF ∉ join sep F.
Proof.
  intros Hsep HF. induction F as [|x F IH]; [apply not_elem_of_nil|].
  apply Forall_cons in HF as [Hx HF]. destruct F as [|y F]; [done|].
  rewrite join_cons, !not_elem_of_app. split; [done|]. split; [done|]. by apply IH.
Qed.

(** X30.  extractMoves returns the moves on one line: joined by single
    blanks, the trimmed lines that are not empty, from the first line on
    that is neither blank nor matched by the header pattern; so a header
    behind the first move is part of the result, the test of the blank
    lines changes nothing, and the result holds no newline. *)
Theorem extractMoves_from_first_move (pgn : jsstring) :
  extractMoves pgn = join (lit " ") (kept (from_first_move (split LF pgn)))
  /\ LF ∉ extractMoves pgn.
Proof.
  unfold extractMoves. rewrite move_lines_start. split; [done|].
  apply join_no_LF; [apply (bool_decide_unpack _); by vm_compute|].
  apply Forall_forall. intros l Hl. unfold kept in Hl.
  apply list_elem_of_In, List.filter_In in Hl as [Hl _].
  apply list_elem_of_In, list_elem_of_fmap in Hl as (l0 & -> & Hl0).
  destruct (from_first_move_suffix (split LF pgn)) as [pre E].
  assert (l0 ∈ split LF pgn) as Hin by (rewrite E; apply elem_of_app; by right).
  intros H. apply (split_elem_LF _ _ Hin).
  eapply elem_of_sublist; [exact H | apply trim_sublist].
Qed.

(** The moves of the example: the header behind them is kept. *)
Example extractMoves_example :
  extractMoves moves_example
  = lit "1. e4 e5 2. Nf3 " ++ header_line (lit "Result") (lit " ") (lit "1-0").
Proof. by vm_compute. Qed.

End FormatMore.
